(** * Author-line parser and TeX transliterator of [update_kaggle_metadata.py]

    A shallow embedding of the two pure text functions of the script,
    [parse_author_affil_utf] (with [split_authors], [_add_affiliation],
    [_parse_author_affil_back_propagate] ...) and [tex2utf], together with the
    part of Python's [re] module they rely on, and of the merge of two
    sorted files of records, [merge_files] with [get_json_paper_id].

    Python strings are lists of Unicode code points.  Regular expressions are
    abstract syntax trees run by a backtracking matcher that follows the
    priorities of CPython's engine (leftmost match, greedy repetition,
    alternatives tried in order).  In comments a pattern of the script is
    written with a blank between a star and a closing parenthesis.  The semantics is that of CPython 3.7 and
    later ([re.escape] escapes the space, [re.sub] replaces an empty match
    that follows a non-empty one). *)

From Stdlib Require Import String Ascii.
From Stdlib Require Import List NArith ZArith Bool Arith Lia.
Import ListNotations.

Local Open Scope N_scope.
Local Open Scope list_scope.

(** ** Characters and strings *)

Definition char := N.
Definition str := list char.

(** An ASCII literal of the script, as a list of code points. *)
Definition s_ (s : string) : str := map N_of_ascii (list_ascii_of_string s).
Arguments s_ s%_string.

Fixpoint str_eqb (a b : str) : bool :=
  match a, b with
  | [], [] => true
  | x :: a', y :: b' => (x =? y) && str_eqb a' b'
  | _, _ => false
  end.

Definition in_range (lo hi c : char) : bool := (lo <=? c) && (c <=? hi).

Definition cclass := char -> bool.

Definition chr (a : char) : cclass := fun c => c =? a.
Definition one_of (l : str) : cclass := fun c => existsb (N.eqb c) l.
Definition none_of (l : str) : cclass := fun c => negb (existsb (N.eqb c) l).
Definition neg (p : cclass) : cclass := fun c => negb (p c).
Definition either (p q : cclass) : cclass := fun c => p c || q c.

(** [\s] and [str.strip]: the characters CPython calls whitespace. *)
Definition is_space : cclass := fun c =>
  in_range 9 13 c || in_range 28 32 c || (c =? 133) || (c =? 160)
  || (c =? 5760) || in_range 8192 8202 c || (c =? 8232) || (c =? 8233)
  || (c =? 8239) || (c =? 8287) || (c =? 12288).

(** [.] without DOTALL. *)
Definition dot : cclass := fun c => negb (c =? 10).

Definition is_upper_ascii : cclass := in_range 65 90.
Definition is_lower_ascii : cclass := in_range 97 122.
Definition is_alpha_ascii : cclass := either is_upper_ascii is_lower_ascii.
Definition is_digit_ascii : cclass := in_range 48 57.
Definition lower_ascii (c : char) : char := if is_upper_ascii c then c + 32 else c.

(** ** Regular expressions *)

Inductive regex : Type :=
| Eps
| Cls (p : cclass)
| Cat (r1 r2 : regex)
| Alt (r1 r2 : regex)
| Star (p : cclass)
| Opt (r : regex)
| Grp (n : nat) (r : regex)
| Bol
| Eol
| Wordb
| Ahead (r : regex)
| NotBehind (p : cclass)
| IfGrp (n : nat) (r1 r2 : regex).

Fixpoint seq (rs : list regex) : regex :=
  match rs with
  | [] => Eps
  | [r] => r
  | r :: rs' => Cat r (seq rs')
  end.

Fixpoint alts (rs : list regex) : regex :=
  match rs with
  | [] => Eps
  | [r] => r
  | r :: rs' => Alt r (alts rs')
  end.

Definition Plus (p : cclass) : regex := Cat (Cls p) (Star p).
Definition lit (s : str) : regex := seq (map (fun c => Cls (chr c)) s).

(** Captured groups, most recent first. *)
Definition caps := list (nat * str).

Fixpoint group (n : nat) (g : caps) : option str :=
  match g with
  | [] => None
  | (k, t) :: g' => if Nat.eqb k n then Some t else group n g'
  end.

Definition group_or_empty (n : nat) (g : caps) : str :=
  match group n g with Some t => t | None => [] end.

(** The state of a match: the text already passed (reversed), the text left
    and the groups. *)
Definition result := (str * str * caps)%type.
Definition cont := str -> str -> caps -> option result.

Definition final : cont := fun pre suf g => Some (pre, suf, g).

Fixpoint star (p : cclass) (pre suf : str) (g : caps) (k : cont) : option result :=
  match suf with
  | c :: suf' =>
      if p c then
        match star p (c :: pre) suf' g k with
        | Some r => Some r
        | None => k pre suf g
        end
      else k pre suf g
  | [] => k pre suf g
  end.

(** [accents]: the accent mark or letter, then the letter, to the code point;
    a key with a double quote is written as its code points, 34 first. *)
Definition accents : list (str * N) :=
  [(s_ "'A", 0x00c1); (s_ "'C", 0x0106); (s_ "'E", 0x00c9); (s_ "'I", 0x00cd);
   (s_ "'L", 0x0139); (s_ "'N", 0x0143); (s_ "'O", 0x00d3); (s_ "'R", 0x0154);
   (s_ "'S", 0x015a); (s_ "'U", 0x00da); (s_ "'Y", 0x00dd); (s_ "'Z", 0x0179);
   (s_ "'a", 0x00e1); (s_ "'c", 0x0107); (s_ "'e", 0x00e9); (s_ "'i", 0x00ed);
   (s_ "'l", 0x013a); (s_ "'n", 0x0144); (s_ "'o", 0x00f3); (s_ "'r", 0x0155);
   (s_ "'s", 0x015b); (s_ "'u", 0x00fa); (s_ "'y", 0x00fd); (s_ "'z", 0x017a);
   ([34; 65], 0x00c4); ([34; 69], 0x00cb); ([34; 73], 0x00cf); ([34; 79], 0x00d6);
   ([34; 85], 0x00dc); ([34; 89], 0x0178); ([34; 97], 0x00e4); ([34; 101], 0x00eb);
   ([34; 105], 0x00ef); ([34; 111], 0x00f6); ([34; 117], 0x00fc); ([34; 121], 0x00ff);
   (s_ ".A", 0x0226); (s_ ".C", 0x010a); (s_ ".E", 0x0116); (s_ ".G", 0x0120);
   (s_ ".I", 0x0130); (s_ ".O", 0x022e); (s_ ".Z", 0x017b); (s_ ".a", 0x0227);
   (s_ ".c", 0x010b); (s_ ".e", 0x0117); (s_ ".g", 0x0121); (s_ ".o", 0x022f);
   (s_ ".z", 0x017c); (s_ "=A", 0x0100); (s_ "=E", 0x0112); (s_ "=I", 0x012a);
   (s_ "=O", 0x014c); (s_ "=U", 0x016a); (s_ "=Y", 0x0232); (s_ "=a", 0x0101);
   (s_ "=e", 0x0113); (s_ "=i", 0x012b); (s_ "=o", 0x014d); (s_ "=u", 0x016b);
   (s_ "=y", 0x0233); (s_ "^A", 0x00c2); (s_ "^C", 0x0108); (s_ "^E", 0x00ca);
   (s_ "^G", 0x011c); (s_ "^H", 0x0124); (s_ "^I", 0x00ce); (s_ "^J", 0x0134);
   (s_ "^O", 0x00d4); (s_ "^S", 0x015c); (s_ "^U", 0x00db); (s_ "^W", 0x0174);
   (s_ "^Y", 0x0176); (s_ "^a", 0x00e2); (s_ "^c", 0x0109); (s_ "^e", 0x00ea);
   (s_ "^g", 0x011d); (s_ "^h", 0x0125); (s_ "^i", 0x00ee); (s_ "^j", 0x0135);
   (s_ "^o", 0x00f4); (s_ "^s", 0x015d); (s_ "^u", 0x00fb); (s_ "^w", 0x0175);
   (s_ "^y", 0x0177); (s_ "`A", 0x00c0); (s_ "`E", 0x00c8); (s_ "`I", 0x00cc);
   (s_ "`O", 0x00d2); (s_ "`U", 0x00d9); (s_ "`a", 0x00e0); (s_ "`e", 0x00e8);
   (s_ "`i", 0x00ec); (s_ "`o", 0x00f2); (s_ "`u", 0x00f9); (s_ "~A", 0x00c3);
   (s_ "~I", 0x0128); (s_ "~N", 0x00d1); (s_ "~O", 0x00d5); (s_ "~U", 0x0168);
   (s_ "~a", 0x00e3); (s_ "~i", 0x0129); (s_ "~n", 0x00f1); (s_ "~o", 0x00f5);
   (s_ "~u", 0x0169); (s_ "HO", 0x0150); (s_ "HU", 0x0170); (s_ "Ho", 0x0151);
   (s_ "Hu", 0x0171); (s_ "cC", 0x00c7); (s_ "cE", 0x0228); (s_ "cG", 0x0122);
   (s_ "cK", 0x0136); (s_ "cL", 0x013b); (s_ "cN", 0x0145); (s_ "cR", 0x0156);
   (s_ "cS", 0x015e); (s_ "cT", 0x0162); (s_ "cc", 0x00e7); (s_ "ce", 0x0229);
   (s_ "cg", 0x0123); (s_ "ck", 0x0137); (s_ "cl", 0x013c); (s_ "cn", 0x0146);
   (s_ "cr", 0x0157); (s_ "cs", 0x015f); (s_ "ct", 0x0163); (s_ "kA", 0x0104);
   (s_ "kE", 0x0118); (s_ "kI", 0x012e); (s_ "kO", 0x01ea); (s_ "kU", 0x0172);
   (s_ "ka", 0x0105); (s_ "ke", 0x0119); (s_ "ki", 0x012f); (s_ "ko", 0x01eb);
   (s_ "ku", 0x0173); (s_ "rA", 0x00c5); (s_ "rU", 0x016e); (s_ "ra", 0x00e5);
   (s_ "ru", 0x016f); (s_ "uA", 0x0102); (s_ "uE", 0x0114); (s_ "uG", 0x011e);
   (s_ "uI", 0x012c); (s_ "uO", 0x014e); (s_ "uU", 0x016c); (s_ "ua", 0x0103);
   (s_ "ue", 0x0115); (s_ "ug", 0x011f); (s_ "ui", 0x012d); (s_ "uo", 0x014f);
   (s_ "uu", 0x016d); (s_ "vA", 0x01cd); (s_ "vC", 0x010c); (s_ "vD", 0x010e);
   (s_ "vE", 0x011a); (s_ "vG", 0x01e6); (s_ "vH", 0x021e); (s_ "vI", 0x01cf);
   (s_ "vK", 0x01e8); (s_ "vL", 0x013d); (s_ "vN", 0x0147); (s_ "vO", 0x01d1);
   (s_ "vR", 0x0158); (s_ "vS", 0x0160); (s_ "vT", 0x0164); (s_ "vU", 0x01d3);
   (s_ "vZ", 0x017d); (s_ "va", 0x01ce); (s_ "vc", 0x010d); (s_ "vd", 0x010f);
   (s_ "ve", 0x011b); (s_ "vg", 0x01e7); (s_ "vh", 0x021f); (s_ "vi", 0x01d0);
   (s_ "vk", 0x01e9); (s_ "vl", 0x013e); (s_ "vn", 0x0148); (s_ "vo", 0x01d2);
   (s_ "vr", 0x0159); (s_ "vs", 0x0161); (s_ "vt", 0x0165); (s_ "vu", 0x01d4);
   (s_ "vz", 0x017e)].

(** [textlet] *)
Definition textlet : list (str * N) :=
  [(s_ "AA", 0x00c5); (s_ "AE", 0x00c6); (s_ "DH", 0x00d0); (s_ "DJ", 0x0110);
   (s_ "ETH", 0x00d0); (s_ "L", 0x0141); (s_ "NG", 0x014a); (s_ "O", 0x00d8);
   (s_ "oe", 0x0153); (s_ "OE", 0x0152); (s_ "TH", 0x00de); (s_ "aa", 0x00e5);
   (s_ "ae", 0x00e6); (s_ "dh", 0x00f0); (s_ "dj", 0x0111); (s_ "eth", 0x00f0);
   (s_ "i", 0x0131); (s_ "l", 0x0142); (s_ "ng", 0x014b); (s_ "o", 0x00f8);
   (s_ "ss", 0x00df); (s_ "th", 0x00fe)].

(** [textgreek] *)
Definition textgreek : list (str * N) :=
  [(s_ "Gamma", 0x0393); (s_ "Delta", 0x0394); (s_ "Theta", 0x0398);
   (s_ "Lambda", 0x039b); (s_ "Xi", 0x039e); (s_ "Pi", 0x03a0); (s_ "Sigma", 0x03a3);
   (s_ "Upsilon", 0x03a5); (s_ "Phi", 0x03a6); (s_ "Psi", 0x03a8); (s_ "Omega", 0x03a9);
   (s_ "alpha", 0x03b1); (s_ "beta", 0x03b2); (s_ "gamma", 0x03b3); (s_ "delta", 0x03b4);
   (s_ "epsilon", 0x03b5); (s_ "zeta", 0x03b6); (s_ "eta", 0x03b7); (s_ "theta", 0x03b8);
   (s_ "iota", 0x03b9); (s_ "kappa", 0x03ba); (s_ "lambda", 0x03bb); (s_ "mu", 0x03bc);
   (s_ "nu", 0x03bd); (s_ "xi", 0x03be); (s_ "omicron", 0x03bf); (s_ "pi", 0x03c0);
   (s_ "rho", 0x03c1); (s_ "varsigma", 0x03c2); (s_ "sigma", 0x03c3); (s_ "tau", 0x03c4);
   (s_ "upsion", 0x03c5); (s_ "varphi", 0x03c6); (s_ "phi", 0x03d5); (s_ "chi", 0x03c7);
   (s_ "psi", 0x03c8); (s_ "omega", 0x03c9)].

(** [textsym] *)
Definition textsym : list (str * N) :=
  [(s_ "P", 0x00b6); (s_ "S", 0x00a7); (s_ "copyright", 0x00a9);
   (s_ "guillemotleft", 0x00ab); (s_ "guillemotright", 0x00bb); (s_ "pounds", 0x00a3);
   (s_ "dag", 0x2020); (s_ "ddag", 0x2021); (s_ "div", 0x00f7); (s_ "deg", 0x00b0)].

(** ** [get_json_paper_id] and [merge_files]

    A file is the list of its lines; what is written to the merged file is
    the list of the lines printed. *)

Fixpoint index_of (c : char) (s : str) : option nat :=
  match s with
  | [] => None
  | x :: s' => if x =? c then Some 0%nat else option_map S (index_of c s')
  end.

(** [s.find(c, start)] for a character [c]: the first index from [start] on,
    or -1. *)
Definition str_find (s : str) (c : char) (start : nat) : Z :=
  match index_of c (skipn start s) with
  | Some i => Z.of_nat (start + i)
  | None => (-1)%Z
  end.

(** [s[start:stop]] for a [start] that is not negative; a negative [stop]
    counts from the end. *)
Definition slice (s : str) (start : nat) (stop : Z) : str :=
  let n := Z.of_nat (length s) in
  let stop := if (stop <? 0)%Z then Z.max (n + stop) 0 else Z.min stop n in
  firstn (Z.to_nat stop - start) (skipn start s).

Definition get_json_paper_id (s : str) : str := slice s 7 (str_find s 34 7).


(** [f.readline()]: the next line, or the empty text at the end. *)
Definition readline (f : list str) : str * list str :=
  match f with
  | [] => ([], [])
  | l :: f' => (l, f')
  end.

Definition truthy (s : str) : bool :=
  match s with [] => false | _ :: _ => true end.

Record merge_state : Type := mk_merge_state {
  json_file : list str;
  tmp_sorted_file : list str;
  tmp_merged_file : list str;
  json_string : str;
  json_paper_id : str;
  tmp_sorted_string : str;
  tmp_sorted_paper_id : str;
  count_json_papers : nat;
  count_merged_papers : nat;
  count_new_papers : nat;
  count_replaced_papers : nat;
  count_sorted_papers : nat;
  count_identical_lines : nat
}.







Definition has_id (line : str) : bool := truthy (get_json_paper_id line).

(** The lines that the loop gets to see: those before the first line
    without a paper id, which the loop takes for the end of the file. *)
Fixpoint lines_read (f : list str) : list str :=
  match f with
  | [] => []
  | l :: f' => if has_id l then l :: lines_read f' else []
  end.



(** The state of the loop when [json] and [tmp_sorted] are still to be
    read, [out] is written and the counters are as given. *)
Definition reading (json tmp_sorted out : list str)
    (cj cm cn cr cs ci : nat) : merge_state :=
  mk_merge_state (snd (readline json)) (snd (readline tmp_sorted)) out
    (fst (readline json)) (get_json_paper_id (fst (readline json)))
    (fst (readline tmp_sorted)) (get_json_paper_id (fst (readline tmp_sorted)))
    cj cm cn cr cs ci.


(** Proof steps: take a hypothesis apart; find a character in a list. *)
Ltac break :=
  repeat match goal with
  | H : exists _, _ |- _ => destruct H
  | H : _ /\ _ |- _ => destruct H
  | H : _ \/ _ |- _ => destruct H
  | H : chr _ _ = true |- _ => apply N.eqb_eq in H
  | H : None = Some _ |- _ => discriminate H
  | H : final _ _ _ = Some (_, _, _) |- _ =>
      unfold final in H; injection H as ? ? ?
  | H : match ?s with [] => None | _ :: _ => _ end = Some _ |- _ =>
      destruct s eqn:?; [discriminate H|]
  | H : (if ?b then _ else None) = Some _ |- _ =>
      destruct b eqn:?; [|discriminate H]
  end; subst.

Ltac find_char := repeat rewrite in_app_iff; simpl; intuition.

(** ** Tables and lines for the examples

    The tables of a Python that knows no digit, letter or case outside
    ASCII; the texts of the examples are ASCII, where the tables are not
    consulted. *)

Definition ascii_digit : char -> bool := fun _ => false.
Definition ascii_word : char -> bool := fun _ => false.
Definition ascii_ci : char -> char -> bool := fun _ _ => false.


Section Unicode.

(** What Python takes from the Unicode database outside ASCII: the decimal
    digits of [\d], the alphanumerics of [\w], and which characters a cased
    non-ASCII pattern character matches under IGNORECASE. *)
Variable uni_digit : char -> bool.
Variable uni_word : char -> bool.
Variable uni_ci : char -> char -> bool.

Definition is_digit : cclass := fun c =>
  if c <? 128 then is_digit_ascii c else uni_digit c.

Definition is_word : cclass := fun c =>
  if c <? 128 then is_alpha_ascii c || is_digit_ascii c || (c =? 95)
  else uni_word c.

(** A literal character under IGNORECASE.  An ASCII letter matches both of
    its cases and the characters whose lower case it is: U+0130 and U+0131
    for i, U+017F for s, U+212A for k. *)
Definition chr_i (a : char) : cclass := fun c =>
  if a <? 128 then
    if is_alpha_ascii a then
      let l := lower_ascii a in
      (c =? l) || (c =? l - 32)
      || ((l =? 105) && ((c =? 304) || (c =? 305)))
      || ((l =? 115) && (c =? 383))
      || ((l =? 107) && (c =? 8490))
    else c =? a
  else uni_ci a c.

Definition lit_i (s : str) : regex := seq (map (fun c => Cls (chr_i c)) s).

(** [[a-z]] under IGNORECASE. *)
Definition az_i : cclass := fun c =>
  is_lower_ascii c || is_upper_ascii c
  || (c =? 304) || (c =? 305) || (c =? 383) || (c =? 8490).

Definition word_at (s : str) : bool :=
  match s with
  | c :: _ => is_word c
  | [] => false
  end.

(** The matcher, in continuation-passing style: [k] is the rest of the
    pattern; a [None] from it makes the matcher try its next choice. *)
Fixpoint m (r : regex) (pre suf : str) (g : caps) (k : cont) {struct r}
  : option result :=
  match r with
  | Eps => k pre suf g
  | Cls p =>
      match suf with
      | c :: suf' => if p c then k (c :: pre) suf' g else None
      | [] => None
      end
  | Cat r1 r2 => m r1 pre suf g (fun pre' suf' g' => m r2 pre' suf' g' k)
  | Alt r1 r2 =>
      match m r1 pre suf g k with
      | Some x => Some x
      | None => m r2 pre suf g k
      end
  | Star p => star p pre suf g k
  | Opt r1 =>
      match m r1 pre suf g k with
      | Some x => Some x
      | None => k pre suf g
      end
  | Grp n r1 =>
      m r1 pre suf g (fun pre' suf' g' =>
        k pre' suf'
          ((n, rev (firstn (length pre' - length pre) pre')) :: g'))
  | Bol => match pre with [] => k pre suf g | _ :: _ => None end
  | Eol =>
      match suf with
      | [] => k pre suf g
      | [c] => if c =? 10 then k pre suf g else None
      | _ => None
      end
  | Wordb => if xorb (word_at pre) (word_at suf) then k pre suf g else None
  | Ahead r1 =>
      match m r1 pre suf g final with
      | Some (_, _, g') => k pre suf g'
      | None => None
      end
  | NotBehind p =>
      match pre with
      | c :: _ => if p c then None else k pre suf g
      | [] => k pre suf g
      end
  | IfGrp n r1 r2 =>
      match group n g with
      | Some _ => m r1 pre suf g k
      | None => m r2 pre suf g k
      end
  end.

(** *** Match objects *)

Record rmatch : Type := mk_rmatch {
  m_text : str;          (* group 0 *)
  m_groups : caps
}.

Definition grp (n : nat) (mo : rmatch) : str := group_or_empty n (m_groups mo).

Definition consumed (pre : str) (res : result) : str :=
  let '(pre', _, _) := res in rev (firstn (length pre' - length pre) pre').

Definition to_match (pre : str) (res : result) : rmatch :=
  let '(_, _, g) := res in mk_rmatch (consumed pre res) g.

(** A match that has to consume something: the engine's [must_advance]. *)
Definition advancing (suf : str) : cont := fun pre' suf' g =>
  if (length suf' <? length suf)%nat then Some (pre', suf', g) else None.

Definition match_at (r : regex) (pre suf : str) : option rmatch :=
  option_map (to_match pre) (m r pre suf [] final).

Definition match_at_adv (r : regex) (pre suf : str) : option rmatch :=
  option_map (to_match pre) (m r pre suf [] (advancing suf)).

(** [re.match] *)
Definition re_match (r : regex) (s : str) : option rmatch := match_at r [] s.

Definition matches (r : regex) (s : str) : bool :=
  match re_match r s with Some _ => true | None => false end.

(** [re.search]: the leftmost position where the pattern matches. *)
Fixpoint search_from (r : regex) (pre suf : str) : option rmatch :=
  match match_at r pre suf with
  | Some mo => Some mo
  | None =>
      match suf with
      | c :: suf' => search_from r (c :: pre) suf'
      | [] => None
      end
  end.

Definition re_search (r : regex) (s : str) : option rmatch := search_from r [] s.

(** *** Scanning for all matches ([re.sub], [re.split])

    The string is cut into the matches and the single characters between
    them.  At a position the pattern is tried once; after an empty match it
    is tried again at the same place for a match that advances. *)
Inductive piece : Type :=
| Gap (c : char)
| Hit (mo : rmatch).

Definition hits_here (r : regex) (pre suf : str) : list piece * nat :=
  match match_at r pre suf with
  | None => ([], 0%nat)
  | Some mo =>
      match m_text mo with
      | _ :: _ => ([Hit mo], length (m_text mo))
      | [] =>
          match match_at_adv r pre suf with
          | None => ([Hit mo], 0%nat)
          | Some mo' => ([Hit mo; Hit mo'], length (m_text mo'))
          end
      end
  end.

Fixpoint scan (r : regex) (pre suf : str) (skip : nat) : list piece :=
  match skip with
  | S n =>
      match suf with
      | c :: suf' => scan r (c :: pre) suf' n
      | [] => fst (hits_here r pre suf)
      end
  | O =>
      let (hs, n) := hits_here r pre suf in
      match suf with
      | [] => hs
      | c :: suf' =>
          match n with
          | O => hs ++ Gap c :: scan r (c :: pre) suf' 0
          | S n' => hs ++ scan r (c :: pre) suf' n'
          end
      end
  end.

Definition re_finditer (r : regex) (s : str) : list piece := scan r [] s 0.

(** [re.sub] with a function as replacement. *)
Definition re_sub (r : regex) (repl : rmatch -> str) (s : str) : str :=
  concat (map (fun p => match p with Gap c => [c] | Hit mo => repl mo end)
              (re_finditer r s)).

(** [re.split] for a pattern whose groups are [gs]: the texts between the
    matches, each match leaving the texts of its groups. *)
Fixpoint split_pieces (gs : list nat) (cur : str) (ps : list piece) : list str :=
  match ps with
  | [] => [rev cur]
  | Gap c :: ps' => split_pieces gs (c :: cur) ps'
  | Hit mo :: ps' =>
      rev cur :: map (fun n => grp n mo) gs ++ split_pieces gs [] ps'
  end.

Definition re_split (r : regex) (gs : list nat) (s : str) : list str :=
  split_pieces gs [] (re_finditer r s).

(** ** Python string and dictionary helpers *)

Fixpoint lstrip (s : str) : str :=
  match s with
  | c :: s' => if is_space c then lstrip s' else s
  | [] => []
  end.

Definition rstrip (s : str) : str := rev (lstrip (rev s)).

(** [s.split(sep)] for a separator of one character. *)
Fixpoint str_split_aux (sep : char) (cur : str) (s : str) : list str :=
  match s with
  | [] => [rev cur]
  | c :: s' =>
      if c =? sep then rev cur :: str_split_aux sep [] s'
      else str_split_aux sep (c :: cur) s'
  end.

Definition str_split (sep : char) (s : str) : list str := str_split_aux sep [] s.

Definition dict := list (str * str).

Fixpoint dict_get (d : dict) (k : str) : option str :=
  match d with
  | [] => None
  | (k', v) :: d' => if str_eqb k' k then Some v else dict_get d' k
  end.

(** [d[k] = v]: an existing key keeps its place. *)
Fixpoint dict_set (d : dict) (k v : str) : dict :=
  match d with
  | [] => [(k, v)]
  | (k', v') :: d' =>
      if str_eqb k' k then (k', v) :: d' else (k', v') :: dict_set d' k v
  end.

Fixpoint dropwhile {A} (f : A -> bool) (l : list A) : list A :=
  match l with
  | x :: l' => if f x then dropwhile f l' else l
  | [] => []
  end.

(** ** [split_authors] *)

Definition not_space : cclass := neg is_space.

(** [(\(|\))] *)
Definition re_paren : regex := Grp 1 (Alt (Cls (chr 40)) (Cls (chr 41))).

(** [\s+] *)
Definition re_spaces : regex := Plus is_space.

(** [^\(] *)
Definition re_comment : regex := Cat Bol (Cls (chr 40)).

(** [,?\s+(and|\&)\s] *)
Definition re_and : regex :=
  seq [Opt (Cls (chr 44)); Plus is_space;
       Grp 1 (Alt (lit (s_ "and")) (Cls (chr 38))); Cls is_space].

(** [(,|:)\s*] *)
Definition re_comma : regex :=
  Cat (Grp 1 (Alt (Cls (chr 44)) (Cls (chr 58)))) (Star is_space).

(** [^(Jr\.?|Sr\.?\[IV]{2,})$]: the second alternative reads Sr, an optional
    dot, an opening bracket, IV, and two or more closing brackets. *)
Definition re_suffix : regex :=
  seq [Bol;
       Grp 1 (Alt (Cat (lit (s_ "Jr")) (Opt (Cls (chr 46))))
                  (seq [lit (s_ "Sr"); Opt (Cls (chr 46)); Cls (chr 91);
                        lit (s_ "IV"); Cls (chr 93); Cls (chr 93);
                        Star (chr 93)]));
       Eol].

(** [\)$], used with [re.match] *)
Definition re_closed : regex := Cat (Cls (chr 41)) Eol.

(** One turn of the loop over the bits between parentheses: the block being
    built, the depth, and the blocks closed so far. *)
Definition paren_step (st : str * Z * list str) (bit : str)
  : str * Z * list str :=
  let '(c, depth, blocks) := st in
  if str_eqb bit [] then st
  else if str_eqb bit (s_ "(") then
    let depth := (depth + 1)%Z in
    if (depth =? 1)%Z then (s_ "(", depth, blocks ++ [c])
    else (c ++ bit, depth, blocks)
  else if str_eqb bit (s_ ")") then
    let depth := (depth - 1)%Z in
    let c := c ++ bit in
    if (depth =? 0)%Z then ([], depth, blocks ++ [c])
    else (c, depth, blocks)
  else (c ++ bit, depth, blocks).

Definition paren_blocks (authors : str) : list str :=
  let aus := filter (fun x => negb (str_eqb x [])) (re_split re_paren [1%nat] authors) in
  match aus with
  | [_] => [authors]
  | _ =>
      let '(c, _, blocks) := fold_left paren_step aus ([], 0%Z, []) in
      match c with
      | [] => blocks
      | _ :: _ => blocks ++ [c]
      end
  end.

(** The names of one name block, in the inner loop. *)
Fixpoint block_names (names : list str) : list str :=
  match names with
  | [] => []
  | name :: rest =>
      match name with
      | [] => block_names rest
      | _ :: _ =>
          let name := lstrip (rstrip name) in
          match name with
          | [] => block_names rest
          | _ :: _ => name :: block_names rest
          end
      end
  end.

Definition block_tokens (block : str) : list str :=
  let block := re_sub re_spaces (fun _ => s_ " ") block in
  if matches re_comment block then [block]
  else
    let block := re_sub re_and (fun _ => s_ ",") block in
    block_names (re_split re_comma [1%nat] block).

(** One turn of the loop that recombines suffixes; [parts] is kept with its
    last element first. *)
Definition recombine_step (parts : list str) (p : str) : list str :=
  match parts with
  | separator :: last :: parts' =>
      if matches re_suffix p && str_eqb separator (s_ ",")
         && negb (matches re_closed last)
      then (last ++ separator ++ s_ " " ++ p) :: parts'
      else p :: parts
  | _ => p :: parts
  end.

Definition recombine (listx : list str) : list str :=
  rev (fold_left recombine_step listx []).

Definition split_authors (authors : str) : list str :=
  match authors with
  | [] => []
  | _ :: _ => recombine (flat_map block_tokens (paren_blocks authors))
  end.

(** ** [_parse_author_affil_split] and its helpers *)

Definition is_comma (x : str) : bool := str_eqb x (s_ ",").

(** The loop of [_remove_double_commas]. *)
Fixpoint remove_double_commas_from (last : str) (items : list str) : list str :=
  match items with
  | [] => []
  | pt :: items' =>
      if is_comma pt && is_comma last then remove_double_commas_from last items'
      else pt :: remove_double_commas_from pt items'
  end.

Definition _remove_double_commas (items : list str) : list str :=
  remove_double_commas_from [] items.

(** [\s\s+] *)
Definition re_two_spaces : regex := Cat (Cls is_space) (Plus is_space).

(** [(?<!\\)\.(\S)] *)
Definition re_dot_nonspace : regex :=
  seq [NotBehind (chr 92); Cls (chr 46); Grp 1 (Cls not_space)].

Definition _tidy_name (name : str) : str :=
  let name := re_sub re_two_spaces (fun _ => s_ " ") name in
  re_sub re_dot_nonspace (fun mo => s_ ". " ++ grp 1 mo) name.

(** [^[^](,]] *)
Definition re_name_start : regex := Cat Bol (Cls (none_of (s_ "](,"))).

(** [^\s*et\.?\s+al\.?\s*] with IGNORECASE *)
Definition re_et_al : regex :=
  seq [Bol; Star is_space; lit_i (s_ "et"); Opt (Cls (chr 46)); Plus is_space;
       lit_i (s_ "al"); Opt (Cls (chr 46)); Star is_space].

(** [([a-z0-9\s]+\s+(collaboration|group|team))] with IGNORECASE *)
Definition re_collaboration : regex :=
  Grp 1 (seq [Plus (either az_i (either is_digit_ascii is_space));
              Plus is_space;
              Grp 2 (alts [lit_i (s_ "collaboration"); lit_i (s_ "group");
                           lit_i (s_ "team")])]).

Definition entry := list str.

(** The fields of an entry: [author_entry[0]], [[1]], [[2]] and [[3:]]. *)
Definition keyname (e : entry) : str := nth 0 e [].
Definition firstnames (e : entry) : str := nth 1 e [].
Definition suffix (e : entry) : str := nth 2 e [].

(** The loop of [_collaboration_at_start]: the names left, the entries made
    and their number. *)
Fixpoint _collaboration_at_start (names : list str)
  : list str * list entry * nat :=
  match names with
  | [] => ([], [], 0%nat)
  | name :: rest =>
      match re_search re_collaboration name with
      | None => (names, [], 0%nat)
      | Some mo =>
          let '(names', author_list, n) :=
            match rest with
            | sep :: rest' =>
                if str_eqb sep (s_ ",") || str_eqb sep (s_ ":")
                then _collaboration_at_start rest'
                else _collaboration_at_start rest
            | [] => _collaboration_at_start rest
            end in
          (names', [grp 1 mo; []; []] :: author_list, S n)
      end
  end.

(** [\(\s*\((.* )$] *)
Definition re_enum_block : regex :=
  seq [Cls (chr 40); Star is_space; Cls (chr 40); Grp 1 (Star dot); Eol].

(** [\s*\)\s*$] *)
Definition re_close_end : regex :=
  seq [Star is_space; Cls (chr 41); Star is_space; Eol].

(** [^(\d+)\)\s*(\S.*\S)\s*$] *)
Definition re_enum_item : regex :=
  seq [Bol; Grp 1 (Plus is_digit); Cls (chr 41); Star is_space;
       Grp 2 (seq [Cls not_space; Star dot; Cls not_space]);
       Star is_space; Eol].

(** [[\.,\s]*$] *)
Definition re_trailing_punct : regex :=
  Cat (Star (either (one_of (s_ ".,")) is_space)) Eol.

Definition enum_step (enumaffils : dict) (affil : str) : dict :=
  match re_match re_enum_item affil with
  | Some mo =>
      dict_set enumaffils (grp 1 mo)
               (re_sub re_trailing_punct (fun _ => []) (grp 2 mo))
  | None => enumaffils
  end.

Definition _enum_collaboration_at_end (author_line : str) : dict :=
  match re_search re_enum_block author_line with
  | None => []
  | Some line_m =>
      let affils := re_sub re_close_end (fun _ => []) (grp 1 line_m) in
      fold_left enum_step (str_split 40 affils) []
  end.

(** The pattern built from [re.escape(name)]: every character of the name
    read literally, except the space, whose escaped form backslash-space
    becomes [\s*]; then [\s*\(([^\(\)]+)]; all under IGNORECASE. *)
Definition escaped_name (name : str) : list regex :=
  map (fun c => if c =? 32 then Star is_space else Cls (chr_i c)) name.

Definition namerex (name : str) : regex :=
  seq (escaped_name name
       ++ [Star is_space; Cls (chr 40); Grp 1 (Plus (none_of (s_ "()")))]).

(** [(&|and)/,] with IGNORECASE *)
Definition re_and_slash : regex :=
  seq [Grp 1 (Alt (Cls (chr 38)) (lit_i (s_ "and"))); Cls (chr 47); Cls (chr 44)].

(** [^[\d,\s]+$] *)
Definition re_enum_refs : regex :=
  seq [Bol; Plus (either is_digit (either (chr 44) is_space)); Eol].

(** The affiliations that a list of labels stands for. *)
Fixpoint lookup_all (enumaffils : dict) (labels : list str) : list str :=
  match labels with
  | [] => []
  | affil :: labels' =>
      match dict_get enumaffils affil with
      | Some v => v :: lookup_all enumaffils labels'
      | None => lookup_all enumaffils labels'
      end
  end.

Definition _add_affiliation (author_line : str) (enumaffils : dict)
    (author_entry : entry) (name : str) : entry :=
  match re_search (namerex name) author_line with
  | None => author_entry
  | Some mo =>
      let affils := lstrip (rstrip (grp 1 mo)) in
      let affils := re_sub re_and_slash (fun _ => s_ ",") affils in
      if matches re_enum_refs affils
      then author_entry ++ lookup_all enumaffils (str_split 44 affils)
      else author_entry ++ [affils]
  end.

(** [PREFIX_MATCH] *)
Definition prefix_match : regex :=
  alts (map lit_i
    [s_ "van"; s_ "der"; s_ "de"; s_ "la"; s_ "von"; s_ "del"; s_ "della";
     s_ "da"; s_ "mac"; s_ "ter"; s_ "dem"; s_ "di"; s_ "vaziri"]).

(** [^(.* )\s+(P)\s(P)\s(\S+)$] *)
Definition re_double_prefix : regex :=
  seq [Bol; Grp 1 (Star dot); Plus is_space; Grp 2 prefix_match;
       Cls is_space; Grp 3 prefix_match; Cls is_space;
       Grp 4 (Plus not_space); Eol].

(** [^(.* )\s+(P)\s(\S+)$] *)
Definition re_name_prefix_name : regex :=
  seq [Bol; Grp 1 (Star dot); Plus is_space; Grp 2 prefix_match;
       Cls is_space; Grp 3 (Plus not_space); Eol].

(** [^(.* )\s+(\S+)\s(I|II|III|IV|V|Sr|Jr|Sr\.|Jr\.)$] *)
Definition re_name_name_suffix : regex :=
  seq [Bol; Grp 1 (Star dot); Plus is_space; Grp 2 (Plus not_space);
       Cls is_space;
       Grp 3 (alts (map lit_i
         [s_ "I"; s_ "II"; s_ "III"; s_ "IV"; s_ "V"; s_ "Sr"; s_ "Jr";
          s_ "Sr."; s_ "Jr."]));
       Eol].

(** [^(.* )\s+(\S+)$] *)
Definition re_name_name : regex :=
  seq [Bol; Grp 1 (Star dot); Plus is_space; Grp 2 (Plus not_space); Eol].

(** The keyname, first names and suffix of one name: the first pattern that
    matches decides. *)
Definition split_name (name : str) : entry :=
  match re_match re_double_prefix name with
  | Some mo => [grp 2 mo ++ s_ " " ++ grp 3 mo ++ s_ " " ++ grp 4 mo; grp 1 mo; []]
  | None =>
  match re_match re_name_prefix_name name with
  | Some mo => [grp 2 mo ++ s_ " " ++ grp 3 mo; grp 1 mo; []]
  | None =>
  match re_match re_name_name_suffix name with
  | Some mo => [grp 2 mo; grp 1 mo; grp 3 mo]
  | None =>
  match re_match re_name_name name with
  | Some mo => [grp 2 mo; grp 1 mo; []]
  | None => [name; []; []]
  end end end end.

(** The names of the line: commas dropped at both ends, the blocks that
    start with a bracket, a parenthesis or a comma left out, spacing tidied. *)
Definition candidate_names (tokens : list str) : list str :=
  let names := _remove_double_commas tokens in
  let names := rev (dropwhile is_comma (rev names)) in
  let names := dropwhile is_comma names in
  map _tidy_name (filter (matches re_name_start) names).

(** The part of [_parse_author_affil_split] after the names are tidied: the
    et-al filter, the collaborations, and one entry per name; [enumaffils]
    is the dictionary of enumerated affiliations. *)
Definition entries_of_names (author_line : str) (enumaffils : dict)
    (names : list str) : list entry * nat :=
  let names := filter (fun n => negb (matches re_et_al n)) names in
  let '(names, author_list, back_prop) := _collaboration_at_start names in
  (author_list
   ++ map (fun name =>
             _add_affiliation author_line enumaffils (split_name name) name)
          names,
   back_prop).

Definition _parse_author_affil_split (author_line : str) : list entry * nat :=
  match author_line with
  | [] => ([], 0%nat)
  | _ :: _ =>
      match split_authors author_line with
      | [] => ([], 0%nat)
      | names =>
          entries_of_names author_line
            (_enum_collaboration_at_end author_line) (candidate_names names)
      end
  end.

(** ** [_parse_author_affil_back_propagate] *)

(** The loop from the last entry down, with [last_affil] as it stands after
    the entries to the right. *)
Fixpoint back_propagate_from (author_list : list entry) : list entry * entry :=
  match author_list with
  | [] => ([], [])
  | author_entry :: rest =>
      let (rest', last_affil) := back_propagate_from rest in
      if (3 <? length author_entry)%nat then (author_entry :: rest', author_entry)
      else
        match last_affil with
        | [] => (author_entry :: rest', last_affil)
        | _ :: _ => ((author_entry ++ skipn 3 last_affil) :: rest', last_affil)
        end
  end.

Definition _parse_author_affil_back_propagate (author_list : list entry)
    (back_prop : nat) : list entry :=
  firstn back_prop author_list
  ++ fst (back_propagate_from (skipn back_prop author_list)).

Definition parse_author_affil (authors : str) : list entry :=
  let (author_list, back_prop) := _parse_author_affil_split authors in
  _parse_author_affil_back_propagate author_list back_prop.

(** ** [tex2utf] *)

Fixpoint table_get (t : list (str * N)) (k : str) : option N :=
  match t with
  | [] => None
  | (k', v) :: t' => if str_eqb k' k then Some v else table_get t' k
  end.

(** [chr(table[key])]; the key is one the pattern has just matched. *)
Definition table_chr (t : list (str * N)) (k : str) : str :=
  match table_get t k with
  | Some v => [v]
  | None => []
  end.

(** [_p_to_match]: an optional opening brace, a backslash, one of the keys
    in the order of the table, a word boundary or an underscore ahead, and
    then the closing brace if there was an opening one, else an optional
    backslash before a space, space, or pair of braces. *)
Definition _p_to_match (tex_to_chr : list (str * N)) : regex :=
  seq [Opt (Grp 1 (Cls (chr 123)));
       Cls (chr 92);
       Grp 2 (alts (map (fun kv => lit (fst kv)) tex_to_chr));
       Grp 3 (Alt Wordb (Ahead (Cls (chr 95))));
       IfGrp 1 (Cls (chr 125))
         (Opt (Grp 4 (alts [Cat (Cls (chr 92)) (Ahead (Cls (chr 32)));
                            Cls (chr 32);
                            lit (s_ "{}");
                            Eps])))].

Definition textlet_pattern : regex := _p_to_match textlet.
Definition textgreek_pattern : regex := _p_to_match textgreek.
Definition textsym_pattern : regex := _p_to_match textsym.

Definition _textlet_sub (mo : rmatch) : str := table_chr textlet (grp 2 mo).
Definition _textsym_sub (mo : rmatch) : str := table_chr textsym (grp 2 mo).
Definition _textgreek_sub (mo : rmatch) : str := table_chr textgreek (grp 2 mo).

(** [[^\w]+] *)
Definition re_non_word : regex := Plus (neg is_word).

Definition texch2UTF (acc : str) : str :=
  match table_get accents acc with
  | Some v => [v]
  | None => re_sub re_non_word (fun _ => []) acc
  end.

(** The accent marks: the class of [' ` ^ ~ = .] and the double quote,
    written [A] in the comments below. *)
Definition accent_mark : cclass := one_of [39; 96; 94; 34; 126; 61; 46].

(** A slash, then [(\\[AuvH])\{\\([ij])\}] *)
Definition re_dotless : regex :=
  seq [Cls (chr 47);
       Grp 1 (Cat (Cls (chr 92)) (Cls (either accent_mark (one_of (s_ "uvH")))));
       Cls (chr 123); Cls (chr 92); Grp 2 (Cls (one_of (s_ "ij")));
       Cls (chr 125)].

(** [\{\\j\}|\\j\s] *)
Definition re_j : regex :=
  Alt (lit (s_ "{\j}")) (seq [Cls (chr 92); Cls (chr 106); Cls is_space]).

(** [\{\{([^\}]* )\}\}] *)
Definition re_braces : regex :=
  seq [Cls (chr 123); Cls (chr 123); Grp 1 (Star (neg (chr 125)));
       Cls (chr 125); Cls (chr 125)].

(** [\\([A][a-zA-Z])] *)
Definition re_accent : regex :=
  Cat (Cls (chr 92)) (Grp 1 (Cat (Cls accent_mark) (Cls is_alpha_ascii))).

(** [\\([A])\{([a-zA-Z])\}] *)
Definition re_accent_braced : regex :=
  seq [Cls (chr 92); Grp 1 (Cls accent_mark); Cls (chr 123);
       Grp 2 (Cls is_alpha_ascii); Cls (chr 125)].

(** [\\([Hckoruv])\{([a-zA-Z])\}] *)
Definition re_letter_accent : regex :=
  seq [Cls (chr 92); Grp 1 (Cls (one_of (s_ "Hckoruv"))); Cls (chr 123);
       Grp 2 (Cls is_alpha_ascii); Cls (chr 125)].

(** [\\t{([^\}])\}] *)
Definition re_tie : regex :=
  seq [Cls (chr 92); Cls (chr 116); Cls (chr 123); Grp 1 (Cls (neg (chr 125)));
       Cls (chr 125)].

(** The replacement [{\g<1>}] *)
Definition braces_repl (mo : rmatch) : str := s_ "{" ++ grp 1 mo ++ s_ "}".

(** The [while] loop that reduces doubled braces; every turn shortens the
    text, so its length bounds the number of turns (see
    [collapse_braces_done]). *)
Fixpoint collapse_braces_loop (turns : nat) (utf : str) : str :=
  match turns with
  | O => utf
  | S turns' =>
      match re_search re_braces utf with
      | Some _ =>
          collapse_braces_loop turns'
            (re_sub re_braces braces_repl utf)
      | None => utf
      end
  end.

Definition collapse_braces (utf : str) : str :=
  collapse_braces_loop (length utf) utf.

Definition tex2utf_greek (tex : str) (greek : bool) : str :=
  let utf := re_sub re_dotless
               (fun mo => grp 1 mo ++ s_ "\{" ++ grp 2 mo ++ s_ "\}") tex in
  let utf := re_sub textlet_pattern _textlet_sub utf in
  let utf := if greek then re_sub textgreek_pattern _textgreek_sub utf else utf in
  let utf := re_sub textsym_pattern _textsym_sub utf in
  let utf := re_sub re_j (fun _ => s_ "j") utf in
  let utf := collapse_braces utf in
  let utf := re_sub re_accent (fun mo => texch2UTF (grp 1 mo)) utf in
  let utf := re_sub re_accent_braced
               (fun mo => texch2UTF (grp 1 mo ++ grp 2 mo)) utf in
  let utf := re_sub re_letter_accent
               (fun mo => texch2UTF (grp 1 mo ++ grp 2 mo)) utf in
  re_sub re_tie (fun mo => grp 1 mo) utf.

(** [tex2utf(tex)], with the default [greek=True]. *)
Definition tex2utf (tex : str) : str := tex2utf_greek tex true.

(** ** [parse_author_affil_utf] *)

Definition parse_author_affil_utf (authors : str) : list entry :=
  match authors with
  | [] => []
  | _ :: _ => map (map tex2utf) (parse_author_affil authors)
  end.

(** ** Notions used in the statements *)

(** ** What a successful match means

    [den r pre t suf g g']: read after [pre] (reversed) and before [suf], the
    text [t] is in the language of [r], and the groups go from [g] to [g'].
    A lookahead is atomic: its groups are those of the first way in which
    the matcher reads it. *)
Fixpoint den (r : regex) (pre t suf : str) (g g' : caps) {struct r} : Prop :=
  match r with
  | Eps => t = [] /\ g' = g
  | Cls p => exists c, t = [c] /\ p c = true /\ g' = g
  | Cat r1 r2 =>
      exists t1 t2 g1, t = t1 ++ t2 /\ den r1 pre t1 (t2 ++ suf) g g1
                       /\ den r2 (rev t1 ++ pre) t2 suf g1 g'
  | Alt r1 r2 => den r1 pre t suf g g' \/ den r2 pre t suf g g'
  | Star p => forallb p t = true /\ g' = g
  | Opt r1 => den r1 pre t suf g g' \/ (t = [] /\ g' = g)
  | Grp n r1 => exists g1, den r1 pre t suf g g1 /\ g' = (n, t) :: g1
  | Bol => t = [] /\ g' = g /\ pre = []
  | Eol => t = [] /\ g' = g /\ (suf = [] \/ suf = [10])
  | Wordb => t = [] /\ g' = g /\ xorb (word_at pre) (word_at suf) = true
  | Ahead r1 =>
      t = [] /\ exists pre' suf', m r1 pre suf g final = Some (pre', suf', g')
  | NotBehind p =>
      t = [] /\ g' = g /\ match pre with c :: _ => p c = false | [] => True end
  | IfGrp n r1 r2 =>
      (group n g <> None /\ den r1 pre t suf g g')
      \/ (group n g = None /\ den r2 pre t suf g g')
  end.

(** The text that a piece of a scan stands for. *)
Definition piece_text (p : piece) : str :=
  match p with
  | Gap c => [c]
  | Hit mo => m_text mo
  end.

Definition pieces_text (ps : list piece) : str := concat (map piece_text ps).

(** A match object that the pattern can have produced somewhere. *)
Definition hit_ok (r : regex) (mo : rmatch) : Prop :=
  exists pre suf, den r pre (m_text mo) suf [] (m_groups mo).

(** Every match among the pieces is one that the pattern can produce. *)
Definition piece_ok (r : regex) (p : piece) : Prop :=
  match p with
  | Gap _ => True
  | Hit mo => hit_ok r mo
  end.

Definition is_gap (p : piece) : bool :=
  match p with Gap _ => true | Hit _ => false end.

(** A text that holds no backslash, hence no TeX escape. *)
Definition no_backslash (s : str) : Prop := ~ In 92 s.

(** What [_collaboration_at_start] returns: the names left keep [P], the
    entries have a key name, and the count is the number of entries. *)
Definition collaboration_ok (P : str -> Prop)
    (res : list str * list entry * nat) : Prop :=
  let '(names', author_list, n) := res in
  Forall P names' /\ Forall (fun e => keyname e <> []) author_list
  /\ length author_list = n.

(** A token that gives an entry: it starts a name, and once tidied it is not
    an et-al token. *)
Definition is_author_token (tok : str) : bool :=
  matches re_name_start tok && negb (matches re_et_al (_tidy_name tok)).

(** The end of a run: nothing left, or a character outside the class. *)
Definition stops (p : cclass) (rest : str) : Prop :=
  match rest with
  | [] => True
  | x :: _ => p x = false
  end.

(** What [re.sub(r'\s+', ' ', s)] gives, character by character; [in_run]
    says that the character before was whitespace. *)
Fixpoint collapse_from (in_run : bool) (s : str) : str :=
  match s with
  | [] => []
  | c :: s' =>
      if is_space c then
        if in_run then collapse_from true s' else 32 :: collapse_from true s'
      else c :: collapse_from false s'
  end.

Definition collapse_spaces (s : str) : str := collapse_from false s.

Definition is_paren : cclass := one_of (s_ "()").

(** The whole text matches the et-al pattern. *)
Definition et_al_only (s : str) : bool :=
  match re_match re_et_al s with
  | Some mo => str_eqb (m_text mo) s
  | None => false
  end.

(** The rest of [block_tokens], after the whitespace is collapsed. *)
Definition tokens_of_collapsed (block : str) : list str :=
  if matches re_comment block then [block]
  else block_names (re_split re_comma [1%nat]
                      (re_sub re_and (fun _ => s_ ",") block)).

(** One blank for a run of whitespace that is not empty. *)
Definition pad (w : str) : str :=
  match w with
  | [] => []
  | _ :: _ => [32]
  end.

(** A text without its whitespace. *)
Definition remove_ws (s : str) : str := filter not_space s.

(** No name block of the line holds a connective that [split_authors]
    rewrites: after the whitespace is collapsed, a block is a comment or
    the connective pattern finds nothing in it. *)
Definition no_connective (authors : str) : bool :=
  forallb (fun b =>
             let block := re_sub re_spaces (fun _ => s_ " ") b in
             matches re_comment block
             || match re_search re_and block with
                | None => true
                | Some _ => false
                end)
          (paren_blocks authors).

(** [loose name occ]: the text [occ] is the name with any run of whitespace,
    or none, for each of its spaces, and a character that matches under
    IGNORECASE for each other character. *)
Fixpoint loose (name occ : str) : Prop :=
  match name with
  | [] => occ = []
  | c :: name' =>
      if c =? 32
      then exists w o, occ = w ++ o /\ forallb is_space w = true /\ loose name' o
      else exists x o, occ = x :: o /\ chr_i c x = true /\ loose name' o
  end.

Definition not_paren : cclass := none_of (s_ "()").

(** *** The content of a parenthesis

    Labels written one after the other, with a comma between two. *)
Fixpoint join_commas (labels : list str) : str :=
  match labels with
  | [] => []
  | l :: ls =>
      match ls with
      | [] => l
      | _ :: _ => l ++ 44 :: join_commas ls
      end
  end.

(** The affiliation that a label stands for, when it is a key. *)
Definition keyed (enumaffils : dict) (label : str) : list str :=
  match dict_get enumaffils label with
  | Some a => [a]
  | None => []
  end.

(** A slash directly before a comma. *)
Fixpoint has_slash_comma (s : str) : bool :=
  match s with
  | [] => false
  | c :: s' =>
      ((c =? 47) && match s' with d :: _ => d =? 44 | [] => false end)
      || has_slash_comma s'
  end.

(** The characters of an enumerated reference, as the comment in the
    function lists them: digits, commas, whitespace, the ampersand and the
    letters of the connective. *)
Definition reference_char : cclass := fun c =>
  is_digit c || (c =? 44) || is_space c || (c =? 38) || one_of (s_ "andAND") c.

(** Free text: some character is not one of an enumerated reference, and no
    slash stands directly before a comma. *)
Definition free_text (t : str) : bool :=
  existsb (neg reference_char) t && negb (has_slash_comma t).


(** *** Words

    A character of a word: an ASCII letter, or a character beyond ASCII that
    is not whitespace. *)
Definition name_char : cclass := fun c =>
  is_alpha_ascii c || (negb (c <? 128) && negb (is_space c)).

(** The text [s] begins with the word [w]: after [w] comes no letter. *)
Definition begins_with (w s : str) : Prop :=
  exists rest, s = w ++ rest /\ stops name_char rest.

(** The block that comes first: the first of the closed blocks, or the
    block being built when none is closed. *)
Definition front (st : str * Z * list str) : str :=
  let '(c, _, blocks) := st in
  match blocks with
  | [] => c
  | b :: _ => b
  end.

(** The word [et] in either case. *)
Definition is_et (w : str) : bool := str_eqb (map lower_ascii w) (s_ "et").

(** The separators of names: comma and colon. *)
Definition is_sep : cclass := one_of (s_ ",:").

(** The words that the tokenizer or the parser may read as something other
    than a name: [et] in either case, the connective [and], and the
    suffixes [Jr] and [Sr]. *)
Definition reserved (w : str) : bool :=
  is_et w || str_eqb w (s_ "and") || str_eqb w (s_ "Jr") || str_eqb w (s_ "Sr").

(** *** A reading of a text that keeps the blanks inside names

    Whitespace is dropped at both ends and beside a comma, a colon or a
    parenthesis; any other run of whitespace is one blank; every other
    character is kept.  [normalize] is the reading of a whole text;
    [norm_from] reads from a given state on. *)

(** The delimiters: comma, colon and the two parentheses. *)
Definition is_delim : cclass := one_of (s_ ",:()").

(** Where the reading stands: after a delimiter (or at the start), after a
    character of a name, or after whitespace that follows a name. *)
Inductive nstate : Type :=
| AfterDelim
| AfterWord
| AfterGap.

(** The state after a character, and what the character leaves in the
    reading: whitespace leaves nothing, a delimiter itself, any other
    character itself, with a blank before it when whitespace came between
    it and the name character before. *)
Definition nstep (st : nstate) (c : char) : nstate :=
  if is_space c then
    match st with
    | AfterDelim => AfterDelim
    | _ => AfterGap
    end
  else if is_delim c then AfterDelim
  else AfterWord.

Definition nout (st : nstate) (c : char) : str :=
  if is_space c then []
  else if is_delim c then [c]
  else match st with
       | AfterGap => [32; c]
       | _ => [c]
       end.

Fixpoint norm_from (st : nstate) (s : str) : str :=
  match s with
  | [] => []
  | c :: s' => nout st c ++ norm_from (nstep st c) s'
  end.

Definition norm_state (st : nstate) (s : str) : nstate := fold_left nstep s st.

Definition normalize (s : str) : str := norm_from AfterDelim s.

(** Two texts that read alike wherever they stand. *)
Definition reads_like (s t : str) : Prop :=
  forall st, norm_from st s = norm_from st t /\ norm_state st s = norm_state st t.

(** After a name, whitespace or not: the difference that a delimiter or
    the end of the line takes away. *)
Definition settle (st : nstate) : nstate :=
  match st with
  | AfterGap => AfterWord
  | _ => st
  end.

(** Two texts that read alike from [st] on, up to whitespace at the end. *)
Definition agree (st : nstate) (s t : str) : Prop :=
  norm_from st s = norm_from st t
  /\ settle (norm_state st s) = settle (norm_state st t).

(** The state after whitespace. *)
Definition rest_state (st : nstate) : nstate :=
  match st with
  | AfterDelim => AfterDelim
  | _ => AfterGap
  end.

(** *** Where two blocks meet

    A block other than the first begins with an opening parenthesis, or the
    block before it ends with a closing one; [meets] is what the loop over
    the bits keeps true. *)

Definition starts_open (b : str) : bool :=
  match b with
  | c :: _ => c =? 40
  | [] => false
  end.

Definition ends_closed (b : str) : bool :=
  match rev b with
  | c :: _ => c =? 41
  | [] => false
  end.

Fixpoint glued_from (closed : bool) (blocks : list str) : bool :=
  match blocks with
  | [] => true
  | b :: tl => (closed || starts_open b) && glued_from (ends_closed b) tl
  end.

Fixpoint last_closed (closed : bool) (blocks : list str) : bool :=
  match blocks with
  | [] => closed
  | b :: tl => last_closed (ends_closed b) tl
  end.

Definition meets (st : str * Z * list str) : Prop :=
  let '(c, _, blocks) := st in
  glued_from true blocks = true
  /\ last_closed true blocks || starts_open c = true.

(** *** The line of the docstring with enumerated affiliations *)

Definition scenario_line : str :=
  s_ "A.B. First, C.D. Second (1), E.F. Third, G.H. Forth (2,3)".

Definition scenario_enum : dict :=
  [(s_ "1", s_ "Inst1"); (s_ "2", s_ "Inst2"); (s_ "3", s_ "Inst3")].

Definition scenario_block : str := s_ " ((1) Inst1, (2) Inst2, (3) Inst3)".

Definition scenario_records : list entry :=
  [[s_ "First"; s_ "A. B."; []; s_ "Inst1"];
   [s_ "Second"; s_ "C. D."; []; s_ "Inst1"];
   [s_ "Third"; s_ "E. F."; []; s_ "Inst2"; s_ "Inst3"];
   [s_ "Forth"; s_ "G. H."; []; s_ "Inst2"; s_ "Inst3"]].

(** * Properties of the matcher *)

Lemma star_sound p pre suf g k res :
  star p pre suf g k = Some res ->
  exists t suf', suf = t ++ suf' /\ forallb p t = true
                 /\ k (rev t ++ pre) suf' g = Some res.
Proof.
  revert pre. induction suf as [|c suf IH]; intros pre H; simpl in H.
  - exists [], []. auto.
  - destruct (p c) eqn:Hc.
    + destruct (star p (c :: pre) suf g k) eqn:Hs.
      * injection H as <-. apply IH in Hs. destruct Hs as (t & suf' & -> & Ht & Hk).
        exists (c :: t), suf'. simpl. rewrite Hc, Ht. rewrite <- app_assoc. auto.
      * exists [], (c :: suf). auto.
    + exists [], (c :: suf). auto.
Qed.

Lemma consumed_text (t pre : str) :
  rev (firstn (length (rev t ++ pre) - length pre) (rev t ++ pre)) = t.
Proof.
  rewrite length_app, Nat.add_sub, firstn_app, Nat.sub_diag.
  simpl. rewrite firstn_all, app_nil_r. apply rev_involutive.
Qed.

Theorem m_sound r : forall pre suf g k res,
  m r pre suf g k = Some res ->
  exists t suf' g', suf = t ++ suf' /\ den r pre t suf' g g'
                    /\ k (rev t ++ pre) suf' g' = Some res.
Proof.
  induction r; intros pre suf g k res H; simpl in H.
  - exists [], suf, g. simpl. auto.
  - destruct suf as [|c suf]; [discriminate|]. destruct (p c) eqn:Hc; [|discriminate].
    exists [c], suf, g. simpl. eauto 6.
  - apply IHr1 in H. destruct H as (t1 & s1 & g1 & -> & D1 & H).
    apply IHr2 in H. destruct H as (t2 & s2 & g2 & -> & D2 & H).
    exists (t1 ++ t2), s2, g2. rewrite <- app_assoc, rev_app_distr, <- app_assoc.
    repeat split; auto. simpl. eauto 7.
  - destruct (m r1 pre suf g k) eqn:H1.
    + injection H as <-. apply IHr1 in H1. destruct H1 as (t & s & g' & ? & ? & ?).
      exists t, s, g'. simpl. auto.
    + apply IHr2 in H. destruct H as (t & s & g' & ? & ? & ?).
      exists t, s, g'. simpl. auto.
  - apply star_sound in H. destruct H as (t & s & -> & Ht & H).
    exists t, s, g. simpl. auto.
  - destruct (m r pre suf g k) eqn:H1.
    + injection H as <-. apply IHr in H1. destruct H1 as (t & s & g' & ? & ? & ?).
      exists t, s, g'. simpl. auto.
    + exists [], suf, g. simpl. auto.
  - apply IHr in H. destruct H as (t & s & g1 & -> & D & H).
    rewrite consumed_text in H. exists t, s, ((n, t) :: g1). simpl. eauto.
  - destruct pre; [|discriminate]. exists [], suf, g. simpl. auto.
  - destruct suf as [|c [|d suf]].
    + exists [], [], g. simpl. repeat split; auto.
    + destruct (c =? 10) eqn:Hc; [|discriminate]. apply N.eqb_eq in Hc. subst c.
      exists [], [10], g. simpl. repeat split; auto.
    + discriminate.
  - destruct (xorb (word_at pre) (word_at suf)) eqn:Hx; [|discriminate].
    exists [], suf, g. simpl. auto.
  - destruct (m r pre suf g final) as [[[p' s'] g']|] eqn:H1; [|discriminate].
    exists [], suf, g'. simpl. eauto 8.
  - exists [], suf, g. simpl. destruct pre as [|c pre]; auto.
    destruct (p c) eqn:Hc; [discriminate|]. auto.
  - destruct (group n g) as [gt|] eqn:Hg.
    + apply IHr1 in H. destruct H as (t & s & g' & ? & ? & ?).
      exists t, s, g'. simpl. rewrite Hg. repeat split; auto. left. split; [discriminate|auto].
    + apply IHr2 in H. destruct H as (t & s & g' & ? & ? & ?).
      exists t, s, g'. simpl. rewrite Hg. auto.
Qed.

(** The matcher depends on what the rest of the pattern answers, not on how
    it is written. *)
Lemma star_ext p k1 k2 :
  (forall pre suf g, k1 pre suf g = k2 pre suf g) ->
  forall suf pre g, star p pre suf g k1 = star p pre suf g k2.
Proof.
  intros E. induction suf as [|c suf IH]; intros pre g; simpl; auto.
  rewrite IH, E. reflexivity.
Qed.

Lemma m_ext r : forall k1 k2,
  (forall pre suf g, k1 pre suf g = k2 pre suf g) ->
  forall pre suf g, m r pre suf g k1 = m r pre suf g k2.
Proof.
  induction r; intros k1 k2 E pre suf g; simpl.
  - apply E.
  - destruct suf; auto. now rewrite E.
  - apply IHr1. intros. now apply IHr2.
  - now rewrite (IHr1 k1 k2 E), (IHr2 k1 k2 E).
  - now apply star_ext.
  - now rewrite (IHr k1 k2 E), E.
  - apply IHr. intros. apply E.
  - destruct pre; auto.
  - destruct suf as [|c [|d suf]]; auto. now rewrite E.
  - now rewrite E.
  - destruct (m r pre suf g final) as [[[? ?] ?]|]; auto.
  - destruct pre; auto. now rewrite E.
  - destruct (group n g); auto.
Qed.

(** The matcher finds a match when there is one: if the text [t] is in the
    language of [r] and the rest of the pattern accepts what follows, the
    matcher succeeds, perhaps with another reading that it tries first. *)
Lemma star_complete p k : forall t suf pre g,
  forallb p t = true -> k (rev t ++ pre) suf g <> None ->
  star p pre (t ++ suf) g k <> None.
Proof.
  induction t as [|c t IH]; intros suf pre g Ht Hk; simpl in *.
  - destruct suf as [|x suf]; simpl; auto.
    destruct (p x); auto. destruct (star p (x :: pre) suf g k); [discriminate|auto].
  - apply andb_true_iff in Ht. destruct Ht as [Hc Ht]. rewrite Hc.
    rewrite <- app_assoc in Hk. specialize (IH suf (c :: pre) g Ht Hk).
    destruct (star p (c :: pre) (t ++ suf) g k); [discriminate | congruence].
Qed.

Theorem m_complete r : forall pre t suf g g' k,
  den r pre t suf g g' -> k (rev t ++ pre) suf g' <> None ->
  m r pre (t ++ suf) g k <> None.
Proof.
  induction r; intros pre t suf g g' k D Hk; simpl in D.
  - destruct D as [-> ->]. exact Hk.
  - destruct D as (c & -> & Hc & ->). simpl. now rewrite Hc.
  - destruct D as (t1 & t2 & g1 & -> & D1 & D2). simpl.
    rewrite <- app_assoc. apply (IHr1 _ _ _ _ g1); auto.
    apply (IHr2 _ _ _ _ g'); auto. now rewrite rev_app_distr, <- app_assoc in Hk.
  - simpl. destruct D as [D|D].
    + specialize (IHr1 _ _ _ _ _ k D Hk).
      destruct (m r1 pre (t ++ suf) g k); [discriminate | congruence].
    + destruct (m r1 pre (t ++ suf) g k); [discriminate|]. eapply IHr2; eauto.
  - destruct D as [Ht ->]. simpl. now apply star_complete.
  - simpl. destruct D as [D|[-> ->]].
    + specialize (IHr _ _ _ _ _ k D Hk).
      destruct (m r pre (t ++ suf) g k); [discriminate | congruence].
    + destruct (m r pre ([] ++ suf) g k); [discriminate | exact Hk].
  - destruct D as (g1 & D & ->). simpl. apply (IHr _ _ _ _ g1); auto.
    now rewrite consumed_text.
  - destruct D as (-> & -> & ->). exact Hk.
  - destruct D as (-> & -> & [-> | ->]); simpl; exact Hk.
  - destruct D as (-> & -> & Hx). simpl in *. now rewrite Hx.
  - destruct D as (-> & p' & s' & E). simpl in *. now rewrite E.
  - destruct D as (-> & -> & Hp). simpl in *. destruct pre as [|c pre]; auto.
    now rewrite Hp.
  - simpl. destruct D as [[Hg D]|[Hg D]].
    + destruct (group n g); [|congruence]. eapply IHr1; eauto.
    + rewrite Hg. eapply IHr2; eauto.
Qed.

(** ** The pieces of a scan *)

Lemma match_at_sound r pre suf mo :
  match_at r pre suf = Some mo ->
  exists suf', suf = m_text mo ++ suf'
               /\ den r pre (m_text mo) suf' [] (m_groups mo).
Proof.
  unfold match_at. destruct (m r pre suf [] final) as [res|] eqn:H; [|discriminate].
  simpl. intros [= <-]. apply m_sound in H.
  destruct H as (t & suf' & g' & -> & D & [= <-]).
  exists suf'. simpl. rewrite consumed_text. auto.
Qed.

Lemma match_at_adv_sound r pre suf mo :
  match_at_adv r pre suf = Some mo ->
  exists suf', suf = m_text mo ++ suf' /\ m_text mo <> []
               /\ den r pre (m_text mo) suf' [] (m_groups mo).
Proof.
  unfold match_at_adv.
  destruct (m r pre suf [] (advancing suf)) as [res|] eqn:H; [|discriminate].
  simpl. intros [= <-]. apply m_sound in H.
  destruct H as (t & suf' & g' & -> & D & Hk). unfold advancing in Hk.
  destruct (length suf' <? length (t ++ suf'))%nat eqn:Hl; [|discriminate].
  injection Hk as <-. exists suf'. simpl. rewrite consumed_text.
  repeat split; auto. intros ->. apply Nat.ltb_lt in Hl. simpl in Hl. lia.
Qed.

Lemma firstn_length_app {A} (t s : list A) : firstn (length t) (t ++ s) = t.
Proof.
  rewrite firstn_app, Nat.sub_diag, firstn_all. simpl. apply app_nil_r.
Qed.

Lemma hits_here_sound r pre suf :
  let (hs, n) := hits_here r pre suf in
  pieces_text hs = firstn n suf /\ (n <= length suf)%nat /\ Forall (piece_ok r) hs.
Proof.
  unfold hits_here.
  destruct (match_at r pre suf) as [mo|] eqn:H1.
  - apply match_at_sound in H1. destruct H1 as (s1 & E1 & D1).
    destruct (m_text mo) as [|c t] eqn:Ht.
    + destruct (match_at_adv r pre suf) as [mo'|] eqn:H2.
      * apply match_at_adv_sound in H2. destruct H2 as (s2 & E2 & N2 & D2).
        unfold pieces_text. simpl. rewrite Ht, app_nil_r. simpl.
        repeat split.
        -- rewrite E2. now rewrite firstn_length_app.
        -- rewrite E2. rewrite length_app. lia.
        -- repeat constructor; [exists pre, s1; now rewrite Ht | now exists pre, s2].
      * unfold pieces_text. simpl. rewrite Ht. repeat split; [lia|].
        repeat constructor. exists pre, s1. now rewrite Ht.
    + unfold pieces_text. simpl. rewrite Ht, app_nil_r. repeat split.
      * rewrite E1. simpl. f_equal. symmetry. apply firstn_length_app.
      * rewrite E1. simpl. rewrite length_app. lia.
      * repeat constructor. exists pre, s1. now rewrite Ht.
  - unfold pieces_text. simpl. repeat split; [lia|constructor].
Qed.

Lemma pieces_text_app ps qs : pieces_text (ps ++ qs) = pieces_text ps ++ pieces_text qs.
Proof. unfold pieces_text. now rewrite map_app, concat_app. Qed.

Lemma scan_sound r : forall suf pre skip,
  (skip <= length suf)%nat ->
  pieces_text (scan r pre suf skip) = skipn skip suf
  /\ Forall (piece_ok r) (scan r pre suf skip).
Proof.
  induction suf as [|c suf IH]; intros pre skip Hs.
  - simpl in Hs. assert (skip = 0%nat) by lia. subst skip. simpl.
    pose proof (hits_here_sound r pre []) as H.
    destruct (hits_here r pre []) as [hs n]. destruct H as (H1 & H2 & H3).
    split; auto. rewrite H1. now rewrite firstn_nil.
  - destruct skip as [|n]; simpl.
    + pose proof (hits_here_sound r pre (c :: suf)) as H.
      destruct (hits_here r pre (c :: suf)) as [hs n]. destruct H as (H1 & H2 & H3).
      destruct n as [|n'].
      * destruct (IH (c :: pre) 0%nat ltac:(lia)) as [I1 I2].
        split.
        -- rewrite pieces_text_app, H1. unfold pieces_text in *. simpl.
           simpl in I1. now rewrite I1.
        -- apply Forall_app. split; auto. constructor; simpl; auto.
      * simpl in H2. destruct (IH (c :: pre) n' ltac:(lia)) as [I1 I2].
        split.
        -- rewrite pieces_text_app, H1, I1. simpl. now rewrite firstn_skipn.
        -- apply Forall_app. auto.
    + simpl in Hs. apply IH. lia.
Qed.

Theorem finditer_sound r s :
  pieces_text (re_finditer r s) = s /\ Forall (piece_ok r) (re_finditer r s).
Proof. apply (scan_sound r s [] 0%nat). lia. Qed.

Lemma sub_all_gaps r f s :
  forallb is_gap (re_finditer r s) = true -> re_sub r f s = s.
Proof.
  intros H. unfold re_sub. rewrite <- (proj1 (finditer_sound r s)) at 2.
  unfold pieces_text. induction (re_finditer r s) as [|[c|mo] ps IH]; simpl in *;
    try discriminate; auto. now rewrite IH.
Qed.

(** A pattern whose every match holds a character [c] finds nothing in a
    text without [c]. *)
Lemma no_hit_without r (c : char) s :
  (forall mo, hit_ok r mo -> In c (m_text mo)) ->
  ~ In c s -> forallb is_gap (re_finditer r s) = true.
Proof.
  intros Hr Hs. destruct (finditer_sound r s) as [E F].
  rewrite <- E in Hs. clear E. unfold pieces_text in Hs.
  induction F as [|[d|mo] ps Hp F IH]; simpl in *; auto.
  exfalso. apply Hs, in_or_app. left. auto.
Qed.

(** ** Stepping through a scan *)

Lemma scan_skip r : forall t pre suf,
  scan r pre (t ++ suf) (length t) = scan r (rev t ++ pre) suf 0.
Proof.
  induction t as [|c t IH]; intros pre suf; simpl.
  - reflexivity.
  - rewrite IH, <- app_assoc. reflexivity.
Qed.

Lemma scan_gap r pre c suf :
  match_at r pre (c :: suf) = None ->
  scan r pre (c :: suf) 0 = Gap c :: scan r (c :: pre) suf 0.
Proof. intros H. simpl. unfold hits_here. rewrite H. reflexivity. Qed.

Lemma scan_hit r pre t suf g :
  match_at r pre (t ++ suf) = Some (mk_rmatch t g) -> t <> [] ->
  scan r pre (t ++ suf) 0 = Hit (mk_rmatch t g) :: scan r (rev t ++ pre) suf 0.
Proof.
  intros H Ht. destruct t as [|c t]; [congruence|].
  simpl. unfold hits_here. simpl in H. rewrite H. simpl.
  rewrite scan_skip, <- app_assoc. reflexivity.
Qed.

Lemma scan_end r pre : match_at r pre [] = None -> scan r pre [] 0 = [].
Proof. intros H. simpl. unfold hits_here. rewrite H. reflexivity. Qed.

(** ** The transliterator on text without a backslash *)

Lemma p_to_match_backslash table mo :
  hit_ok (_p_to_match table) mo -> In 92 (m_text mo).
Proof.
  destruct mo as [t g]. intros (pre & suf & D). simpl in D |- *.
  destruct D as (t1 & t2 & g1 & -> & _ & D).
  destruct table as [|kv table].
  - simpl in D. destruct D as (t3 & t4 & g2 & -> & D & _). break. find_char.
  - simpl in D. destruct D as (t3 & t4 & g2 & -> & D & _). break. find_char.
Qed.

Lemma re_dotless_backslash mo : hit_ok re_dotless mo -> In 92 (m_text mo).
Proof.
  destruct mo as [t g]. intros (pre & suf & D). simpl in D |- *. break. find_char.
Qed.

Lemma re_j_backslash mo : hit_ok re_j mo -> In 92 (m_text mo).
Proof.
  destruct mo as [t g]. intros (pre & suf & D). simpl in D |- *. break; find_char.
Qed.

Lemma re_accent_backslash mo : hit_ok re_accent mo -> In 92 (m_text mo).
Proof.
  destruct mo as [t g]. intros (pre & suf & D). simpl in D |- *. break. find_char.
Qed.

Lemma re_accent_braced_backslash mo :
  hit_ok re_accent_braced mo -> In 92 (m_text mo).
Proof.
  destruct mo as [t g]. intros (pre & suf & D). simpl in D |- *. break. find_char.
Qed.

Lemma re_letter_accent_backslash mo :
  hit_ok re_letter_accent mo -> In 92 (m_text mo).
Proof.
  destruct mo as [t g]. intros (pre & suf & D). simpl in D |- *. break. find_char.
Qed.

Lemma re_tie_backslash mo : hit_ok re_tie mo -> In 92 (m_text mo).
Proof.
  destruct mo as [t g]. intros (pre & suf & D). simpl in D |- *. break. find_char.
Qed.

Lemma sub_without r (c : char) f s :
  (forall mo, hit_ok r mo -> In c (m_text mo)) -> ~ In c s -> re_sub r f s = s.
Proof. intros Hr Hs. apply sub_all_gaps. eapply no_hit_without; eauto. Qed.

(** [re.search] finds something exactly when the scan has a match. *)
Lemma scan_gaps_search r : forall suf pre,
  forallb is_gap (scan r pre suf 0) =
  match search_from r pre suf with Some _ => false | None => true end.
Proof.
  induction suf as [|c suf IH]; intros pre; simpl; unfold hits_here;
    destruct (match_at r pre _) as [mo|] eqn:H1; simpl; auto.
  - destruct (m_text mo); [destruct (match_at_adv r pre [])|]; reflexivity.
  - destruct (m_text mo) as [|d t]; [destruct (match_at_adv r pre (c :: suf)) as [mo'|]|];
      simpl; auto.
    destruct (length (m_text mo')); reflexivity.
Qed.

Lemma search_none_sub r f s : re_search r s = None -> re_sub r f s = s.
Proof.
  intros H. apply sub_all_gaps. unfold re_finditer. rewrite scan_gaps_search.
  unfold re_search in H. now rewrite H.
Qed.

(** The output of [re.sub] keeps a property of the characters that the
    replacements keep. *)
Lemma sub_preserves (P : char -> Prop) r f s :
  (forall mo, hit_ok r mo -> Forall P (m_text mo) -> Forall P (f mo)) ->
  Forall P s -> Forall P (re_sub r f s).
Proof.
  intros Hf Hs. destruct (finditer_sound r s) as [E F]. rewrite <- E in Hs.
  clear E. unfold re_sub, pieces_text in *.
  induction F as [|[c|mo] ps Hp F IH]; simpl in *; auto.
  - inversion Hs; subst. constructor; auto.
  - apply Forall_app in Hs. destruct Hs as [H1 H2]. apply Forall_app; auto.
Qed.

(** Each match replaced by a text shorter by [d] makes the output shorter
    by [d]. *)
Lemma sub_shrinks r f s (d : nat) :
  (forall mo, hit_ok r mo -> (length (f mo) + d <= length (m_text mo))%nat) ->
  re_search r s <> None ->
  (length (re_sub r f s) + d <= length s)%nat.
Proof.
  intros Hf Hs.
  assert (G : forallb is_gap (re_finditer r s) = false).
  { unfold re_finditer. rewrite scan_gaps_search. unfold re_search in Hs.
    destruct (search_from r [] s); congruence. }
  destruct (finditer_sound r s) as [E F]. rewrite <- E at 2. clear E Hs.
  unfold re_sub, pieces_text.
  assert (L : forall ps, Forall (piece_ok r) ps ->
    (length (concat (map (fun p => match p with Gap c => [c] | Hit mo => f mo end) ps))
     <= length (concat (map piece_text ps)))%nat).
  { induction 1 as [|[c|mo] ps Hp F' IH]; simpl; auto;
      rewrite ?length_app; simpl; try lia.
    specialize (Hf mo Hp). lia. }
  induction F as [|[c|mo] ps Hp F IH]; simpl in *; try discriminate.
  - specialize (IH G). lia.
  - rewrite !length_app. specialize (Hf mo Hp). specialize (L ps F). lia.
Qed.

Lemma no_backslash_Forall s : no_backslash s <-> Forall (fun c => c <> 92) s.
Proof.
  unfold no_backslash. rewrite Forall_forall. split.
  - intros H c Hc ->. auto.
  - intros H Hc. apply (H 92 Hc). reflexivity.
Qed.

Lemma braces_step_no_backslash s :
  no_backslash s -> no_backslash (re_sub re_braces braces_repl s).
Proof.
  rewrite !no_backslash_Forall. apply sub_preserves.
  intros [t g] (pre & suf & D) Ht. simpl in D, Ht |- *. break.
  unfold braces_repl, grp, group_or_empty. simpl.
  repeat (apply Forall_app in Ht; destruct Ht as [? Ht]).
  constructor; [discriminate|]. apply Forall_app. split; auto.
Qed.

Lemma braces_step_shrinks s :
  re_search re_braces s <> None ->
  (length (re_sub re_braces braces_repl s) + 2 <= length s)%nat.
Proof.
  apply sub_shrinks. intros [t g] (pre & suf & D). simpl in D |- *. break.
  unfold braces_repl, grp, group_or_empty. simpl. rewrite !length_app. simpl. lia.
Qed.

Lemma collapse_braces_loop_no_backslash turns : forall s,
  no_backslash s -> no_backslash (collapse_braces_loop turns s).
Proof.
  induction turns as [|n IH]; intros s H; simpl; auto.
  destruct (re_search re_braces s); auto. apply IH, braces_step_no_backslash, H.
Qed.

(** The loop has run to its end: with as many turns as the text is long,
    nothing is left to reduce. *)
Lemma collapse_braces_loop_done turns : forall s,
  (length s <= turns)%nat ->
  re_search re_braces (collapse_braces_loop turns s) = None.
Proof.
  induction turns as [|n IH]; intros s H; simpl.
  - destruct s; [reflexivity | simpl in H; lia].
  - destruct (re_search re_braces s) eqn:Hs; auto.
    apply IH. assert (re_search re_braces s <> None) by congruence.
    pose proof (braces_step_shrinks s H0). lia.
Qed.

Lemma collapse_braces_done s : re_search re_braces (collapse_braces s) = None.
Proof. apply collapse_braces_loop_done. lia. Qed.

Lemma collapse_braces_fixed s :
  re_search re_braces s = None -> collapse_braces s = s.
Proof.
  unfold collapse_braces. intros H. destruct (length s); simpl; auto. now rewrite H.
Qed.

Create HintDb backslash.

#[local] Hint Resolve p_to_match_backslash re_dotless_backslash re_j_backslash
  re_accent_backslash re_accent_braced_backslash re_letter_accent_backslash
  re_tie_backslash : backslash.

Lemma sub_no_backslash r f s :
  (forall mo, hit_ok r mo -> In 92 (m_text mo)) -> no_backslash s ->
  re_sub r f s = s.
Proof. apply sub_without. Qed.

Lemma tex2utf_greek_no_backslash s greek :
  no_backslash s -> tex2utf_greek s greek = collapse_braces s.
Proof.
  intros H. unfold tex2utf_greek.
  unfold textlet_pattern, textgreek_pattern, textsym_pattern.
  rewrite (sub_no_backslash re_dotless) by eauto with backslash.
  rewrite (sub_no_backslash (_p_to_match textlet)) by eauto with backslash.
  assert (E : (if greek then re_sub (_p_to_match textgreek) _textgreek_sub s else s) = s).
  { destruct greek; auto.
    now rewrite (sub_no_backslash (_p_to_match textgreek)) by eauto with backslash. }
  rewrite E.
  rewrite (sub_no_backslash (_p_to_match textsym)) by eauto with backslash.
  rewrite (sub_no_backslash re_j) by eauto with backslash.
  assert (H' : no_backslash (collapse_braces s))
    by (apply collapse_braces_loop_no_backslash, H).
  rewrite (sub_no_backslash re_accent) by eauto with backslash.
  rewrite (sub_no_backslash re_accent_braced) by eauto with backslash.
  rewrite (sub_no_backslash re_letter_accent) by eauto with backslash.
  now rewrite (sub_no_backslash re_tie) by eauto with backslash.
Qed.

(** ** Matches found by [re.search] and [re.match] *)

Lemma search_from_sound r : forall suf pre mo,
  search_from r pre suf = Some mo -> hit_ok r mo.
Proof.
  induction suf as [|c suf IH]; intros pre mo H; simpl in H;
    destruct (match_at r pre _) as [mo'|] eqn:E.
  - injection H as <-. apply match_at_sound in E. destruct E as (s' & _ & D).
    now exists pre, s'.
  - discriminate.
  - injection H as <-. apply match_at_sound in E. destruct E as (s' & _ & D).
    now exists pre, s'.
  - eauto.
Qed.

Lemma search_sound r s mo : re_search r s = Some mo -> hit_ok r mo.
Proof. apply search_from_sound. Qed.

Lemma match_sound r s mo : re_match r s = Some mo -> hit_ok r mo.
Proof.
  intros H. apply match_at_sound in H. destruct H as (s' & _ & D).
  now exists [], s'.
Qed.

(** A text that is not empty stays so when every replacement has a
    character. *)
Lemma sub_nonempty r f s :
  s <> [] -> (forall mo, hit_ok r mo -> f mo <> []) -> re_sub r f s <> [].
Proof.
  intros Hs Hf. destruct (finditer_sound r s) as [E F]. rewrite <- E in Hs.
  unfold re_sub, pieces_text in *.
  destruct F as [|[c|mo] ps Hp F]; simpl in *; try congruence.
  intros H. apply app_eq_nil in H. destruct H as [H _]. now apply (Hf mo).
Qed.

(** ** Key names *)

Lemma name_name_group2 mo : hit_ok re_name_name mo -> grp 2 mo <> [].
Proof.
  destruct mo as [t g]. intros (pre & suf & D). simpl in D. break.
  all: unfold grp, group_or_empty; simpl; discriminate.
Qed.

Lemma name_name_suffix_group2 mo :
  hit_ok re_name_name_suffix mo -> grp 2 mo <> [].
Proof.
  destruct mo as [t g]. intros (pre & suf & D). simpl in D. break.
  all: unfold grp, group_or_empty; simpl; discriminate.
Qed.

Lemma collaboration_group1 mo : hit_ok re_collaboration mo -> grp 1 mo <> [].
Proof.
  destruct mo as [t g]. intros (pre & suf & D). simpl in D. break.
  all: unfold grp, group_or_empty; simpl; discriminate.
Qed.

Lemma split_name_keyname name : name <> [] -> keyname (split_name name) <> [].
Proof.
  intros Hn. unfold split_name.
  destruct (re_match re_double_prefix name) as [mo|] eqn:H1.
  { unfold keyname. simpl. destruct (grp 2 mo); discriminate. }
  destruct (re_match re_name_prefix_name name) as [mo|] eqn:H2.
  { unfold keyname. simpl. destruct (grp 2 mo); discriminate. }
  destruct (re_match re_name_name_suffix name) as [mo|] eqn:H3.
  { apply match_sound in H3. now apply name_name_suffix_group2. }
  destruct (re_match re_name_name name) as [mo|] eqn:H4.
  { apply match_sound in H4. now apply name_name_group2. }
  exact Hn.
Qed.

Lemma keyname_app e extra : keyname e <> [] -> keyname (e ++ extra) = keyname e.
Proof. unfold keyname. destruct e; simpl; [congruence | reflexivity]. Qed.

Lemma add_affiliation_appends author_line enumaffils author_entry name :
  exists extra,
    _add_affiliation author_line enumaffils author_entry name
    = author_entry ++ extra.
Proof.
  unfold _add_affiliation. destruct (re_search (namerex name) author_line).
  - destruct (matches re_enum_refs _); eauto.
  - exists []. now rewrite app_nil_r.
Qed.

Lemma add_affiliation_keyname author_line enumaffils author_entry name :
  keyname author_entry <> [] ->
  keyname (_add_affiliation author_line enumaffils author_entry name)
  = keyname author_entry.
Proof.
  intros H. destruct (add_affiliation_appends author_line enumaffils author_entry name)
    as [extra ->]. now apply keyname_app.
Qed.

Lemma collaboration_ok_cons P res k :
  collaboration_ok P res -> k <> [] ->
  collaboration_ok P
    (let '(names', author_list, n) := res in
     (names', [k; []; []] :: author_list, S n)).
Proof.
  destruct res as [[names' al] n]. intros (H1 & H2 & H3) Hk.
  split; [assumption|]. split; [constructor; assumption | simpl; f_equal; assumption].
Qed.

Lemma collaboration_at_start_bounded (P : str -> Prop) : forall n names,
  (length names <= n)%nat -> Forall P names ->
  collaboration_ok P (_collaboration_at_start names).
Proof.
  induction n as [|n IH]; intros [|name rest] Hl H; simpl in *;
    try (repeat split; constructor); try lia.
  destruct (re_search re_collaboration name) as [mo|] eqn:Hs.
  - apply search_sound, collaboration_group1 in Hs.
    inversion H as [|? ? Hn Hrest]; subst.
    destruct rest as [|sep rest'].
    + apply collaboration_ok_cons; auto. apply IH; simpl; auto; lia.
    + inversion Hrest; subst. simpl in Hl.
      destruct (str_eqb sep (s_ ",") || str_eqb sep (s_ ":"));
        apply collaboration_ok_cons; auto; apply IH; simpl; auto; lia.
  - repeat split; auto.
Qed.

Lemma collaboration_at_start_spec (P : str -> Prop) names :
  Forall P names -> collaboration_ok P (_collaboration_at_start names).
Proof. apply (collaboration_at_start_bounded P (length names)). lia. Qed.

Lemma name_start_nonempty x : matches re_name_start x = true -> x <> [].
Proof. intros H ->. discriminate. Qed.

Lemma tidy_name_nonempty name : name <> [] -> _tidy_name name <> [].
Proof.
  intros H. unfold _tidy_name. apply sub_nonempty; [apply sub_nonempty; auto|].
  - intros; discriminate.
  - intros mo _. discriminate.
Qed.

Lemma candidate_names_nonempty tokens :
  Forall (fun n => n <> []) (candidate_names tokens).
Proof.
  unfold candidate_names. apply Forall_map, Forall_forall.
  intros x Hx. apply filter_In in Hx. destruct Hx as [_ Hx].
  now apply tidy_name_nonempty, name_start_nonempty.
Qed.

Lemma entries_of_names_keyname author_line enumaffils names :
  Forall (fun n => n <> []) names ->
  Forall (fun e => keyname e <> [])
         (fst (entries_of_names author_line enumaffils names)).
Proof.
  intros H. unfold entries_of_names.
  assert (H' : Forall (fun n => n <> [])
                      (filter (fun n => negb (matches re_et_al n)) names)).
  { rewrite Forall_forall in *. intros x Hx. apply filter_In in Hx. apply H, Hx. }
  pose proof (collaboration_at_start_spec _ _ H') as C.
  destruct (_collaboration_at_start _) as [[names' al] n].
  destruct C as (C1 & C2 & _). simpl. apply Forall_app. split; auto.
  apply Forall_map. rewrite Forall_forall in *. intros x Hx.
  rewrite add_affiliation_keyname; apply split_name_keyname; auto.
Qed.

Lemma split_keyname author_line :
  Forall (fun e => keyname e <> []) (fst (_parse_author_affil_split author_line)).
Proof.
  unfold _parse_author_affil_split. destruct author_line as [|c l]; [constructor|].
  destruct (split_authors (c :: l)) as [|tok toks]; [constructor|].
  apply entries_of_names_keyname, candidate_names_nonempty.
Qed.

Lemma back_propagate_from_keyname author_list :
  Forall (fun e => keyname e <> []) author_list ->
  Forall (fun e => keyname e <> []) (fst (back_propagate_from author_list)).
Proof.
  induction 1 as [|e l He Hl IH]; simpl; [constructor|].
  destruct (back_propagate_from l) as [l' last]. simpl in IH.
  destruct (3 <? length e)%nat; simpl; [auto|].
  destruct last; simpl; constructor; auto. now rewrite keyname_app.
Qed.

Lemma parse_author_affil_keyname authors :
  Forall (fun e => keyname e <> []) (parse_author_affil authors).
Proof.
  unfold parse_author_affil. pose proof (split_keyname authors) as H.
  destruct (_parse_author_affil_split authors) as [al bp]. simpl in H.
  unfold _parse_author_affil_back_propagate.
  rewrite <- (firstn_skipn bp al) in H. apply Forall_app in H.
  destruct H as [H1 H2]. apply Forall_app. split; [assumption|].
  now apply back_propagate_from_keyname.
Qed.

Lemma is_word_alpha c : is_alpha_ascii c = true -> is_word c = true.
Proof.
  unfold is_word, is_alpha_ascii, either, is_upper_ascii, is_lower_ascii, in_range.
  intros H. rewrite H. simpl.
  destruct (c <? 128) eqn:E; auto. apply N.ltb_ge in E.
  rewrite !orb_true_iff, !andb_true_iff, !N.leb_le in H. lia.
Qed.

Lemma accent_mark_cases a :
  accent_mark a = true ->
  a = 39 \/ a = 96 \/ a = 94 \/ a = 34 \/ a = 126 \/ a = 61 \/ a = 46.
Proof.
  unfold accent_mark, one_of. simpl. rewrite !orb_true_iff, !N.eqb_eq.
  intuition discriminate.
Qed.

(** ** The transliterator keeps a text non-empty *)

Lemma str_eqb_eq a : forall b, str_eqb a b = true <-> a = b.
Proof.
  induction a as [|x a IH]; intros [|y b]; simpl; split; try congruence; auto.
  - rewrite andb_true_iff, N.eqb_eq, IH. intros [-> ->]. reflexivity.
  - intros [= -> ->]. rewrite N.eqb_refl. now apply IH.
Qed.

Lemma str_eqb_refl a : str_eqb a a = true.
Proof. now apply str_eqb_eq. Qed.

Lemma den_seq_cons r rs pre t suf g g' :
  den (seq (r :: rs)) pre t suf g g' <->
  exists t1 t2 g1, t = t1 ++ t2 /\ den r pre t1 (t2 ++ suf) g g1
                   /\ den (seq rs) (rev t1 ++ pre) t2 suf g1 g'.
Proof.
  destruct rs as [|r' rs]; [|reflexivity]. simpl. split.
  - intros D. exists t, [], g'. rewrite app_nil_r. simpl. auto.
  - intros (t1 & t2 & g1 & -> & D & -> & ->). now rewrite app_nil_r in *.
Qed.

Lemma den_lit s : forall pre t suf g g',
  den (lit s) pre t suf g g' -> t = s /\ g' = g.
Proof.
  unfold lit. induction s as [|c s IH]; intros pre t suf g g' D.
  - simpl in D. tauto.
  - change (map (fun c0 => Cls (chr c0)) (c :: s))
      with (Cls (chr c) :: map (fun c0 => Cls (chr c0)) s) in D.
    apply den_seq_cons in D. destruct D as (t1 & t2 & g1 & -> & D1 & D2).
    apply IH in D2. simpl in D1. break. auto.
Qed.

Lemma den_alts_keys (table : list (str * N)) : forall pre t suf g g',
  table <> [] ->
  den (alts (map (fun kv => lit (fst kv)) table)) pre t suf g g' ->
  In t (map fst table) /\ g' = g.
Proof.
  induction table as [|kv table IH]; intros pre t suf g g' Hn D; [congruence|].
  destruct table as [|kv' table].
  - simpl in D. apply den_lit in D. destruct D as [-> ->]. simpl. auto.
  - change (den (Alt (lit (fst kv))
                     (alts (map (fun kv => lit (fst kv)) (kv' :: table))))
                pre t suf g g') in D.
    destruct D as [D|D].
    + apply den_lit in D. destruct D as [-> ->]. simpl. auto.
    + apply IH in D; [|discriminate]. destruct D as [D ->]. split; auto.
      right. exact D.
Qed.

Lemma table_get_key (table : list (str * N)) k :
  In k (map fst table) -> table_get table k <> None.
Proof.
  induction table as [|[k' v] table IH]; simpl; [tauto|].
  intros [->|H].
  - rewrite str_eqb_refl. discriminate.
  - destruct (str_eqb k' k); [discriminate | auto].
Qed.

Lemma p_to_match_sub_nonempty table mo :
  table <> [] -> hit_ok (_p_to_match table) mo ->
  table_chr table (grp 2 mo) <> [].
Proof.
  intros Hn. destruct mo as [t g]. intros (pre & suf & D).
  unfold _p_to_match in D. cbn [seq m_text m_groups] in D.
  destruct D as (t1 & t2 & g1 & -> & _ & D).
  destruct D as (t3 & t4 & g2 & -> & _ & D).
  destruct D as (t5 & t6 & g3 & -> & D2 & D).
  destruct D2 as (g4 & D2 & ->). apply den_alts_keys in D2; [|assumption].
  destruct D2 as [Hk ->]. apply table_get_key in Hk.
  assert (G : grp 2 (mk_rmatch (t1 ++ t3 ++ t5 ++ t6) g) = t5).
  { simpl in D. unfold grp, group_or_empty. simpl. break; reflexivity. }
  rewrite G. unfold table_chr. destruct (table_get table t5); [discriminate|congruence].
Qed.

(** A character that no match can hold is still there after [re.sub]. *)
Lemma sub_keeps r f s (c : char) :
  In c s -> (forall mo, hit_ok r mo -> ~ In c (m_text mo)) ->
  In c (re_sub r f s).
Proof.
  intros Hs Hf. destruct (finditer_sound r s) as [E F]. rewrite <- E in Hs.
  clear E. unfold re_sub, pieces_text in *.
  induction F as [|[d|mo] ps Hp F IH]; simpl in *; auto.
  - destruct Hs as [->|Hs]; auto.
  - apply in_app_iff in Hs. apply in_app_iff. destruct Hs as [Hs|Hs]; auto.
    exfalso. apply (Hf mo Hp Hs).
Qed.

Lemma non_word_hit mo c :
  hit_ok re_non_word mo -> In c (m_text mo) -> is_word c = false.
Proof.
  destruct mo as [t g]. intros (pre & suf & D) Hc. simpl in D, Hc. break.
  simpl in Hc. destruct Hc as [<-|Hc].
  - match goal with H : neg is_word _ = true |- _ =>
      now apply negb_true_iff in H end.
  - match goal with H : forallb _ _ = true |- _ =>
      rewrite forallb_forall in H; apply H in Hc end.
    now apply negb_true_iff in Hc.
Qed.

Lemma texch2UTF_nonempty acc c :
  In c acc -> is_word c = true -> texch2UTF acc <> [].
Proof.
  intros Hc Hw. unfold texch2UTF. destruct (table_get accents acc); [discriminate|].
  intros E. assert (H : In c (re_sub re_non_word (fun _ => []) acc)).
  { apply sub_keeps; auto. intros mo Hm Hi.
    rewrite (non_word_hit mo c Hm Hi) in Hw. discriminate. }
  rewrite E in H. destruct H.
Qed.

Lemma collapse_braces_loop_nonempty turns : forall s,
  s <> [] -> collapse_braces_loop turns s <> [].
Proof.
  induction turns as [|n IH]; intros s H; simpl; auto.
  destruct (re_search re_braces s); auto. apply IH, sub_nonempty; auto.
  intros; discriminate.
Qed.

(** [tex2utf] never turns a text with characters into the empty text. *)
Lemma tex2utf_greek_nonempty s greek : s <> [] -> tex2utf_greek s greek <> [].
Proof.
  intros H. unfold tex2utf_greek.
  repeat match goal with
  | |- re_sub _ _ _ <> [] => apply sub_nonempty
  | |- collapse_braces _ <> [] => apply collapse_braces_loop_nonempty
  | |- (if greek then _ else _) <> [] => destruct greek
  end; try exact H; try (intros; discriminate).
  all: try (intros mo Hm; apply p_to_match_sub_nonempty; [discriminate | exact Hm]).
  all: intros [t g] (pre & suf & D); simpl in D; break;
    unfold grp, group_or_empty; simpl;
    first [ discriminate
          | match goal with H : is_alpha_ascii ?c = true |- _ =>
              apply (texch2UTF_nonempty _ c);
              [simpl; auto | now apply is_word_alpha]
            end ].
Qed.

(** ** Names without whitespace *)

(** The four name patterns begin alike: the start, a group of any
    characters, whitespace. *)
Lemma name_pattern_has_space rest mo :
  hit_ok (seq (Bol :: Grp 1 (Star dot) :: Plus is_space :: rest)) mo ->
  exists c, In c (m_text mo) /\ is_space c = true.
Proof.
  destruct mo as [t g]. intros (pre & suf & D). cbn [m_text m_groups] in *.
  apply den_seq_cons in D. destruct D as (t1 & t2 & g1 & -> & _ & D).
  apply den_seq_cons in D. destruct D as (t3 & t4 & g2 & -> & _ & D).
  apply den_seq_cons in D. destruct D as (t5 & t6 & g3 & -> & D & _).
  simpl in D. break. match goal with c : char |- _ => exists c end.
  split; [find_char | assumption].
Qed.

Lemma match_prefix r s mo :
  re_match r s = Some mo -> exists s', s = m_text mo ++ s'.
Proof.
  intros H. apply match_at_sound in H. destruct H as (s' & E & _). eauto.
Qed.

Lemma name_pattern_no_space rest name :
  forallb not_space name = true ->
  re_match (seq (Bol :: Grp 1 (Star dot) :: Plus is_space :: rest)) name = None.
Proof.
  intros H. destruct (re_match _ name) as [mo|] eqn:E; [|reflexivity].
  destruct (match_prefix _ _ _ E) as [s' Es].
  apply match_sound, name_pattern_has_space in E. destruct E as (c & Hc & Hs).
  rewrite forallb_forall in H. assert (Hn : not_space c = true).
  { apply H. rewrite Es. apply in_or_app. now left. }
  unfold not_space, neg in Hn. rewrite Hs in Hn. discriminate.
Qed.

Lemma split_name_no_space name :
  forallb not_space name = true -> split_name name = [name; []; []].
Proof.
  intros H. unfold split_name.
  unfold re_double_prefix, re_name_prefix_name, re_name_name_suffix, re_name_name.
  now rewrite !name_pattern_no_space.
Qed.

(** ** When the parser gives no entry *)

Lemma is_comma_eq x : is_comma x = true -> x = s_ ",".
Proof. apply str_eqb_eq. Qed.

Lemma filter_remove_double_commas (P : str -> bool) :
  P (s_ ",") = false ->
  forall items last,
    filter P (remove_double_commas_from last items) = filter P items.
Proof.
  intros HP. induction items as [|pt items IH]; intros last; simpl; auto.
  destruct (is_comma pt && is_comma last) eqn:E; simpl.
  - apply andb_true_iff in E. destruct E as [E _]. apply is_comma_eq in E.
    subst pt. rewrite HP. apply IH.
  - now rewrite IH.
Qed.

Lemma filter_dropwhile_comma (P : str -> bool) :
  P (s_ ",") = false ->
  forall l, filter P (dropwhile is_comma l) = filter P l.
Proof.
  intros HP. induction l as [|x l IH]; simpl; auto.
  destruct (is_comma x) eqn:E; auto.
  apply is_comma_eq in E. subst x. now rewrite HP.
Qed.

Lemma candidate_names_filter tokens :
  candidate_names tokens = map _tidy_name (filter (matches re_name_start) tokens).
Proof.
  unfold candidate_names, _remove_double_commas. f_equal.
  rewrite filter_dropwhile_comma, filter_rev, filter_dropwhile_comma, filter_rev,
    rev_involutive, filter_remove_double_commas; reflexivity.
Qed.

Lemma filter_map_filter_nonempty {A B} (P : A -> bool) (Q : B -> bool)
    (f : A -> B) l :
  filter Q (map f (filter P l)) <> []
  <-> existsb (fun x => P x && Q (f x)) l = true.
Proof.
  induction l as [|x l IH]; simpl; [split; congruence|].
  destruct (P x); simpl; [|exact IH].
  destruct (Q (f x)); simpl; [split; [reflexivity | discriminate] | exact IH].
Qed.

Lemma collaboration_at_start_empty : forall n names,
  (length names <= n)%nat ->
  let '(names', author_list, _) := _collaboration_at_start names in
  names = [] <-> names' = [] /\ author_list = [].
Proof.
  induction n as [|n IH]; intros [|name rest] Hl; simpl in *; try lia;
    try (split; auto; fail).
  destruct (re_search re_collaboration name) as [mo|].
  - assert (G : forall l,
      let '(names', author_list, _) :=
        (let '(names', author_list, k) := _collaboration_at_start l in
         (names', [grp 1 mo; []; []] :: author_list, S k)) in
      name :: rest = [] <-> names' = [] /\ author_list = []).
    { intros l. destruct (_collaboration_at_start l) as [[a b] k].
      split; [discriminate | intros [_ H]; discriminate]. }
    destruct rest as [|sep rest']; [apply G|].
    destruct (str_eqb sep (s_ ",") || str_eqb sep (s_ ":")); apply G.
  - split; [discriminate | intros [H _]; discriminate].
Qed.

Lemma entries_of_names_empty author_line enumaffils names :
  fst (entries_of_names author_line enumaffils names) <> []
  <-> filter (fun n => negb (matches re_et_al n)) names <> [].
Proof.
  unfold entries_of_names.
  pose proof (collaboration_at_start_empty
                (length (filter (fun n => negb (matches re_et_al n)) names))
                _ (le_n _)) as C.
  destruct (_collaboration_at_start _) as [[names' al] k]. simpl.
  split.
  - intros H E. apply C in E. destruct E as [-> ->]. now apply H.
  - intros H E. apply H, C. apply app_eq_nil in E. destruct E as [E1 E2].
    split; auto. destruct names'; [reflexivity | discriminate].
Qed.

Lemma back_propagate_from_length author_list :
  length (fst (back_propagate_from author_list)) = length author_list.
Proof.
  induction author_list as [|e l IH]; simpl; auto.
  destruct (back_propagate_from l) as [l' last]. simpl in IH.
  destruct (3 <? length e)%nat; [simpl; congruence|].
  destruct last; simpl; congruence.
Qed.

Lemma back_propagate_length author_list back_prop :
  length (_parse_author_affil_back_propagate author_list back_prop)
  = length author_list.
Proof.
  unfold _parse_author_affil_back_propagate.
  rewrite length_app, back_propagate_from_length, <- length_app, firstn_skipn.
  reflexivity.
Qed.

Lemma parse_author_affil_nonempty authors :
  parse_author_affil authors <> []
  <-> existsb is_author_token (split_authors authors) = true.
Proof.
  unfold parse_author_affil.
  assert (L : forall al bp, _parse_author_affil_back_propagate al bp <> [] <-> al <> []).
  { intros al bp. pose proof (back_propagate_length al bp) as H.
    destruct al, (_parse_author_affil_back_propagate _ bp); simpl in H;
      split; congruence. }
  destruct (_parse_author_affil_split authors) as [al bp] eqn:E. rewrite L.
  unfold _parse_author_affil_split in E. destruct authors as [|c l].
  - injection E as <- <-. simpl. split; congruence.
  - destruct (split_authors (c :: l)) as [|tok toks] eqn:Et.
    + injection E as <- <-. simpl. split; congruence.
    + replace al with (fst (entries_of_names (c :: l)
                 (_enum_collaboration_at_end (c :: l))
                 (candidate_names (tok :: toks)))) by now rewrite E.
      rewrite entries_of_names_empty, candidate_names_filter.
      apply filter_map_filter_nonempty.
Qed.

(** ** Greedy repetition *)

(** A repetition takes the whole run when the rest of the pattern accepts
    that. *)
Lemma star_max p k res : forall w rest pre g,
  forallb p w = true -> stops p rest ->
  k (rev w ++ pre) rest g = Some res ->
  star p pre (w ++ rest) g k = Some res.
Proof.
  induction w as [|c w IH]; intros rest pre g Hw Hs Hk; simpl in *.
  - destruct rest as [|x rest]; simpl in *; auto. now rewrite Hs.
  - apply andb_true_iff in Hw. destruct Hw as [Hc Hw]. rewrite Hc.
    rewrite (IH rest (c :: pre) g Hw Hs); auto. now rewrite <- app_assoc in Hk.
Qed.

Lemma span_run (p : cclass) : forall s,
  exists w rest, s = w ++ rest /\ forallb p w = true /\ stops p rest.
Proof.
  induction s as [|c s (w & rest & -> & Hw & Hs)].
  - exists [], []. simpl. auto.
  - destruct (p c) eqn:Hc.
    + exists (c :: w), rest. simpl. rewrite Hc, Hw. auto.
    + exists [], (c :: w ++ rest). simpl. auto.
Qed.

Lemma match_at_plus_run p pre w rest :
  w <> [] -> forallb p w = true -> stops p rest ->
  match_at (Plus p) pre (w ++ rest) = Some (mk_rmatch w []).
Proof.
  intros Hn Hw Hs. destruct w as [|c w]; [congruence|].
  simpl in Hw. apply andb_true_iff in Hw. destruct Hw as [Hc Hw].
  unfold match_at, Plus. simpl. rewrite Hc.
  rewrite (star_max p final (rev w ++ c :: pre, rest, []) w rest (c :: pre) []);
    auto.
  simpl. unfold consumed. f_equal.
  change (rev w ++ c :: pre) with (rev w ++ [c] ++ pre).
  rewrite app_assoc. change (rev w ++ [c]) with (rev (c :: w)).
  apply f_equal2; [apply consumed_text | reflexivity].
Qed.

Lemma match_at_plus_none p pre suf :
  stops p suf -> match_at (Plus p) pre suf = None.
Proof.
  intros Hs. unfold match_at, Plus. destruct suf as [|x suf]; simpl in *; auto.
  now rewrite Hs.
Qed.

(** ** Whitespace runs become one space *)

Lemma collapse_from_run : forall w rest b,
  forallb is_space w = true ->
  collapse_from true (w ++ rest) = collapse_from true rest
  /\ (w <> [] -> collapse_from b (w ++ rest)
                 = (if b then [] else [32]) ++ collapse_from true rest).
Proof.
  induction w as [|c w IH]; intros rest b Hw; simpl in *.
  - split; [reflexivity | congruence].
  - apply andb_true_iff in Hw. destruct Hw as [Hc Hw]. rewrite Hc.
    destruct (IH rest true Hw) as [I1 _]. rewrite I1.
    split; [reflexivity|]. intros _. destruct b; reflexivity.
Qed.

Lemma collapse_from_stops b rest :
  stops is_space rest -> collapse_from b rest = collapse_from false rest.
Proof. destruct rest as [|x rest]; simpl; auto. now intros ->. Qed.

Lemma scan_spaces_collapse : forall n suf pre,
  (length suf <= n)%nat ->
  concat (map (fun p => match p with Gap c => [c] | Hit _ => s_ " " end)
              (scan re_spaces pre suf 0))
  = collapse_spaces suf.
Proof.
  unfold collapse_spaces.
  induction n as [|n IH]; intros suf pre Hl.
  - destruct suf; [|simpl in Hl; lia]. rewrite scan_end; reflexivity.
  - destruct suf as [|c suf]; [rewrite scan_end; reflexivity|].
    simpl in Hl. destruct (is_space c) eqn:Hc.
    + destruct (span_run is_space suf) as (w & rest & -> & Hw & Hs).
      change (c :: w ++ rest) with ((c :: w) ++ rest).
      unfold re_spaces. rewrite (scan_hit (Plus is_space) pre (c :: w) rest []).
      * cbn [map concat]. fold re_spaces. rewrite IH.
        -- destruct (collapse_from_run (c :: w) rest false) as [_ E];
             [simpl; now rewrite Hc, Hw|].
           rewrite E by discriminate. now rewrite (collapse_from_stops true).
        -- rewrite length_app in Hl. lia.
      * apply match_at_plus_run; auto; [discriminate|]. simpl. now rewrite Hc, Hw.
      * discriminate.
    + rewrite scan_gap.
      * cbn [map concat]. rewrite IH by lia. simpl. now rewrite Hc.
      * apply match_at_plus_none. exact Hc.
Qed.

(** [re.sub(r'\s+', ' ', s)] puts one space for every run of whitespace and
    keeps the other characters. *)
Lemma sub_spaces_collapse s :
  re_sub re_spaces (fun _ => s_ " ") s = collapse_spaces s.
Proof. apply (scan_spaces_collapse (length s)). lia. Qed.

(** ** Texts in which a pattern finds nothing *)

Lemma no_hit_pred r (P : cclass) s :
  (forall mo, hit_ok r mo -> existsb P (m_text mo) = true) ->
  forallb (neg P) s = true -> forallb is_gap (re_finditer r s) = true.
Proof.
  intros Hr Hs. destruct (finditer_sound r s) as [E F].
  rewrite <- E in Hs. clear E. unfold pieces_text in Hs.
  induction F as [|[d|mo] ps Hp F IH]; simpl in *; auto.
  - apply andb_true_iff in Hs. apply IH, Hs.
  - rewrite forallb_app in Hs. apply andb_true_iff in Hs. destruct Hs as [Hs _].
    specialize (Hr mo Hp). apply existsb_exists in Hr. destruct Hr as (c & Hc & Pc).
    rewrite forallb_forall in Hs. specialize (Hs c Hc). unfold neg in Hs.
    rewrite Pc in Hs. discriminate.
Qed.

Lemma all_gaps_pieces r s :
  forallb is_gap (re_finditer r s) = true -> re_finditer r s = map Gap s.
Proof.
  intros H. rewrite <- (proj1 (finditer_sound r s)) at 2.
  unfold pieces_text. induction (re_finditer r s) as [|[c|mo] ps IH];
    simpl in *; try discriminate; auto. now rewrite <- IH.
Qed.

Lemma split_pieces_gaps gs : forall s cur,
  split_pieces gs cur (map Gap s) = [rev cur ++ s].
Proof.
  induction s as [|c s IH]; intros cur; simpl.
  - now rewrite app_nil_r.
  - rewrite IH. simpl. now rewrite <- app_assoc.
Qed.

(** [re.split] gives the text back, whole, when the pattern finds
    nothing. *)
Lemma split_all_gaps r gs s :
  forallb is_gap (re_finditer r s) = true -> re_split r gs s = [s].
Proof.
  intros H. unfold re_split. rewrite (all_gaps_pieces r s H).
  apply split_pieces_gaps.
Qed.

Lemma paren_hit mo : hit_ok re_paren mo -> existsb is_paren (m_text mo) = true.
Proof.
  destruct mo as [t g]. intros (pre & suf & D). simpl in D. break; reflexivity.
Qed.

(** A line without parentheses is one block. *)
Lemma paren_blocks_no_paren s :
  s <> [] -> forallb (neg is_paren) s = true -> paren_blocks s = [s].
Proof.
  intros Hn Hs. unfold paren_blocks.
  rewrite split_all_gaps by (apply (no_hit_pred re_paren is_paren); auto using paren_hit).
  simpl. destruct s; [congruence | reflexivity].
Qed.

Lemma space_not_paren c : is_space c = true -> neg is_paren c = true.
Proof.
  intros H. unfold neg, is_paren, one_of. simpl.
  destruct (c =? 40) eqn:E1; [apply N.eqb_eq in E1; subst; discriminate|].
  destruct (c =? 41) eqn:E2; [apply N.eqb_eq in E2; subst; discriminate|].
  reflexivity.
Qed.

Lemma collapse_from_nonspace : forall seg rest b,
  forallb not_space seg = true -> seg <> [] ->
  collapse_from b (seg ++ rest) = seg ++ collapse_from false rest.
Proof.
  induction seg as [|c seg IH]; intros rest b Hs Hn; [congruence|].
  simpl in *. apply andb_true_iff in Hs. destruct Hs as [Hc Hs].
  unfold not_space, neg in Hc. apply negb_true_iff in Hc. rewrite Hc. f_equal.
  destruct seg as [|d seg]; [reflexivity|]. apply IH; [assumption | discriminate].
Qed.

Lemma collapse_from_spaces : forall w b,
  forallb is_space w = true ->
  collapse_from b w = match w with
                      | [] => []
                      | _ :: _ => if b then [] else [32]
                      end.
Proof.
  intros w b Hw. destruct w as [|c w]; [reflexivity|].
  destruct (collapse_from_run (c :: w) [] b) as [_ E]; [exact Hw|].
  rewrite app_nil_r in E. rewrite E by discriminate. simpl. now rewrite app_nil_r.
Qed.

(** ** A line that is an et-al token *)

Lemma block_tokens_collapsed block :
  block_tokens block = tokens_of_collapsed (collapse_spaces block).
Proof. unfold block_tokens. now rewrite sub_spaces_collapse. Qed.

Lemma collapse_two_words w1 seg1 c2 w2 seg2 w3 :
  forallb is_space w1 = true -> forallb is_space (c2 :: w2) = true ->
  forallb is_space w3 = true ->
  forallb not_space seg1 = true -> seg1 <> [] ->
  forallb not_space seg2 = true -> seg2 <> [] ->
  collapse_spaces (w1 ++ seg1 ++ (c2 :: w2) ++ seg2 ++ w3)
  = pad w1 ++ seg1 ++ [32] ++ seg2 ++ pad w3.
Proof.
  intros H1 H2 H3 S1 N1 S2 N2. unfold collapse_spaces.
  assert (E : forall b, collapse_from b (seg1 ++ (c2 :: w2) ++ seg2 ++ w3)
                        = seg1 ++ [32] ++ seg2 ++ pad w3).
  { intros b. rewrite collapse_from_nonspace by assumption. f_equal.
    destruct (collapse_from_run (c2 :: w2) (seg2 ++ w3) false H2) as [_ E].
    rewrite E by discriminate. simpl. f_equal.
    rewrite collapse_from_nonspace by assumption. f_equal.
    rewrite collapse_from_spaces by assumption. reflexivity. }
  destruct w1 as [|c1 w1]; [apply E|].
  destruct (collapse_from_run (c1 :: w1) (seg1 ++ (c2 :: w2) ++ seg2 ++ w3) false H1)
    as [_ E1].
  rewrite E1 by discriminate. now rewrite E.
Qed.

Lemma chr_i_lower a c :
  is_lower_ascii a = true -> a <> 105 -> a <> 115 -> a <> 107 ->
  chr_i a c = true -> c = a \/ c = a - 32.
Proof.
  unfold chr_i, is_alpha_ascii, either, lower_ascii, is_upper_ascii,
    is_lower_ascii, in_range.
  intros Ha Hi Hs Hk. destruct (andb_prop _ _ Ha) as [L1 L2].
  pose proof (proj1 (N.leb_le _ _) L1) as L1'.
  pose proof (proj1 (N.leb_le _ _) L2) as L2'.
  assert (E1 : (a <? 128) = true) by (apply N.ltb_lt; lia).
  assert (E2 : ((65 <=? a) && (a <=? 90)) = false).
  { apply andb_false_iff. right. apply N.leb_gt. lia. }
  rewrite E1, E2, L1, L2.
  rewrite (proj2 (N.eqb_neq a 105) Hi), (proj2 (N.eqb_neq a 115) Hs),
    (proj2 (N.eqb_neq a 107) Hk).
  simpl. rewrite !orb_false_r, orb_true_iff, !N.eqb_eq. tauto.
Qed.

Lemma forallb_space_not_paren w :
  forallb is_space w = true -> forallb (neg is_paren) w = true.
Proof.
  rewrite !forallb_forall. intros H c Hc. apply space_not_paren. auto.
Qed.

Lemma et_al_only_shape s :
  et_al_only s = true ->
  exists w1 e t d1 c2 w2 a l d2 w3,
    s = w1 ++ ([e; t] ++ d1) ++ (c2 :: w2) ++ ([a; l] ++ d2) ++ w3
    /\ forallb is_space w1 = true /\ forallb is_space (c2 :: w2) = true
    /\ forallb is_space w3 = true
    /\ (e = 101 \/ e = 69) /\ (t = 116 \/ t = 84)
    /\ (a = 97 \/ a = 65) /\ (l = 108 \/ l = 76)
    /\ (d1 = [] \/ d1 = [46]) /\ (d2 = [] \/ d2 = [46]).
Proof.
  unfold et_al_only.
  destruct (re_match re_et_al s) as [mo|] eqn:E; [|discriminate].
  intros H. apply str_eqb_eq in H. apply match_sound in E. destruct mo as [t g].
  destruct E as (pre & suf & D). simpl in H. subst t. cbn [m_text m_groups] in D.
  simpl in D.
  destruct D as (t1 & t2 & g1 & -> & (-> & _) & D).
  destruct D as (w1 & t4 & g2 & -> & (W1 & _) & D).
  destruct D as (t5 & t6 & g3 & -> & D1 & D).
  destruct D1 as (t7 & t8 & g4 & -> & (e & -> & He & _) & (t & -> & Ht & _)).
  destruct D as (d1 & t9 & g5 & -> & Hd1 & D).
  destruct D as (t10 & t11 & g6 & -> & D2 & D).
  destruct D2 as (t12 & w2 & g7 & -> & (c2 & -> & Hc2 & _) & (W2 & _)).
  destruct D as (t13 & t14 & g8 & -> & D3 & D).
  destruct D3 as (t15 & t16 & g9 & -> & (a & -> & Ha & _) & (l & -> & Hl & _)).
  destruct D as (d2 & w3 & g10 & -> & Hd2 & (W3 & _)).
  exists w1, e, t, d1, c2, w2, a, l, d2, w3.
  apply chr_i_lower in He, Ht, Ha, Hl; try reflexivity; try discriminate.
  simpl. rewrite Hc2, W2. repeat split; auto.
  - destruct Hd1 as [(c & -> & Hc & _)|(-> & _)];
      [apply N.eqb_eq in Hc; subst; now right | now left].
  - destruct Hd2 as [(c & -> & Hc & _)|(-> & _)];
      [apply N.eqb_eq in Hc; subst; now right | now left].
Qed.

Lemma et_al_only_tokens s :
  et_al_only s = true -> existsb is_author_token (split_authors s) = false.
Proof.
  intros H. apply et_al_only_shape in H.
  destruct H as (w1 & e & t & d1 & c2 & w2 & a & l & d2 & w3 & -> & W1 & W2 & W3
                 & He & Ht & Ha & Hl & Hd1 & Hd2).
  assert (S1 : forallb not_space ([e; t] ++ d1) = true)
    by (destruct He, Ht, Hd1; subst; reflexivity).
  assert (S2 : forallb not_space ([a; l] ++ d2) = true)
    by (destruct Ha, Hl, Hd2; subst; reflexivity).
  assert (P : forallb (neg is_paren)
                (w1 ++ ([e; t] ++ d1) ++ (c2 :: w2) ++ ([a; l] ++ d2) ++ w3) = true).
  { rewrite !forallb_app, (forallb_space_not_paren w1 W1),
      (forallb_space_not_paren (c2 :: w2) W2), (forallb_space_not_paren w3 W3).
    destruct He, Ht, Hd1, Ha, Hl, Hd2; subst; reflexivity. }
  unfold split_authors.
  destruct (w1 ++ ([e; t] ++ d1) ++ (c2 :: w2) ++ ([a; l] ++ d2) ++ w3) eqn:E.
  { destruct w1; discriminate. }
  rewrite <- E in *. rewrite paren_blocks_no_paren; [|rewrite E; discriminate|exact P].
  cbn [flat_map]. rewrite app_nil_r, block_tokens_collapsed.
  rewrite collapse_two_words by (assumption || discriminate).
  assert (Q1 : pad w1 = [] \/ pad w1 = [32]) by (destruct w1; simpl; auto).
  assert (Q3 : pad w3 = [] \/ pad w3 = [32]) by (destruct w3; simpl; auto).
  clear E P S1 S2.
  destruct Q1 as [-> | ->], Q3 as [-> | ->], He, Ht, Hd1, Ha, Hl, Hd2; subst;
    vm_compute; reflexivity.
Qed.

Lemma et_al_only_parse s : et_al_only s = true -> parse_author_affil s = [].
Proof.
  intros H. apply et_al_only_tokens in H.
  destruct (parse_author_affil s) eqn:E; [reflexivity|].
  assert (N : parse_author_affil s <> []) by (rewrite E; discriminate).
  apply parse_author_affil_nonempty in N. congruence.
Qed.

(** ** What the tokenizer keeps *)

Lemma remove_ws_app a b : remove_ws (a ++ b) = remove_ws a ++ remove_ws b.
Proof. apply filter_app. Qed.

Lemma remove_ws_spaces w : forallb is_space w = true -> remove_ws w = [].
Proof.
  induction w as [|c w IH]; simpl; auto. intros H.
  apply andb_true_iff in H. destruct H as [Hc Hw].
  unfold not_space, neg. rewrite Hc. simpl. auto.
Qed.

(** [re.sub] up to a reading [N] of texts that goes through concatenation:
    replacements that read like the matches leave the reading as it was. *)
Lemma sub_hom (N : str -> str) r f s :
  (forall a b, N (a ++ b) = N a ++ N b) ->
  (forall mo, hit_ok r mo -> N (f mo) = N (m_text mo)) ->
  N (re_sub r f s) = N s.
Proof.
  intros HN Hf. destruct (finditer_sound r s) as [E F]. rewrite <- E at 2.
  clear E. unfold re_sub, pieces_text.
  induction F as [|[c|mo] ps Hp F IH]; simpl; auto.
  - change (c :: ?x) with ([c] ++ x). rewrite !HN. now rewrite IH.
  - rewrite !HN, IH. f_equal. apply Hf, Hp.
Qed.

(** [re.split] up to such a reading: groups that read like the matches. *)
Lemma split_pieces_hom (N : str -> str) r gs :
  (forall a b, N (a ++ b) = N a ++ N b) ->
  (forall mo, hit_ok r mo ->
     N (concat (map (fun n => grp n mo) gs)) = N (m_text mo)) ->
  forall ps cur, Forall (piece_ok r) ps ->
    N (concat (split_pieces gs cur ps)) = N (rev cur ++ pieces_text ps).
Proof.
  intros HN Hg. induction ps as [|[c|mo] ps IH]; intros cur F; simpl.
  - unfold pieces_text. simpl. reflexivity.
  - inversion F; subst. rewrite IH by assumption. simpl.
    unfold pieces_text. simpl. now rewrite <- app_assoc.
  - inversion F as [|? ? Hm F']; subst. rewrite concat_app.
    rewrite !HN, (IH [] F'), (Hg mo Hm). unfold pieces_text. simpl.
    now rewrite !HN.
Qed.

Lemma split_hom (N : str -> str) r gs s :
  (forall a b, N (a ++ b) = N a ++ N b) ->
  (forall mo, hit_ok r mo ->
     N (concat (map (fun n => grp n mo) gs)) = N (m_text mo)) ->
  N (concat (re_split r gs s)) = N s.
Proof.
  intros HN Hg. unfold re_split. destruct (finditer_sound r s) as [E F].
  rewrite (split_pieces_hom N r gs HN Hg _ [] F). simpl. now rewrite E.
Qed.

Lemma concat_filter_nonempty (l : list str) :
  concat (filter (fun x => negb (str_eqb x [])) l) = concat l.
Proof.
  induction l as [|x l IH]; simpl; auto.
  destruct x; simpl; now rewrite IH.
Qed.

Lemma paren_split_concat s :
  concat (filter (fun x => negb (str_eqb x [])) (re_split re_paren [1%nat] s)) = s.
Proof.
  rewrite concat_filter_nonempty.
  apply (split_hom (fun x => x)); auto.
  intros [t g] (pre & suf & D). simpl in D. break;
    unfold grp, group_or_empty; simpl; reflexivity.
Qed.

Lemma paren_step_concat st bit :
  let '(c, _, blocks) := st in
  let '(c', _, blocks') := paren_step st bit in
  concat blocks' ++ c' = (concat blocks ++ c) ++ bit.
Proof.
  destruct st as [[c depth] blocks]. unfold paren_step.
  destruct (str_eqb bit []) eqn:E0.
  { apply str_eqb_eq in E0. subst. now rewrite app_nil_r. }
  destruct (str_eqb bit (s_ "(")) eqn:E1.
  { apply str_eqb_eq in E1. subst.
    destruct (depth + 1 =? 1)%Z.
    - now rewrite concat_app; simpl; rewrite app_nil_r.
    - now rewrite app_assoc. }
  destruct (str_eqb bit (s_ ")")) eqn:E2.
  { destruct (depth - 1 =? 0)%Z.
    - rewrite concat_app. simpl. now rewrite !app_nil_r, app_assoc.
    - now rewrite app_assoc. }
  now rewrite app_assoc.
Qed.

Lemma paren_fold_concat : forall aus st,
  let '(c, _, blocks) := st in
  let '(c', _, blocks') := fold_left paren_step aus st in
  concat blocks' ++ c' = (concat blocks ++ c) ++ concat aus.
Proof.
  induction aus as [|bit aus IH]; intros [[c d] blocks]; cbn [fold_left concat].
  - now rewrite app_nil_r.
  - pose proof (paren_step_concat (c, d, blocks) bit) as H.
    destruct (paren_step (c, d, blocks) bit) as [[c1 d1] b1].
    specialize (IH (c1, d1, b1)).
    destruct (fold_left paren_step aus (c1, d1, b1)) as [[c2 d2] b2].
    rewrite IH, H. now rewrite <- !app_assoc.
Qed.

(** The blocks of a line, put together, are the line. *)
Lemma paren_blocks_concat authors : concat (paren_blocks authors) = authors.
Proof.
  unfold paren_blocks.
  pose proof (paren_split_concat authors) as E.
  set (aus := filter _ (re_split re_paren [1%nat] authors)) in *.
  assert (G : forall c d blocks,
    fold_left paren_step aus ([], 0%Z, []) = (c, d, blocks) ->
    concat (match c with [] => blocks | _ :: _ => blocks ++ [c] end) = authors).
  { intros c d blocks Hf. pose proof (paren_fold_concat aus ([], 0%Z, [])) as H.
    simpl in H. rewrite Hf, E in H. rewrite <- H.
    destruct c; [now rewrite app_nil_r|].
    rewrite concat_app. simpl. now rewrite app_nil_r. }
  destruct (fold_left paren_step aus ([], 0%Z, [])) as [[c d] blocks] eqn:Hf.
  specialize (G c d blocks eq_refl).
  destruct aus as [|a [|b aus']]; auto. simpl. apply app_nil_r.
Qed.

(** ** Sequences of patterns *)

Lemma m_seq_app ys k : forall xs pre suf g,
  m (seq (xs ++ ys)) pre suf g k
  = m (seq xs) pre suf g (fun p s g' => m (seq ys) p s g' k).
Proof.
  induction xs as [|x xs IH]; intros pre suf g; [reflexivity|].
  destruct xs as [|x' xs].
  - destruct ys as [|y ys]; [|reflexivity]. simpl. now apply m_ext.
  - change (m x pre suf g (fun p s g' => m (seq ((x' :: xs) ++ ys)) p s g' k)
            = m x pre suf g (fun p s g' =>
                m (seq (x' :: xs)) p s g' (fun p s g' => m (seq ys) p s g' k))).
    apply m_ext. intros. apply IH.
Qed.

Lemma den_seq_app ys : forall xs pre t1 t2 suf g g1 g',
  den (seq xs) pre t1 (t2 ++ suf) g g1 ->
  den (seq ys) (rev t1 ++ pre) t2 suf g1 g' ->
  den (seq (xs ++ ys)) pre (t1 ++ t2) suf g g'.
Proof.
  induction xs as [|x xs IH]; intros pre t1 t2 suf g g1 g' D1 D2.
  - simpl in D1. destruct D1 as [-> ->]. exact D2.
  - apply den_seq_cons in D1. destruct D1 as (u1 & u2 & h & -> & Dx & Dxs).
    change ((x :: xs) ++ ys) with (x :: (xs ++ ys)). apply den_seq_cons.
    exists u1, (u2 ++ t2), h. rewrite <- !app_assoc in *. repeat split; auto.
    apply (IH _ _ _ _ _ g1); auto. now rewrite rev_app_distr, <- app_assoc in D2.
Qed.

(** ** The leftmost match *)

Lemma search_from_spec r : forall suf pre mo,
  search_from r pre suf = Some mo ->
  exists a b, suf = a ++ b /\ match_at r (rev a ++ pre) b = Some mo
    /\ forall a' b', suf = a' ++ b' -> (length a' < length a)%nat ->
         match_at r (rev a' ++ pre) b' = None.
Proof.
  induction suf as [|c suf IH]; intros pre mo H; simpl in H.
  - destruct (match_at r pre []) eqn:E; [|discriminate]. injection H as ->.
    exists [], []. repeat split; auto. simpl. intros; lia.
  - destruct (match_at r pre (c :: suf)) eqn:E.
    + injection H as ->. exists [], (c :: suf). repeat split; auto.
      simpl. intros; lia.
    + apply IH in H. destruct H as (a & b & -> & Hm & Hl).
      exists (c :: a), b. simpl. rewrite <- app_assoc. repeat split; auto.
      intros [|c' a'] b' Hs Hlen; simpl in *.
      * now subst b'.
      * injection Hs as <- Hs. rewrite <- app_assoc. apply Hl; auto. lia.
Qed.

Lemma search_from_complete r : forall a b pre,
  match_at r (rev a ++ pre) b <> None -> search_from r pre (a ++ b) <> None.
Proof.
  induction a as [|c a IH]; intros b pre H; simpl in *.
  - destruct b; simpl; destruct (match_at r pre _); congruence.
  - destruct (match_at r pre (c :: a ++ b)); [discriminate|].
    apply IH. now rewrite <- app_assoc in H.
Qed.

(** ** A name and the places where it stands *)

Lemma den_escaped_loose : forall name pre t suf g g',
  den (seq (escaped_name name)) pre t suf g g' -> loose name t /\ g' = g.
Proof.
  induction name as [|c name IH]; intros pre t suf g g' D.
  - simpl in D. simpl. tauto.
  - unfold escaped_name in D. cbn [map] in D. apply den_seq_cons in D.
    destruct D as (t1 & t2 & g1 & -> & D1 & D2).
    apply IH in D2. destruct D2 as [L ->]. simpl.
    destruct (c =? 32); simpl in D1.
    + destruct D1 as [W ->]. split; [exists t1, t2; auto | reflexivity].
    + destruct D1 as (x & -> & Hx & ->).
      split; [exists x, t2; auto | reflexivity].
Qed.

Lemma loose_den_escaped : forall name pre t suf g,
  loose name t -> den (seq (escaped_name name)) pre t suf g g.
Proof.
  induction name as [|c name IH]; intros pre t suf g L.
  - simpl in *. auto.
  - unfold escaped_name. cbn [map]. apply den_seq_cons. simpl in L.
    destruct (c =? 32).
    + destruct L as (w & o & -> & W & L). exists w, o, g. simpl. auto.
    + destruct L as (x & o & -> & Hx & L). exists [x], o, g. simpl.
      repeat split; eauto.
Qed.

Lemma namerex_match_at name pre b mo :
  match_at (namerex name) pre b = Some mo ->
  exists occ w content rest,
    b = occ ++ w ++ [40] ++ content ++ rest
    /\ loose name occ /\ forallb is_space w = true
    /\ content <> [] /\ forallb not_paren content = true
    /\ stops not_paren rest /\ grp 1 mo = content.
Proof.
  unfold match_at, namerex.
  destruct (m _ pre b [] final) as [res|] eqn:H; [|discriminate].
  intros [= <-]. rewrite m_seq_app in H. apply m_sound in H.
  destruct H as (occ & s1 & g1 & -> & D & H).
  apply den_escaped_loose in D. destruct D as [L ->].
  cbn [seq m] in H. apply star_sound in H.
  destruct H as (w & s2 & -> & W & H).
  destruct s2 as [|c s2]; [discriminate|].
  destruct (chr 40 c) eqn:Hc; [|discriminate]. apply N.eqb_eq in Hc. subst c.
  unfold Plus in H. cbn [m] in H.
  destruct s2 as [|x s2]; [discriminate|].
  destruct (none_of (s_ "()") x) eqn:Hx; [|discriminate].
  destruct (span_run (none_of (s_ "()")) s2) as (u & rest & -> & U & S).
  match type of H with
  | star ?p ?pre1 _ ?g1 ?k = _ =>
      pose proof (star_max p k _ u rest pre1 g1 U S eq_refl) as E
  end.
  rewrite E in H. clear E. injection H as <-. exists occ, w, (x :: u), rest.
  repeat split; auto; try discriminate.
  - simpl. unfold not_paren. now rewrite Hx, U.
  - unfold to_match, grp, group_or_empty. cbn [m_groups group Nat.eqb].
    change (rev u ++ x :: 40 :: rev w ++ rev occ ++ pre)
      with (rev u ++ [x] ++ 40 :: rev w ++ rev occ ++ pre).
    rewrite app_assoc. change (rev u ++ [x]) with (rev (x :: u)).
    apply consumed_text.
Qed.

Lemma namerex_complete name pre occ w c rest :
  loose name occ -> forallb is_space w = true -> not_paren c = true ->
  match_at (namerex name) pre (occ ++ w ++ 40 :: c :: rest) <> None.
Proof.
  intros L W Hc. unfold match_at.
  assert (H : m (namerex name) pre ((occ ++ w ++ [40; c]) ++ rest) [] final <> None).
  { apply (m_complete _ _ _ _ _ [(1%nat, [c])]); [|discriminate].
    unfold namerex. apply (den_seq_app _ _ _ _ _ _ _ []).
    - now apply loose_den_escaped.
    - cbn [seq]. exists w, [40; c], []. simpl. repeat split; auto.
      exists [40], [c], []. simpl. repeat split; eauto.
      exists []. split; auto. exists [c], [], []. simpl. repeat split; eauto. }
  rewrite <- !app_assoc in H. simpl in H.
  destruct (m (namerex name) pre _ [] final); [discriminate | congruence].
Qed.

(** ** What is appended for the content of the parenthesis *)

Lemma lookup_all_keyed enumaffils labels :
  lookup_all enumaffils labels = flat_map (keyed enumaffils) labels.
Proof.
  induction labels as [|l labels IH]; [reflexivity|]. simpl. unfold keyed.
  destruct (dict_get enumaffils l); simpl; now rewrite IH.
Qed.

Lemma str_split_aux_run sep : forall l cur rest,
  ~ In sep l ->
  str_split_aux sep cur (l ++ rest) = str_split_aux sep (rev l ++ cur) rest.
Proof.
  induction l as [|c l IH]; intros cur rest H; [reflexivity|]. simpl.
  destruct (N.eqb_spec c sep) as [->|_]; [exfalso; apply H; now left|].
  rewrite IH, <- app_assoc; [reflexivity|]. intros Hi. apply H. now right.
Qed.

Lemma str_split_join : forall labels cur,
  Forall (fun l => ~ In 44 l) labels ->
  str_split_aux 44 cur (join_commas labels)
  = match labels with
    | [] => [rev cur]
    | l :: ls => (rev cur ++ l) :: ls
    end.
Proof.
  induction labels as [|l ls IH]; intros cur H; [reflexivity|].
  inversion H as [|? ? Hl Hls]; subst. cbn [join_commas].
  destruct ls as [|l' ls].
  - rewrite <- (app_nil_r l) at 1. rewrite str_split_aux_run by exact Hl.
    simpl. now rewrite rev_app_distr, rev_involutive.
  - rewrite str_split_aux_run by exact Hl. cbn [str_split_aux].
    rewrite N.eqb_refl, (IH [] Hls), rev_app_distr, rev_involutive.
    reflexivity.
Qed.

Lemma digit_not_comma c : is_digit c = true -> c <> 44.
Proof. intros H ->. discriminate H. Qed.

Lemma digit_not_slash c : is_digit c = true -> c <> 47.
Proof. intros H ->. discriminate H. Qed.

Lemma digits_without (x : char) l :
  (forall c, is_digit c = true -> c <> x) ->
  forallb is_digit l = true -> ~ In x l.
Proof.
  intros Hx H Hi. rewrite forallb_forall in H. apply (Hx x); auto.
Qed.

Lemma join_commas_chars : forall labels,
  Forall (fun l => forallb is_digit l = true) labels ->
  forallb (either is_digit (chr 44)) (join_commas labels) = true.
Proof.
  induction labels as [|l ls IH]; intros H; [reflexivity|].
  inversion H as [|? ? Hl Hls]; subst. specialize (IH Hls).
  assert (G : forallb (either is_digit (chr 44)) l = true).
  { rewrite forallb_forall in *. intros c Hc. unfold either.
    now rewrite (Hl c Hc). }
  cbn [join_commas]. destruct ls as [|l' ls]; [exact G|].
  rewrite forallb_app, G. simpl in *. exact IH.
Qed.

Lemma and_slash_hit mo :
  hit_ok re_and_slash mo -> exists a, m_text mo = a ++ [47; 44].
Proof.
  destruct mo as [t g]. intros (pre & suf & D). simpl in D. break;
    cbn [m_text].
  - now exists [38].
  - match goal with |- exists a, ?u ++ _ = _ => exists u end. reflexivity.
Qed.

Lemma has_slash_comma_at : forall a b, has_slash_comma (a ++ 47 :: 44 :: b) = true.
Proof.
  induction a as [|c a IH]; intros b; [reflexivity|]. simpl.
  rewrite IH. apply orb_true_r.
Qed.

Lemma and_slash_nothing f t :
  has_slash_comma t = false -> re_sub re_and_slash f t = t.
Proof.
  intros H. apply sub_all_gaps.
  destruct (finditer_sound re_and_slash t) as [E F]. rewrite <- E in H.
  clear E. change (pieces_text (re_finditer re_and_slash t))
    with ([] ++ pieces_text (re_finditer re_and_slash t)) in H.
  revert H. generalize (@nil char).
  induction F as [|[c|mo] ps Hp F IH]; intros pre H; simpl in *; auto.
  - apply (IH (pre ++ [c])). now rewrite <- app_assoc.
  - exfalso. destruct (and_slash_hit mo Hp) as [a Ea].
    unfold pieces_text in H. simpl in H. rewrite Ea in H.
    rewrite <- !app_assoc, app_assoc in H. simpl in H.
    now rewrite has_slash_comma_at in H.
Qed.

Lemma has_slash_comma_without t : ~ In 47 t -> has_slash_comma t = false.
Proof.
  induction t as [|c t IH]; intros H; [reflexivity|]. simpl.
  destruct (N.eqb_spec c 47) as [->|_]; [exfalso; apply H; now left|].
  simpl. apply IH. intros Hi. apply H. now right.
Qed.

Lemma enum_refs_match t :
  t <> [] ->
  forallb (either is_digit (either (chr 44) is_space)) t = true ->
  matches re_enum_refs t = true.
Proof.
  intros Hn H. destruct t as [|c t]; [congruence|]. simpl in H.
  apply andb_true_iff in H. destruct H as [Hc Ht].
  unfold matches, re_match, match_at, re_enum_refs, Plus. cbn [seq m].
  rewrite Hc.
  rewrite <- (app_nil_r t).
  erewrite star_max; [reflexivity | exact Ht | exact I | reflexivity].
Qed.

Lemma enum_refs_chars t :
  matches re_enum_refs t = true ->
  forallb (either is_digit (either (chr 44) is_space)) t = true.
Proof.
  unfold matches. destruct (re_match re_enum_refs t) as [mo|] eqn:E;
    [intros _|discriminate].
  apply match_at_sound in E. destruct E as (suf & -> & D).
  destruct mo as [u g]. cbn [m_text m_groups] in *. simpl in D. break;
    rewrite ?app_nil_r; simpl; rewrite ?forallb_app;
    repeat match goal with H : _ = true |- _ => rewrite H end; reflexivity.
Qed.

Lemma free_text_not_enum t :
  existsb (neg reference_char) t = true -> matches re_enum_refs t = false.
Proof.
  intros H. destruct (matches re_enum_refs t) eqn:E; [|reflexivity].
  apply enum_refs_chars in E. apply existsb_exists in H.
  destruct H as (c & Hc & Hn). rewrite forallb_forall in E.
  specialize (E c Hc). unfold neg, reference_char in Hn.
  unfold either, chr in E.
  destruct (is_digit c); [discriminate|]. destruct (c =? 44); [discriminate|].
  destruct (is_space c); [discriminate|]. discriminate.
Qed.

(** The two ways in which [_add_affiliation] reads the content that it
    found. *)
Lemma add_affiliation_labels author_line enumaffils author_entry name mo labels :
  re_search (namerex name) author_line = Some mo ->
  lstrip (rstrip (grp 1 mo)) = join_commas labels ->
  lstrip (rstrip (grp 1 mo)) <> [] ->
  Forall (fun l => forallb is_digit l = true) labels ->
  _add_affiliation author_line enumaffils author_entry name
  = author_entry ++ flat_map (keyed enumaffils) labels.
Proof.
  intros Hs E Hn Hl. unfold _add_affiliation. rewrite Hs. cbv zeta.
  pose proof (join_commas_chars labels Hl) as Hc. rewrite <- E in Hc.
  assert (H47 : ~ In 47 (lstrip (rstrip (grp 1 mo)))).
  { intros Hi. rewrite forallb_forall in Hc. specialize (Hc 47 Hi).
    unfold either, chr in Hc. simpl in Hc. discriminate. }
  rewrite and_slash_nothing by now apply has_slash_comma_without.
  rewrite enum_refs_match.
  - rewrite lookup_all_keyed, E. unfold str_split. rewrite str_split_join.
    + destruct labels as [|l ls]; [|reflexivity]. simpl in E. congruence.
    + eapply Forall_impl; [|exact Hl]. intros l H.
      apply digits_without; [exact digit_not_comma | exact H].
  - exact Hn.
  - rewrite forallb_forall in *. intros c Hi. specialize (Hc c Hi).
    unfold either in *. destruct (is_digit c); [reflexivity|]. simpl in *.
    now rewrite Hc.
Qed.

Lemma add_affiliation_free_text author_line enumaffils author_entry name mo :
  re_search (namerex name) author_line = Some mo ->
  free_text (lstrip (rstrip (grp 1 mo))) = true ->
  _add_affiliation author_line enumaffils author_entry name
  = author_entry ++ [lstrip (rstrip (grp 1 mo))].
Proof.
  intros Hs H. unfold free_text in H. apply andb_true_iff in H.
  destruct H as [H1 H2]. apply negb_true_iff in H2.
  unfold _add_affiliation. rewrite Hs. cbv zeta.
  rewrite and_slash_nothing by exact H2.
  now rewrite free_text_not_enum.
Qed.

(** * More on the parser *)

(** ** The loop of [_collaboration_at_start], by cases *)



(** ** Three fields and the affiliations *)










(** ** Back propagation *)







(** ** Tokens *)






(** ** Lines without an opening parenthesis *)








(** * A line that begins with a word *)

(** ** The characters of a word *)

Lemma alpha_range x :
  name_char x = true -> 65 <= x <= 90 \/ 97 <= x <= 122 \/ 128 <= x.
Proof.
  unfold name_char, is_alpha_ascii, either, is_upper_ascii, is_lower_ascii,
    in_range.
  intros H. apply orb_true_iff in H. destruct H as [H|H].
  - apply orb_true_iff in H.
    destruct H as [H|H]; apply andb_true_iff in H; destruct H as [H1 H2];
      apply N.leb_le in H1, H2; lia.
  - apply andb_true_iff in H. destruct H as [H _].
    apply negb_true_iff, N.ltb_ge in H. lia.
Qed.

Lemma alpha_neq x (c : char) :
  name_char x = true -> (c < 65 \/ 90 < c < 97 \/ 122 < c < 128) ->
  (x =? c) = false.
Proof. intros H Hc. apply alpha_range in H. apply N.eqb_neq. lia. Qed.

Lemma alpha_not_space x : name_char x = true -> is_space x = false.
Proof.
  intros H. destruct (is_space x) eqn:S; [|reflexivity]. exfalso.
  unfold name_char in H. rewrite S, andb_false_r, orb_false_r in H.
  unfold is_alpha_ascii, either, is_upper_ascii, is_lower_ascii, in_range in H.
  apply orb_true_iff in H.
  assert (R : 65 <= x <= 90 \/ 97 <= x <= 122).
  { destruct H as [H|H]; apply andb_true_iff in H; destruct H as [H1 H2];
      apply N.leb_le in H1, H2; lia. }
  clear H. revert S. unfold is_space, in_range.
  repeat match goal with
  | |- context [?a <=? ?b] => destruct (N.leb_spec a b); try lia
  | |- context [?a =? ?b] => destruct (N.eqb_spec a b); try lia
  end; simpl; discriminate.
Qed.

Lemma begins_with_prefix (g x : str) :
  stops name_char (g ++ x) -> stops name_char g.
Proof. destruct g; simpl; auto. Qed.

(** ** A scan over characters at which the pattern does not match *)

Lemma scan_gaps_run r (P : cclass) :
  (forall pre x suf, P x = true -> match_at r pre (x :: suf) = None) ->
  forall w pre rest, forallb P w = true ->
    scan r pre (w ++ rest) 0 = map Gap w ++ scan r (rev w ++ pre) rest 0.
Proof.
  intros Hr. induction w as [|x w IH]; intros pre rest Hw; [reflexivity|].
  simpl in Hw. apply andb_true_iff in Hw. destruct Hw as [Hx Hw].
  cbn [app map]. rewrite scan_gap by now apply Hr.
  rewrite IH by exact Hw. cbn [rev]. now rewrite <- app_assoc.
Qed.

(** How a scan begins. *)
Lemma scan_head r pre suf :
  scan r pre suf 0 = []
  \/ (exists c suf' ps, suf = c :: suf' /\ scan r pre suf 0 = Gap c :: ps)
  \/ (exists mo ps, scan r pre suf 0 = Hit mo :: ps).
Proof.
  destruct suf as [|c suf]; simpl; unfold hits_here;
    destruct (match_at r pre _) as [mo|] eqn:E.
  - right. right. destruct (m_text mo); [destruct (match_at_adv r pre [])|];
      simpl; eauto.
  - now left.
  - right. right.
    destruct (m_text mo);
      [destruct (match_at_adv r pre (c :: suf)) as [mo'|];
         [destruct (length (m_text mo'))|]|];
      simpl; eauto.
  - right. left. simpl. eauto.
Qed.

(** [re.sub] keeps a word at which the pattern does not match, and what it
    writes after the word begins with no letter when no replacement does. *)
Lemma sub_begins_with r f w s :
  (forall pre x suf, name_char x = true -> match_at r pre (x :: suf) = None) ->
  (forall mo, stops name_char (f mo) /\ f mo <> []) ->
  forallb name_char w = true ->
  begins_with w s -> begins_with w (re_sub r f s).
Proof.
  intros Hr Hf Hw (rest & -> & Hs). unfold re_sub, re_finditer.
  rewrite (scan_gaps_run r name_char Hr) by exact Hw.
  rewrite map_app, concat_app, map_map.
  replace (concat (map (fun x => [x]) w)) with w
    by (clear; induction w; simpl; congruence).
  eexists. split; [reflexivity|].
  destruct (scan_head r (rev w ++ []) rest) as [E|[(c & suf' & ps & -> & E)|(mo & ps & E)]];
    rewrite E; simpl; auto.
  destruct (Hf mo) as [H1 H2]. destruct (f mo); [congruence | exact H1].
Qed.

Lemma split_pieces_head gs : forall ps cur,
  exists g more, split_pieces gs cur ps = (rev cur ++ g) :: more
    /\ match g with
       | [] => True
       | c :: _ => exists ps', ps = Gap c :: ps'
       end.
Proof.
  induction ps as [|[c|mo] ps IH]; intros cur; simpl.
  - exists [], []. now rewrite app_nil_r.
  - destruct (IH (c :: cur)) as (g & more & E & _). rewrite E.
    exists (c :: g), more. simpl. rewrite <- app_assoc. split; eauto.
  - exists [], (map (fun n => grp n mo) gs ++ split_pieces gs [] ps).
    now rewrite app_nil_r.
Qed.

(** [re.split] begins with a text that begins with the word. *)
Lemma split_begins_with r gs w s :
  (forall pre x suf, name_char x = true -> match_at r pre (x :: suf) = None) ->
  forallb name_char w = true ->
  begins_with w s ->
  exists first more, re_split r gs s = first :: more /\ begins_with w first.
Proof.
  intros Hr Hw (rest & -> & Hs). unfold re_split, re_finditer.
  rewrite (scan_gaps_run r name_char Hr) by exact Hw.
  assert (G : forall cur ps,
    split_pieces gs cur (map Gap w ++ ps) = split_pieces gs (rev w ++ cur) ps).
  { clear. induction w as [|x w IH]; intros cur ps; [reflexivity|].
    simpl. rewrite IH, <- app_assoc. reflexivity. }
  rewrite G.
  destruct (split_pieces_head gs (scan r (rev w ++ []) rest 0) (rev w ++ []))
    as (g & more & E & Hg).
  rewrite E. exists (rev (rev w ++ []) ++ g), more. split; [reflexivity|].
  rewrite app_nil_r, rev_involutive. exists g. split; [reflexivity|].
  destruct g as [|c g]; simpl; auto. destruct Hg as (ps' & Hp).
  destruct (scan_head r (rev w ++ []) rest) as [E'|[(c' & suf' & ps & -> & E')|(mo & ps & E')]];
    rewrite E' in Hp; try discriminate.
  injection Hp as -> _. exact Hs.
Qed.

(** ** The patterns of the tokenizer do not match at a letter *)

Ltac at_letter H :=
  intros; unfold match_at; cbn [m seq Plus];
  unfold chr; cbn [m];
  rewrite ?(alpha_not_space _ H), ?(alpha_neq _ 40 H), ?(alpha_neq _ 41 H),
    ?(alpha_neq _ 44 H), ?(alpha_neq _ 46 H), ?(alpha_neq _ 58 H) by lia;
  try reflexivity.

Lemma paren_at_letter pre x suf :
  name_char x = true -> match_at re_paren pre (x :: suf) = None.
Proof. intros H. unfold re_paren. at_letter H. Qed.

Lemma spaces_at_letter pre x suf :
  name_char x = true -> match_at re_spaces pre (x :: suf) = None.
Proof. intros H. unfold re_spaces. at_letter H. Qed.

Lemma and_at_letter pre x suf :
  name_char x = true -> match_at re_and pre (x :: suf) = None.
Proof. intros H. unfold re_and. at_letter H. Qed.

Lemma comma_at_letter pre x suf :
  name_char x = true -> match_at re_comma pre (x :: suf) = None.
Proof. intros H. unfold re_comma. at_letter H. Qed.

Lemma two_spaces_at_letter pre x suf :
  name_char x = true -> match_at re_two_spaces pre (x :: suf) = None.
Proof. intros H. unfold re_two_spaces. at_letter H. Qed.

Lemma dot_nonspace_at_letter pre x suf :
  name_char x = true -> match_at re_dot_nonspace pre (x :: suf) = None.
Proof.
  intros H. unfold re_dot_nonspace. at_letter H.
  destruct pre as [|c pre]; [|destruct (c =? 92)]; at_letter H.
Qed.

(** ** The first block and the first token *)

Lemma paren_step_front st bit : exists y, front (paren_step st bit) = front st ++ y.
Proof.
  destruct st as [[c depth] blocks]. unfold paren_step.
  destruct (str_eqb bit []); [exists []; now rewrite app_nil_r|].
  destruct (str_eqb bit (s_ "(")).
  { destruct (depth + 1 =? 1)%Z; destruct blocks; simpl;
      eexists; try reflexivity; now rewrite app_nil_r. }
  destruct (str_eqb bit (s_ ")")).
  { destruct (depth - 1 =? 0)%Z; destruct blocks; simpl;
      eexists; try reflexivity; now rewrite app_nil_r. }
  destruct blocks; simpl; eexists; try reflexivity; now rewrite app_nil_r.
Qed.

Lemma paren_fold_front : forall aus st,
  exists y, front (fold_left paren_step aus st) = front st ++ y.
Proof.
  induction aus as [|bit aus IH]; intros st; simpl.
  - exists []. now rewrite app_nil_r.
  - destruct (IH (paren_step st bit)) as [y Ey].
    destruct (paren_step_front st bit) as [z Ez].
    rewrite Ey, Ez. exists (z ++ y). now rewrite app_assoc.
Qed.

Lemma paren_blocks_begins w s :
  w <> [] -> forallb name_char w = true -> begins_with w s ->
  exists b tail, paren_blocks s = b :: tail /\ begins_with w b.
Proof.
  intros Hn Hw Hb.
  assert (G : exists b tail x, paren_blocks s = b :: tail /\ b = w ++ x).
  { destruct (split_begins_with re_paren [1%nat] w s paren_at_letter Hw Hb)
      as (first & more & E & (g & -> & Hg)).
    unfold paren_blocks. rewrite E.
    destruct w as [|x w]; [congruence|]. cbn [filter app str_eqb negb].
    destruct (filter _ more) as [|bit aus] eqn:F.
    - destruct Hb as (rest & -> & _). now exists ((x :: w) ++ rest), [], rest.
    - set (b1 := x :: w ++ g).
      assert (S1 : paren_step ([], 0%Z, []) b1 = (b1, 0%Z, [])).
      { unfold paren_step, b1. simpl.
        rewrite (alpha_neq x 40), (alpha_neq x 41); try lia; auto;
          simpl in Hw; apply andb_true_iff in Hw; tauto. }
      remember (bit :: aus) as aus' eqn:Ea. clear Ea.
      change (x :: w ++ g) with b1. cbn [fold_left]. rewrite S1.
      destruct (paren_fold_front aus' (b1, 0%Z, [])) as [y Ey].
      destruct (fold_left paren_step aus' (b1, 0%Z, []))
        as [[c d] blocks]. simpl in Ey.
      destruct blocks as [|b blocks].
      + subst c. unfold b1. simpl. exists (x :: (w ++ g) ++ y), [], (g ++ y).
        split; [reflexivity | now rewrite <- app_assoc].
      + subst b. unfold b1.
        destruct c; [exists (x :: (w ++ g) ++ y), blocks, (g ++ y)
                    | eexists (x :: (w ++ g) ++ y), _, (g ++ y)];
          (split; [reflexivity | simpl; now rewrite <- app_assoc]). }
  destruct G as (b & tail & x & E & ->). exists (w ++ x), tail.
  split; [exact E|]. exists x. split; [reflexivity|].
  pose proof (paren_blocks_concat s) as C. rewrite E in C.
  destruct Hb as (rest & -> & Hs). simpl in C. rewrite <- app_assoc in C.
  apply app_inv_head in C. subst rest. now apply begins_with_prefix in Hs.
Qed.

Lemma lstrip_begins w s :
  w <> [] -> forallb name_char w = true -> begins_with w s -> lstrip s = s.
Proof.
  intros Hn Hw (rest & -> & _). destruct w as [|x w]; [congruence|].
  simpl in *. apply andb_true_iff in Hw. destruct Hw as [Hx _].
  now rewrite (alpha_not_space x Hx).
Qed.

Lemma lstrip_suffix s : exists ws, s = ws ++ lstrip s /\ forallb is_space ws = true.
Proof.
  induction s as [|c s (ws & E & H)]; [now exists []|]. simpl.
  destruct (is_space c) eqn:Hc.
  - exists (c :: ws). simpl. rewrite Hc, H. now rewrite <- E.
  - now exists [].
Qed.

Lemma rstrip_prefix s : exists ws, s = rstrip s ++ ws /\ forallb is_space ws = true.
Proof.
  unfold rstrip. destruct (lstrip_suffix (rev s)) as (ws & E & H).
  exists (rev ws). split.
  - rewrite <- rev_app_distr, <- E. now rewrite rev_involutive.
  - rewrite forallb_forall in *. intros c Hc. apply H. now apply in_rev.
Qed.

Lemma rstrip_begins w s :
  forallb name_char w = true -> begins_with w s -> begins_with w (rstrip s).
Proof.
  intros Hw (rest & -> & Hs). destruct (rstrip_prefix (w ++ rest)) as (ws & E & H).
  apply app_eq_app in E. destruct E as (l & [[E1 E2]|[E1 E2]]).
  - (* the word ends in whitespace: it does not *)
    destruct l as [|c l].
    + rewrite app_nil_r in E1. rewrite <- E1. exists []. split; [now rewrite app_nil_r | exact I].
    + exfalso. subst ws. simpl in H. apply andb_true_iff in H. destruct H as [Hc _].
      rewrite forallb_forall in Hw.
      assert (Hi : In c w) by (rewrite E1; apply in_or_app; right; now left).
      specialize (Hw c Hi). now rewrite (alpha_not_space c Hw) in Hc.
  - rewrite E1. exists l. split; [reflexivity|]. subst rest.
    now apply begins_with_prefix in Hs.
Qed.

Lemma begins_with_nonempty w s : w <> [] -> begins_with w s -> s <> [].
Proof. intros Hn (rest & -> & _). destruct w; [congruence | discriminate]. Qed.

Lemma begins_with_first w s :
  w <> [] -> forallb name_char w = true -> begins_with w s ->
  exists x s', s = x :: s' /\ name_char x = true.
Proof.
  intros Hn Hw (rest & -> & _). destruct w as [|x w]; [congruence|].
  simpl in Hw. apply andb_true_iff in Hw. exists x, (w ++ rest). tauto.
Qed.

Lemma block_tokens_begins w b :
  w <> [] -> forallb name_char w = true -> begins_with w b ->
  exists tok toks, block_tokens b = tok :: toks /\ begins_with w tok.
Proof.
  intros Hn Hw Hb. unfold block_tokens.
  assert (H1 : begins_with w (re_sub re_spaces (fun _ => s_ " ") b)).
  { apply sub_begins_with; auto using spaces_at_letter.
    intros mo. split; [reflexivity | discriminate]. }
  set (block := re_sub re_spaces _ b) in *.
  destruct (begins_with_first w block Hn Hw H1) as (x & s' & Ex & Hx).
  assert (Hc : matches re_comment block = false).
  { rewrite Ex. unfold matches, re_match, match_at, re_comment, chr. cbn [m].
    now rewrite (alpha_neq x 40 Hx) by lia. }
  rewrite Hc.
  assert (H2 : begins_with w (re_sub re_and (fun _ => s_ ",") block)).
  { apply sub_begins_with; auto using and_at_letter.
    intros mo. split; [reflexivity | discriminate]. }
  destruct (split_begins_with re_comma [1%nat] w _ comma_at_letter Hw H2)
    as (first & more & E & Hf).
  rewrite E. cbn [block_names].
  pose proof (rstrip_begins w first Hw Hf) as H3.
  pose proof (lstrip_begins w _ Hn Hw H3) as H4.
  destruct first as [|c first]; [now apply begins_with_nonempty in Hf|].
  rewrite H4. destruct (rstrip (c :: first)) as [|d l] eqn:R;
    [now apply begins_with_nonempty in H3|].
  eauto.
Qed.

(** ** Recombination keeps the first token's beginning *)

Lemma recombine_first tok toks :
  exists e more, recombine (tok :: toks) = (tok ++ e) :: more
    /\ match e with [] => True | c :: _ => c = 44 end.
Proof.
  unfold recombine. simpl.
  assert (G : forall l parts top e,
    parts = top ++ [tok ++ e] ->
    match e with [] => True | c :: _ => c = 44 end ->
    exists top' e', fold_left recombine_step l parts = top' ++ [tok ++ e']
      /\ match e' with [] => True | c :: _ => c = 44 end).
  { induction l as [|p l IH]; intros parts top e -> He; simpl.
    - eauto.
    - unfold recombine_step at 2.
      destruct top as [|separator [|last top]].
      + simpl. apply (IH _ [p] e); auto.
      + simpl.
        destruct (matches re_suffix p && str_eqb separator (s_ ",")
                  && negb (matches re_closed (tok ++ e))) eqn:C.
        * apply andb_true_iff in C. destruct C as [C _].
          apply andb_true_iff in C. destruct C as [_ C].
          apply str_eqb_eq in C. subst separator.
          apply (IH _ [] (e ++ s_ "," ++ s_ " " ++ p)).
          -- simpl. now rewrite <- app_assoc.
          -- destruct e; simpl; auto.
        * apply (IH _ [p; separator] e); auto.
      + cbn [app].
        destruct (matches re_suffix p && str_eqb separator (s_ ",")
                  && negb (matches re_closed last)).
        * apply (IH _ ((last ++ separator ++ s_ " " ++ p) :: top) e); auto.
        * apply (IH _ (p :: separator :: last :: top) e); auto. }
  destruct (G toks [tok] [] []) as (top' & e' & E & He).
  - now rewrite app_nil_r.
  - exact I.
  - rewrite E, rev_app_distr. simpl. eauto.
Qed.

Lemma begins_with_comma w tok e :
  begins_with w tok ->
  match e with [] => True | c :: _ => c = 44 end ->
  begins_with w (tok ++ e).
Proof.
  intros (rest & -> & Hs) He. exists (rest ++ e). rewrite <- app_assoc.
  split; [reflexivity|]. destruct rest; [|exact Hs].
  destruct e; simpl; auto. subst. reflexivity.
Qed.

(** The first token of a line that begins with a word begins with it. *)
Lemma split_authors_begins w s :
  w <> [] -> forallb name_char w = true -> begins_with w s ->
  exists tok toks, split_authors s = tok :: toks /\ begins_with w tok.
Proof.
  intros Hn Hw Hb. unfold split_authors.
  destruct s as [|c s]; [now apply begins_with_nonempty in Hb|].
  destruct (paren_blocks_begins w _ Hn Hw Hb) as (b & tail & E & Hb1).
  rewrite E. cbn [flat_map].
  destruct (block_tokens_begins w b Hn Hw Hb1) as (tok & toks & Et & Ht).
  rewrite Et. cbn [app].
  destruct (recombine_first tok (toks ++ flat_map block_tokens tail))
    as (e & more & Er & He).
  rewrite Er. exists (tok ++ e), more. split; [reflexivity|].
  now apply begins_with_comma.
Qed.

Lemma tidy_name_begins w tok :
  forallb name_char w = true -> begins_with w tok ->
  begins_with w (_tidy_name tok).
Proof.
  intros Hw H. unfold _tidy_name.
  apply sub_begins_with; auto using dot_nonspace_at_letter.
  - intros mo. split; [reflexivity | discriminate].
  - apply sub_begins_with; auto using two_spaces_at_letter.
    intros mo. split; [reflexivity | discriminate].
Qed.

(** ** The et-al pattern and the first word *)

Lemma et_al_hit mo :
  hit_ok re_et_al mo ->
  exists ws a b c rest,
    m_text mo = ws ++ a :: b :: c :: rest
    /\ forallb is_space ws = true
    /\ chr_i 101 a = true /\ chr_i 116 b = true
    /\ (c = 46 \/ is_space c = true).
Proof.
  destruct mo as [t g]. intros (pre & suf & D). cbn [m_text m_groups] in D.
  unfold re_et_al in D.
  apply den_seq_cons in D. destruct D as (t1 & t2 & g1 & -> & D1 & D).
  apply den_seq_cons in D. destruct D as (ws & t3 & g2 & -> & D2 & D).
  apply den_seq_cons in D. destruct D as (et & t4 & g3 & -> & D3 & D).
  apply den_seq_cons in D. destruct D as (dot' & t5 & g4 & -> & D4 & D).
  apply den_seq_cons in D. destruct D as (sp & t6 & g5 & -> & D5 & _).
  simpl in D1, D2, D3, D4, D5. break; cbn [m_text app].
  - eexists _, _, _, 46, _. repeat split; eauto.
  - eexists _, _, _, _, _. repeat split; eauto.
Qed.

Lemma chr_i_e a : chr_i 101 a = true -> a = 101 \/ a = 69.
Proof.
  unfold chr_i. simpl. rewrite !orb_false_r. intros H.
  apply orb_true_iff in H. destruct H as [H|H]; apply N.eqb_eq in H; auto.
Qed.

Lemma chr_i_t b : chr_i 116 b = true -> b = 116 \/ b = 84.
Proof.
  unfold chr_i. simpl. rewrite !orb_false_r. intros H.
  apply orb_true_iff in H. destruct H as [H|H]; apply N.eqb_eq in H; auto.
Qed.

Lemma et_al_begins w s :
  w <> [] -> forallb name_char w = true -> begins_with w s ->
  is_et w = false -> matches re_et_al s = false.
Proof.
  intros Hn Hw (rest & -> & Hs) He.
  destruct (matches re_et_al (w ++ rest)) eqn:M; [exfalso|reflexivity].
  unfold matches in M. destruct (re_match re_et_al (w ++ rest)) as [mo|] eqn:E;
    [clear M|discriminate].
  destruct (match_prefix _ _ _ E) as [s' Es].
  apply match_sound, et_al_hit in E.
  destruct E as (ws & a & b & c & r & Et & Hws & Ha & Hb & Hc).
  rewrite Et in Es. clear Et.
  destruct w as [|x w]; [congruence|]. simpl in Hw.
  apply andb_true_iff in Hw. destruct Hw as [Hx Hw].
  destruct ws as [|y ws].
  2:{ simpl in Es, Hws. injection Es as <- _.
      rewrite (alpha_not_space x Hx) in Hws. discriminate. }
  simpl in Es. injection Es as <- Es.
  assert (Hc' : name_char c = false).
  { destruct Hc as [->|Hc]; [reflexivity|].
    destruct (name_char c) eqn:A; [|reflexivity].
    now rewrite (alpha_not_space c A) in Hc. }
  assert (Hb' : name_char b = true)
    by (apply chr_i_t in Hb; destruct Hb; subst; reflexivity).
  destruct w as [|y w].
  { simpl in Es. subst rest. simpl in Hs. congruence. }
  simpl in Es, Hw. injection Es as <- Es.
  apply andb_true_iff in Hw. destruct Hw as [_ Hw].
  destruct w as [|z w].
  - apply chr_i_e in Ha. apply chr_i_t in Hb.
    destruct Ha, Hb; subst; discriminate He.
  - simpl in Es, Hw. injection Es as <- _.
    apply andb_true_iff in Hw. destruct Hw as [Hz _]. congruence.
Qed.

(** A line that begins with a word other than [et] has a token that gives an
    entry. *)
Lemma first_word_token w rest :
  w <> [] -> forallb name_char w = true -> stops name_char rest ->
  is_et w = false ->
  existsb is_author_token (split_authors (w ++ rest)) = true.
Proof.
  intros Hn Hw Hs He.
  destruct (split_authors_begins w (w ++ rest) Hn Hw) as (tok & toks & E & Ht).
  { now exists rest. }
  rewrite E. cbn [existsb]. apply orb_true_iff. left. unfold is_author_token.
  rewrite (et_al_begins w (_tidy_name tok)); auto using tidy_name_begins.
  destruct (begins_with_first w tok Hn Hw Ht) as (x & s' & -> & Hx).
  unfold matches, re_match, match_at, re_name_start, none_of. cbn [m].
  simpl. now rewrite (alpha_neq x 93 Hx), (alpha_neq x 40 Hx), (alpha_neq x 44 Hx) by lia.
Qed.

(** * The tokens and the line, blank for blank *)

(** ** A reading of a text that keeps the blanks inside names

    Whitespace is dropped at both ends and beside a comma, a colon or a
    parenthesis; any other run of whitespace is one blank. *)

Lemma norm_from_app : forall a b st,
  norm_from st (a ++ b) = norm_from st a ++ norm_from (norm_state st a) b.
Proof.
  induction a as [|c a IH]; intros b st; [reflexivity|]. simpl.
  rewrite IH, <- app_assoc. reflexivity.
Qed.

Lemma norm_state_app a b st :
  norm_state st (a ++ b) = norm_state (norm_state st a) b.
Proof. apply fold_left_app. Qed.

Lemma reads_like_refl s : reads_like s s.
Proof. now intros st. Qed.

Lemma reads_like_trans s t u : reads_like s t -> reads_like t u -> reads_like s u.
Proof.
  intros H1 H2 st. destruct (H1 st) as [A B], (H2 st) as [C D].
  split; congruence.
Qed.

Lemma reads_like_app a a' b b' :
  reads_like a a' -> reads_like b b' -> reads_like (a ++ b) (a' ++ b').
Proof.
  intros Ha Hb st. rewrite !norm_from_app, !norm_state_app.
  destruct (Ha st) as [A B]. rewrite A, B.
  destruct (Hb (norm_state st a')) as [C D]. now rewrite C, D.
Qed.

(** ** Whitespace *)

Lemma norm_spaces : forall w st,
  forallb is_space w = true ->
  norm_from st w = []
  /\ norm_state st w = match w with [] => st | _ :: _ => rest_state st end.
Proof.
  induction w as [|c w IH]; intros st H; [now split|]. simpl in H.
  apply andb_true_iff in H. destruct H as [Hc Hw].
  destruct (IH (nstep st c) Hw) as [A B].
  cbn [norm_from]. unfold norm_state in *. cbn [fold_left]. rewrite A, B.
  unfold nout, nstep. rewrite Hc. split; [reflexivity|].
  destruct w; destruct st; reflexivity.
Qed.

Lemma spaces_read_like w :
  w <> [] -> forallb is_space w = true -> reads_like (s_ " ") w.
Proof.
  intros Hn Hw st. destruct (norm_spaces w st Hw) as [A B]. rewrite A, B.
  destruct w; [congruence|]. now destruct st.
Qed.

Lemma delim_not_space c : is_delim c = true -> is_space c = false.
Proof.
  unfold is_delim, one_of. simpl. rewrite orb_false_r. intros H.
  repeat (apply orb_true_iff in H; destruct H as [H|H]);
    apply N.eqb_eq in H; subst; reflexivity.
Qed.

(** A delimiter reads alike after a name and after the blank behind it. *)
Lemma norm_delim c s st st' :
  is_delim c = true -> settle st = settle st' ->
  norm_from st (c :: s) = norm_from st' (c :: s)
  /\ norm_state st (c :: s) = norm_state st' (c :: s).
Proof.
  intros Hc Hs. unfold norm_state. cbn [norm_from fold_left].
  unfold nout, nstep. rewrite (delim_not_space c Hc), Hc. now split.
Qed.

Lemma norm_state_closed s c st :
  is_delim c = true -> norm_state st (s ++ [c]) = AfterDelim.
Proof.
  intros Hc. rewrite norm_state_app. unfold norm_state. simpl.
  unfold nstep. now rewrite (delim_not_space c Hc), Hc.
Qed.

Lemma settle_delim st : settle st = AfterDelim -> st = AfterDelim.
Proof. destruct st; simpl; congruence. Qed.

(** ** Stripping *)

Lemma agree_lstrip s : 
  norm_from AfterDelim (lstrip s) = norm_from AfterDelim s
  /\ norm_state AfterDelim (lstrip s) = norm_state AfterDelim s.
Proof.
  destruct (lstrip_suffix s) as (ws & E & H). rewrite E at 2 4.
  rewrite norm_from_app, norm_state_app.
  destruct (norm_spaces ws AfterDelim H) as [A B]. rewrite A, B.
  destruct ws; now split.
Qed.

Lemma agree_rstrip s st : agree st (rstrip s) s.
Proof.
  destruct (rstrip_prefix s) as (ws & E & H). unfold agree. rewrite E at 2 4.
  rewrite norm_from_app, norm_state_app.
  destruct (norm_spaces ws (norm_state st (rstrip s)) H) as [A B].
  rewrite A, B, app_nil_r. split; [reflexivity|].
  destruct ws; [reflexivity|]. now destruct (norm_state st (rstrip s)).
Qed.

Lemma agree_strip s : agree AfterDelim (lstrip (rstrip s)) s.
Proof.
  destruct (agree_lstrip (rstrip s)) as [A B].
  destruct (agree_rstrip s AfterDelim) as [C D].
  unfold agree. now rewrite A, B.
Qed.

(** ** The steps of the tokenizer under the reading *)

(** [re.sub] with replacements that read like the matches. *)
Lemma sub_reads_like r f s :
  (forall mo, hit_ok r mo -> reads_like (f mo) (m_text mo)) ->
  reads_like (re_sub r f s) s.
Proof.
  intros Hf. destruct (finditer_sound r s) as [E F]. rewrite <- E at 2.
  clear E. unfold re_sub, pieces_text.
  induction F as [|[c|mo] ps Hp F IH]; cbn [map concat piece_text].
  - apply reads_like_refl.
  - apply reads_like_app; [apply reads_like_refl | exact IH].
  - apply reads_like_app; [apply Hf, Hp | exact IH].
Qed.

Lemma spaces_hit_run mo :
  hit_ok re_spaces mo -> m_text mo <> [] /\ forallb is_space (m_text mo) = true.
Proof.
  destruct mo as [t g]. intros (pre & suf & D). simpl in D. break.
  cbn [m_text]. split; [discriminate|]. simpl.
  repeat match goal with H : _ = true |- _ => rewrite H end. reflexivity.
Qed.

Lemma collapse_reads_like b :
  reads_like (re_sub re_spaces (fun _ => s_ " ") b) b.
Proof.
  apply sub_reads_like. intros mo H. apply spaces_hit_run in H.
  now apply spaces_read_like.
Qed.

Lemma comma_hit_shape mo :
  hit_ok re_comma mo ->
  exists d ws, m_text mo = d :: ws /\ grp 1 mo = [d] /\ is_delim d = true
               /\ forallb is_space ws = true.
Proof.
  destruct mo as [t g]. intros (pre & suf & D). simpl in D. break;
    cbn [m_text]; unfold grp, group_or_empty; simpl;
    eexists _, _; repeat split; eauto.
Qed.

Lemma block_names_cons x names :
  concat (block_names (x :: names))
  = lstrip (rstrip x) ++ concat (block_names names).
Proof.
  cbn [block_names]. destruct x as [|c x]; [reflexivity|].
  destruct (lstrip (rstrip (c :: x))); reflexivity.
Qed.

Lemma lstrip_nonspace c s : is_space c = false -> lstrip (c :: s) = c :: s.
Proof. intros H. simpl. now rewrite H. Qed.

Lemma strip_delim d : is_delim d = true -> lstrip (rstrip [d]) = [d].
Proof.
  intros H. apply delim_not_space in H. unfold rstrip. simpl. rewrite H.
  simpl. now rewrite H.
Qed.

Lemma norm_cons_delim st d y :
  is_delim d = true ->
  norm_from st (d :: y) = d :: norm_from AfterDelim y
  /\ norm_state st (d :: y) = norm_state AfterDelim y.
Proof.
  intros Hd. unfold norm_state. cbn [norm_from fold_left].
  unfold nout, nstep. rewrite (delim_not_space d Hd), Hd. now split.
Qed.

Lemma norm_lead_spaces ws y :
  forallb is_space ws = true ->
  norm_from AfterDelim (ws ++ y) = norm_from AfterDelim y
  /\ norm_state AfterDelim (ws ++ y) = norm_state AfterDelim y.
Proof.
  intros H. rewrite norm_from_app, norm_state_app.
  destruct (norm_spaces ws AfterDelim H) as [A B]. rewrite A, B.
  destruct ws; now split.
Qed.

Lemma agree_join st s x d ws t o :
  agree st s x -> is_delim d = true -> forallb is_space ws = true ->
  agree AfterDelim t o ->
  agree st (s ++ d :: t) (x ++ (d :: ws) ++ o).
Proof.
  intros [A B] Hd Hw [C D]. unfold agree.
  cbn [app].
  rewrite (norm_from_app s), (norm_from_app x), (norm_state_app s),
    (norm_state_app x).
  destruct (norm_cons_delim (norm_state st s) d t Hd) as [P Q].
  destruct (norm_cons_delim (norm_state st x) d (ws ++ o) Hd) as [P' Q'].
  destruct (norm_lead_spaces ws o Hw) as [R S].
  rewrite P, Q, P', Q', R, S, A, C, D. now split.
Qed.

(** The names of a block, put together, read like the block from a
    delimiter on. *)
Lemma names_agree : forall ps cur,
  Forall (piece_ok re_comma) ps ->
  agree AfterDelim (concat (block_names (split_pieces [1%nat] cur ps)))
                   (rev cur ++ pieces_text ps).
Proof.
  induction ps as [|[c|mo] ps IH]; intros cur F; cbn [split_pieces].
  - rewrite block_names_cons. unfold pieces_text. simpl.
    rewrite !app_nil_r. apply agree_strip.
  - inversion F; subst. specialize (IH (c :: cur)). unfold pieces_text in *.
    simpl in *. rewrite <- app_assoc in IH. now apply IH.
  - inversion F as [|? ? Hm F']; subst.
    destruct (comma_hit_shape mo Hm) as (d & ws & Et & Eg & Hd & Hw).
    cbn [map app]. rewrite Eg, !block_names_cons, (strip_delim d Hd).
    unfold pieces_text. cbn [map concat piece_text]. rewrite Et.
    fold (pieces_text ps). cbn [app].
    apply agree_join; auto using agree_strip; apply (IH [] F').
Qed.

Lemma comment_open b' :
  matches re_comment (re_sub re_spaces (fun _ => s_ " ") (40 :: b')) = true.
Proof. rewrite sub_spaces_collapse. reflexivity. Qed.

Lemma comment_not_open b :
  match b with c :: _ => (c =? 40) = false | [] => True end ->
  matches re_comment (re_sub re_spaces (fun _ => s_ " ") b) = false.
Proof.
  rewrite sub_spaces_collapse. destruct b as [|c b]; [reflexivity|].
  intros H. unfold collapse_spaces. simpl.
  destruct (is_space c); unfold matches, re_match, match_at, re_comment, chr;
    cbn [m]; [reflexivity | now rewrite H].
Qed.

(** A comment reads like its block; the names of a name block without
    connective read like the block from a delimiter on. *)
Lemma comment_tokens_read_like b' :
  reads_like (concat (block_tokens (40 :: b'))) (40 :: b').
Proof.
  unfold block_tokens. rewrite comment_open. cbn [concat].
  rewrite app_nil_r. apply collapse_reads_like.
Qed.

Lemma name_tokens_agree b :
  match b with c :: _ => (c =? 40) = false | [] => True end ->
  re_search re_and (re_sub re_spaces (fun _ => s_ " ") b) = None ->
  agree AfterDelim (concat (block_tokens b)) b.
Proof.
  intros Hb Hs. unfold block_tokens. rewrite (comment_not_open b Hb).
  rewrite (search_none_sub _ _ _ Hs). unfold re_split.
  set (block := re_sub re_spaces _ b) in *.
  destruct (finditer_sound re_comma block) as [E F].
  pose proof (names_agree _ [] F) as [A B]. simpl in A, B.
  rewrite E in A, B. destruct (collapse_reads_like b AfterDelim) as [C D].
  fold block in C, D. unfold agree. now rewrite A, B, C, D.
Qed.

(** ** Where two blocks meet

    A block other than the first begins with an opening parenthesis, or the
    block before it ends with a closing one. *)

Lemma glued_from_app : forall blocks closed c,
  glued_from closed (blocks ++ [c])
  = glued_from closed blocks && (last_closed closed blocks || starts_open c).
Proof.
  induction blocks as [|b tl IH]; intros closed c; simpl.
  - now rewrite andb_true_r.
  - now rewrite IH, andb_assoc.
Qed.

Lemma last_closed_app : forall blocks closed c,
  last_closed closed (blocks ++ [c]) = ends_closed c.
Proof. induction blocks as [|b tl IH]; intros closed c; simpl; auto. Qed.

Lemma starts_open_app c x : starts_open c = true -> starts_open (c ++ x) = true.
Proof. destruct c; simpl; auto. discriminate. Qed.

Lemma ends_closed_app c : ends_closed (c ++ s_ ")") = true.
Proof. unfold ends_closed. now rewrite rev_app_distr. Qed.

Lemma ends_closed_shape b : ends_closed b = true -> exists s, b = s ++ [41].
Proof.
  unfold ends_closed. destruct (rev b) as [|c r] eqn:E; [discriminate|].
  intros H. apply N.eqb_eq in H. subst c. exists (rev r).
  rewrite <- (rev_involutive b), E. reflexivity.
Qed.

Lemma meets_grow c d d' blocks x :
  meets (c, d, blocks) -> meets (c ++ x, d', blocks).
Proof.
  intros [G L]. split; [exact G|]. apply orb_true_iff in L.
  apply orb_true_iff. destruct L as [L|L]; [now left|right].
  now apply starts_open_app.
Qed.

Lemma paren_step_meets st bit : meets st -> meets (paren_step st bit).
Proof.
  destruct st as [[c depth] blocks]. intros H. unfold paren_step.
  destruct (str_eqb bit []); [exact H|].
  destruct (str_eqb bit (s_ "(")) eqn:E1.
  { destruct (depth + 1 =? 1)%Z; [|now apply (meets_grow c depth)].
    destruct H as [G L]. split.
    - now rewrite glued_from_app, G, L.
    - apply orb_true_r. }
  destruct (str_eqb bit (s_ ")")) eqn:E2.
  { apply str_eqb_eq in E2. subst bit.
    destruct (depth - 1 =? 0)%Z; [|now apply (meets_grow c depth)].
    destruct (meets_grow c depth depth blocks (s_ ")") H) as [G L]. split.
    - now rewrite glued_from_app, G, L.
    - now rewrite last_closed_app, ends_closed_app. }
  now apply (meets_grow c depth).
Qed.

Lemma paren_fold_meets : forall aus st,
  meets st -> meets (fold_left paren_step aus st).
Proof.
  induction aus as [|bit aus IH]; intros st H; simpl; auto.
  apply IH. now apply paren_step_meets.
Qed.

Lemma paren_blocks_glued authors : glued_from true (paren_blocks authors) = true.
Proof.
  unfold paren_blocks.
  set (aus := filter _ (re_split re_paren [1%nat] authors)).
  assert (G : forall c d blocks,
    fold_left paren_step aus ([], 0%Z, []) = (c, d, blocks) ->
    glued_from true (match c with [] => blocks | _ :: _ => blocks ++ [c] end)
    = true).
  { intros c d blocks Hf.
    pose proof (paren_fold_meets aus ([], 0%Z, []) (conj eq_refl eq_refl)) as H.
    rewrite Hf in H. destruct H as [H L]. destruct c; [exact H|].
    now rewrite glued_from_app, H, L. }
  destruct (fold_left paren_step aus ([], 0%Z, [])) as [[c d] blocks] eqn:Hf.
  specialize (G c d blocks eq_refl).
  destruct aus as [|a [|b aus']]; auto.
Qed.

(** ** The tokens of all blocks *)

Lemma comment_block_reads_like (b : str) :
  starts_open b = true -> reads_like (concat (block_tokens b)) b.
Proof.
  destruct b as [|c b']; [discriminate|]. simpl. intros H.
  apply N.eqb_eq in H. subst c. apply comment_tokens_read_like.
Qed.

Lemma norm_open (b : str) st st' :
  starts_open b = true -> settle st = settle st' ->
  norm_from st b = norm_from st' b /\ norm_state st b = norm_state st' b.
Proof.
  destruct b as [|c b']; [discriminate|]. simpl. intros H.
  apply N.eqb_eq in H. subst c. now apply norm_delim.
Qed.

Lemma blocks_agree : forall blocks closed st_t st_o,
  settle st_t = settle st_o -> (closed = true -> st_o = AfterDelim) ->
  glued_from closed blocks = true ->
  forallb (fun b =>
             let block := re_sub re_spaces (fun _ => s_ " ") b in
             matches re_comment block
             || match re_search re_and block with
                | None => true
                | Some _ => false
                end) blocks = true ->
  norm_from st_t (concat (flat_map block_tokens blocks))
  = norm_from st_o (concat blocks)
  /\ settle (norm_state st_t (concat (flat_map block_tokens blocks)))
     = settle (norm_state st_o (concat blocks)).
Proof.
  induction blocks as [|b tl IH]; intros closed st_t st_o Hs Hc G H.
  - simpl. now split.
  - cbn [flat_map concat glued_from forallb] in *.
    apply andb_true_iff in G. destruct G as [G1 G2].
    apply andb_true_iff in H. destruct H as [H1 H2].
    rewrite concat_app, !norm_from_app, !norm_state_app.
    destruct (starts_open b) eqn:O.
    + destruct (comment_block_reads_like b O st_t) as [A B].
      destruct (norm_open b st_t st_o O Hs) as [C D].
      rewrite A, B, C, D.
      destruct (IH (ends_closed b) (norm_state st_o b)
                   (norm_state st_o b) eq_refl) as [P Q]; auto.
      * intros E. apply ends_closed_shape in E. destruct E as [s ->].
        now apply norm_state_closed.
      * now rewrite P, Q.
    + rewrite orb_false_r in G1. subst closed. rewrite (Hc eq_refl) in *.
      apply settle_delim in Hs. subst st_t.
      assert (Hb : match b with c :: _ => (c =? 40) = false | [] => True end)
        by (destruct b; [exact I | exact O]).
      cbv zeta in H1. rewrite (comment_not_open b Hb) in H1. simpl in H1.
      destruct (re_search re_and _) eqn:S; [discriminate|].
      destruct (name_tokens_agree b Hb S) as [A B]. rewrite A.
      destruct (IH (ends_closed b) (norm_state AfterDelim (concat (block_tokens b)))
                   (norm_state AfterDelim b) B) as [P Q]; auto.
      * intros E. apply ends_closed_shape in E. destruct E as [s ->].
        now apply norm_state_closed.
      * now rewrite P, Q.
Qed.

(** ** Recombining suffixes *)

Lemma comma_blank_reads_like (p : str) :
  reads_like (s_ "," ++ s_ " " ++ p) (s_ "," ++ p).
Proof. intros st. destruct st; split; reflexivity. Qed.

Lemma recombine_step_reads_like parts p :
  reads_like (concat (rev (recombine_step parts p))) (concat (rev parts) ++ p).
Proof.
  assert (G : forall l, concat (rev (p :: l)) = concat (rev l) ++ p).
  { intros l. simpl. rewrite concat_app. simpl. now rewrite app_nil_r. }
  unfold recombine_step.
  destruct parts as [|separator [|last parts']];
    try (rewrite G; apply reads_like_refl).
  destruct (matches re_suffix p && str_eqb separator (s_ ",")
            && negb (matches re_closed last)) eqn:C;
    [|rewrite G; apply reads_like_refl].
  apply andb_true_iff in C. destruct C as [C _].
  apply andb_true_iff in C. destruct C as [_ C]. apply str_eqb_eq in C.
  subst separator. cbn [rev]. rewrite !concat_app. cbn [concat].
  rewrite !app_nil_r, <- !app_assoc.
  apply reads_like_app; [apply reads_like_refl|].
  apply reads_like_app; [apply reads_like_refl|].
  apply comma_blank_reads_like.
Qed.

Lemma recombine_reads_like listx :
  reads_like (concat (recombine listx)) (concat listx).
Proof.
  unfold recombine.
  assert (G : forall l parts,
    reads_like (concat (rev (fold_left recombine_step l parts)))
               (concat (rev parts) ++ concat l)).
  { induction l as [|p l IH]; intros parts; simpl.
    - rewrite app_nil_r. apply reads_like_refl.
    - eapply reads_like_trans; [apply IH|]. rewrite app_assoc.
      apply reads_like_app; [apply recombine_step_reads_like|].
      apply reads_like_refl. }
  apply (G listx []).
Qed.

(** The tokens of a line without connective, put together, read like the
    line. *)
Lemma split_authors_normalize authors :
  no_connective authors = true ->
  normalize (concat (split_authors authors)) = normalize authors.
Proof.
  intros H. unfold split_authors.
  destruct authors as [|c l] eqn:E; [reflexivity|]. rewrite <- E in *.
  unfold normalize.
  rewrite (proj1 (recombine_reads_like _ AfterDelim)).
  destruct (blocks_agree (paren_blocks authors) true AfterDelim AfterDelim
              eq_refl (fun _ => eq_refl) (paren_blocks_glued authors) H)
    as [A _].
  now rewrite A, paren_blocks_concat.
Qed.

(** The reading drops whitespace and nothing else. *)
Lemma norm_from_keeps : forall s st, remove_ws (norm_from st s) = remove_ws s.
Proof.
  induction s as [|c s IH]; intros st; [reflexivity|].
  cbn [norm_from]. rewrite remove_ws_app, IH. unfold nout, remove_ws.
  cbn [filter]. unfold not_space, neg.
  destruct (is_space c) eqn:Hc; [reflexivity|].
  destruct (is_delim c); [|destruct st]; cbn [filter app]; rewrite ?Hc;
    reflexivity.
Qed.

(** * A word after a comma or a colon *)

(** ** A scan comes by a separator that no match runs over *)

Lemma hit_stops_before (Q : cclass) (text suf' a y : str) (q : char) :
  text ++ suf' = a ++ q :: y -> a <> [] -> Q q = true ->
  match text with [] => True | _ :: t => forallb (neg Q) t = true end ->
  (length text <= length a)%nat.
Proof.
  intros E Ha Hq Ht. apply app_eq_app in E.
  destruct E as (l & [[E1 E2]|[E1 E2]]).
  - destruct l as [|q' l].
    + rewrite app_nil_r in E1. subst. lia.
    + exfalso. simpl in E2. injection E2 as <- _. subst text.
      destruct a as [|c a]; [congruence|]. simpl in Ht.
      rewrite forallb_app in Ht. apply andb_true_iff in Ht.
      destruct Ht as [_ Ht]. simpl in Ht. unfold neg in Ht at 1.
      rewrite Hq in Ht. discriminate.
  - subst a. rewrite length_app. lia.
Qed.

Lemma hits_here_bound r (Q : cclass) pre (a y : str) (q : char) :
  (forall mo, hit_ok r mo ->
     match m_text mo with [] => True | _ :: t => forallb (neg Q) t = true end) ->
  a <> [] -> Q q = true ->
  (snd (hits_here r pre (a ++ q :: y)) <= length a)%nat.
Proof.
  intros Hr Ha Hq. unfold hits_here.
  destruct (match_at r pre (a ++ q :: y)) as [mo|] eqn:E; [|simpl; lia].
  pose proof E as E'. apply match_at_sound in E'.
  destruct E' as (suf' & Es & D).
  assert (Hm : hit_ok r mo) by now exists pre, suf'.
  pose proof (Hr mo Hm) as Hb.
  pose proof (hit_stops_before Q (m_text mo) suf' a y q (eq_sym Es) Ha Hq Hb) as B.
  destruct (m_text mo) as [|d t] eqn:T; [|exact B].
  destruct (match_at_adv r pre (a ++ q :: y)) as [mo'|] eqn:A; [|simpl; lia].
  apply match_at_adv_sound in A. destruct A as (suf2 & Es2 & _ & D2).
  assert (Hm' : hit_ok r mo') by now exists pre, suf2.
  cbn [snd].
  exact (hit_stops_before Q (m_text mo') suf2 a y q (eq_sym Es2) Ha Hq (Hr mo' Hm')).
Qed.

Lemma scan_resync r (Q : cclass) :
  (forall mo, hit_ok r mo ->
     match m_text mo with [] => True | _ :: t => forallb (neg Q) t = true end) ->
  forall (a : str) pre skip (q : char) (y : str),
    Q q = true -> (skip <= length a)%nat ->
    exists ps, scan r pre (a ++ q :: y) skip
               = ps ++ scan r (rev a ++ pre) (q :: y) 0.
Proof.
  intros Hr. induction a as [|c a IH]; intros pre skip q y Hq Hk.
  - simpl in Hk. replace skip with 0%nat by lia. now exists [].
  - destruct skip as [|n].
    + pose proof (hits_here_bound r Q pre (c :: a) y q Hr ltac:(discriminate) Hq) as B.
      cbn [app scan] in *.
      destruct (hits_here r pre (c :: a ++ q :: y)) as [hs n] eqn:H.
      cbn [snd length] in B. destruct n as [|n'].
      * destruct (IH (c :: pre) 0%nat q y Hq ltac:(lia)) as [ps E].
        rewrite E. exists (hs ++ Gap c :: ps). cbn [rev].
        now rewrite <- !app_assoc.
      * destruct (IH (c :: pre) n' q y Hq ltac:(lia)) as [ps E].
        rewrite E. exists (hs ++ ps). cbn [rev]. now rewrite <- !app_assoc.
    + cbn [app scan]. simpl in Hk.
      destruct (IH (c :: pre) n q y Hq ltac:(lia)) as [ps E].
      rewrite E. exists ps. cbn [rev]. now rewrite <- !app_assoc.
Qed.

(** Gaps over whitespace before which the pattern does not match, whatever
    part of the whitespace is left. *)
Lemma scan_gaps_spaces r (t : str) :
  (forall pre ws, forallb is_space ws = true -> ws <> [] ->
                  match_at r pre (ws ++ t) = None) ->
  forall ws pre, forallb is_space ws = true ->
    scan r pre (ws ++ t) 0 = map Gap ws ++ scan r (rev ws ++ pre) t 0.
Proof.
  intros Hr. induction ws as [|c ws IH]; intros pre Hw; [reflexivity|].
  pose proof (Hr pre (c :: ws) Hw ltac:(discriminate)) as N.
  simpl in Hw. apply andb_true_iff in Hw. destruct Hw as [_ Hw].
  cbn [app map] in *. rewrite scan_gap by exact N.
  rewrite IH by exact Hw. cbn [rev]. now rewrite <- app_assoc.
Qed.

(** ** The first block of a line that begins without parenthesis *)

Lemma not_paren_neq c : not_paren c = true -> (c =? 40) = false /\ (c =? 41) = false.
Proof.
  unfold not_paren, none_of. simpl. rewrite orb_false_r. intros H.
  apply negb_true_iff, orb_false_iff in H. exact H.
Qed.

Lemma paren_at_char pre x suf :
  not_paren x = true -> match_at re_paren pre (x :: suf) = None.
Proof.
  intros H. destruct (not_paren_neq x H) as [H1 H2].
  unfold match_at, re_paren, chr. cbn [m]. now rewrite H1, H2.
Qed.

Lemma split_keeps_prefix r gs (C : cclass) (p rest : str) :
  (forall pre x suf, C x = true -> match_at r pre (x :: suf) = None) ->
  forallb C p = true ->
  exists (g : str) (more : list str), re_split r gs (p ++ rest) = (p ++ g) :: more.
Proof.
  intros Hr Hp. unfold re_split, re_finditer.
  rewrite (scan_gaps_run r C Hr) by exact Hp.
  assert (G : forall cur ps,
    split_pieces gs cur (map Gap p ++ ps) = split_pieces gs (rev p ++ cur) ps).
  { clear. induction p as [|x p IH]; intros cur ps; [reflexivity|].
    simpl. rewrite IH, <- app_assoc. reflexivity. }
  rewrite G.
  destruct (split_pieces_head gs (scan r (rev p ++ []) rest 0) (rev p ++ []))
    as (g & more & E & _).
  rewrite E, app_nil_r, rev_involutive. eauto.
Qed.

Lemma paren_blocks_prefix (p rest : str) :
  p <> [] -> forallb not_paren p = true ->
  exists (x : str) (tail : list str) (y : str),
    paren_blocks (p ++ rest) = (p ++ x) :: tail /\ rest = x ++ y.
Proof.
  intros Hn Hp.
  assert (G : exists (b : str) (tail : list str) (x : str),
             paren_blocks (p ++ rest) = b :: tail /\ b = p ++ x).
  { destruct (split_keeps_prefix re_paren [1%nat] not_paren p rest paren_at_char Hp)
      as (g & more & E).
    unfold paren_blocks. rewrite E.
    destruct p as [|c p]; [congruence|]. cbn [filter app str_eqb negb].
    destruct (filter _ more) as [|bit aus] eqn:F.
    - now exists ((c :: p) ++ rest), [], rest.
    - set (b1 := c :: p ++ g).
      assert (S1 : paren_step ([], 0%Z, []) b1 = (b1, 0%Z, [])).
      { simpl in Hp. apply andb_true_iff in Hp. destruct Hp as [Hc _].
        destruct (not_paren_neq c Hc) as [H1 H2].
        unfold paren_step, b1. simpl. now rewrite H1, H2. }
      remember (bit :: aus) as aus' eqn:Ea. clear Ea.
      change (c :: p ++ g) with b1. cbn [fold_left]. rewrite S1.
      destruct (paren_fold_front aus' (b1, 0%Z, [])) as [y Ey].
      destruct (fold_left paren_step aus' (b1, 0%Z, []))
        as [[c' d] blocks]. simpl in Ey.
      destruct blocks as [|b blocks].
      + subst c'. unfold b1. simpl. exists (c :: (p ++ g) ++ y), [], (g ++ y).
        split; [reflexivity | now rewrite <- app_assoc].
      + subst b. unfold b1.
        destruct c'; [exists (c :: (p ++ g) ++ y), blocks, (g ++ y)
                     | eexists (c :: (p ++ g) ++ y), _, (g ++ y)];
          (split; [reflexivity | simpl; now rewrite <- app_assoc]). }
  destruct G as (b & tail & x & E & ->).
  pose proof (paren_blocks_concat (p ++ rest)) as C. rewrite E in C.
  simpl in C. rewrite <- app_assoc in C. apply app_inv_head in C.
  exists x, tail, (concat tail). split; [exact E | now symmetry].
Qed.

(** ** The connective pattern near a word *)

Lemma sep_cases c : is_sep c = true -> c = 44 \/ c = 58.
Proof.
  unfold is_sep, one_of. simpl. rewrite orb_false_r. intros H.
  apply orb_true_iff in H. destruct H as [H|H]; apply N.eqb_eq in H; auto.
Qed.

Lemma space_not_sep c : is_space c = true -> is_sep c = false.
Proof.
  intros H. destruct (is_sep c) eqn:S; [|reflexivity].
  apply sep_cases in S. destruct S; subst; discriminate.
Qed.

Lemma and_hit_shape mo :
  hit_ok re_and mo ->
  exists o ss A s2,
    m_text mo = o ++ ss ++ A ++ [s2]
    /\ (o = [] \/ o = [44]) /\ ss <> [] /\ forallb is_space ss = true
    /\ (A = s_ "and" \/ A = [38]) /\ is_space s2 = true.
Proof.
  destruct mo as [t g]. intros (pre & suf & D). cbn [m_text m_groups] in D.
  unfold re_and in D.
  apply den_seq_cons in D. destruct D as (o & t2 & g1 & -> & D1 & D).
  apply den_seq_cons in D. destruct D as (ss & t3 & g2 & -> & D2 & D).
  apply den_seq_cons in D. destruct D as (A & t4 & g3 & -> & D3 & D).
  cbn [seq] in D. simpl in D1, D2, D3, D. cbn [m_text].
  destruct D as (s2 & -> & Hs2 & _).
  exists o, ss, A, s2. split; [reflexivity|].
  split; [destruct D1 as [(c & -> & Hc & _)|[-> _]];
          [apply N.eqb_eq in Hc; subst; now right | now left]|].
  destruct D2 as (t1 & t1' & g' & -> & (c & -> & Hc & _) & (Ht & _)).
  split; [discriminate|]. split; [simpl; now rewrite Hc, Ht|].
  split; [|exact Hs2].
  destruct D3 as (g'' & [D3|D3] & _).
  - left. break; reflexivity.
  - right. break; reflexivity.
Qed.

Lemma and_hit_tail mo :
  hit_ok re_and mo ->
  match m_text mo with [] => True | _ :: t => forallb (neg is_sep) t = true end.
Proof.
  intros H. destruct (and_hit_shape mo H)
    as (o & ss & A & s2 & -> & Ho & Hn & Hss & HA & Hs2).
  assert (G : forallb (neg is_sep) (ss ++ A ++ [s2]) = true).
  { rewrite !forallb_app. apply andb_true_iff. split.
    - rewrite forallb_forall in *. intros c Hc. unfold neg.
      now rewrite (space_not_sep c (Hss c Hc)).
    - apply andb_true_iff. split.
      + destruct HA as [->| ->]; reflexivity.
      + simpl. unfold neg. now rewrite (space_not_sep s2 Hs2). }
  destruct Ho as [-> | ->]; cbn [app].
  - destruct ss as [|c ss]; [congruence|]. cbn [app] in *. simpl in G.
    apply andb_true_iff in G. tauto.
  - exact G.
Qed.

(** Whitespace before a character that is none lines up. *)
Lemma spaces_align : forall (ws ss t u : str),
  ws ++ t = ss ++ u ->
  forallb is_space ws = true -> forallb is_space ss = true ->
  stops is_space t -> stops is_space u -> t <> [] -> u <> [] ->
  t = u.
Proof.
  induction ws as [|c ws IH]; intros ss t u E Hw Hs Ht Hu Nt Nu.
  - destruct ss as [|d ss]; [exact E|]. exfalso. simpl in E. subst t.
    simpl in Ht, Hs. apply andb_true_iff in Hs. destruct Hs as [Hd _].
    congruence.
  - simpl in Hw. apply andb_true_iff in Hw. destruct Hw as [Hc Hw].
    destruct ss as [|d ss].
    + exfalso. simpl in E. subst u. simpl in Hu. congruence.
    + simpl in E, Hs. injection E as <- E. apply andb_true_iff in Hs.
      destruct Hs as [_ Hs]. now apply (IH ss).
Qed.

(** A word before a character that is none lines up. *)
Lemma word_align : forall (w y u r : str) (s : char),
  w ++ y = u ++ s :: r ->
  forallb name_char w = true -> stops name_char y ->
  forallb name_char u = true -> name_char s = false ->
  w = u.
Proof.
  induction w as [|c w IH]; intros y u r s E Hw Hy Hu Hs.
  - destruct u as [|d u]; [reflexivity|]. exfalso. simpl in E. subst y.
    simpl in Hy, Hu. apply andb_true_iff in Hu. destruct Hu as [Hd _].
    congruence.
  - simpl in Hw. apply andb_true_iff in Hw. destruct Hw as [Hc Hw].
    destruct u as [|d u].
    + exfalso. simpl in E. injection E as -> _. congruence.
    + simpl in E, Hu. injection E as <- E. apply andb_true_iff in Hu.
      destruct Hu as [_ Hu]. f_equal. now apply (IH y u r s).
Qed.

Lemma space_not_name c : is_space c = true -> name_char c = false.
Proof.
  intros H. destruct (name_char c) eqn:N; [|reflexivity].
  now rewrite (alpha_not_space c N) in H.
Qed.

Lemma word_first (w : str) :
  w <> [] -> forallb name_char w = true ->
  exists c w', w = c :: w' /\ name_char c = true.
Proof.
  intros Hn Hw. destruct w as [|c w]; [congruence|]. simpl in Hw.
  apply andb_true_iff in Hw. exists c, w. tauto.
Qed.

(** After whitespace and before a word other than the connective, the
    connective pattern has nothing to read. *)
Lemma and_core (ws w y ss A suf' : str) (s2 : char) :
  ws ++ w ++ y = ss ++ A ++ [s2] ++ suf' ->
  forallb is_space ws = true -> w <> [] -> forallb name_char w = true ->
  stops name_char y -> str_eqb w (s_ "and") = false ->
  forallb is_space ss = true -> (A = s_ "and" \/ A = [38]) ->
  is_space s2 = true -> False.
Proof.
  intros E Hws Hn Hw Hy Ha Hss HA Hs2.
  destruct (word_first w Hn Hw) as (c & w' & -> & Hc).
  assert (T : (c :: w') ++ y = A ++ [s2] ++ suf').
  { apply (spaces_align ws ss); auto; try discriminate.
    - simpl. now apply alpha_not_space.
    - destruct HA as [-> | ->]; reflexivity.
    - destruct HA as [-> | ->]; discriminate. }
  destruct HA as [-> | ->].
  - assert (W : c :: w' = s_ "and").
    { apply (word_align _ y _ suf' s2); auto using space_not_name. }
    rewrite W in Ha. discriminate.
  - simpl in T. injection T as -> _. discriminate.
Qed.

Lemma and_none_spaces pre (ws w y : str) :
  forallb is_space ws = true -> w <> [] -> forallb name_char w = true ->
  stops name_char y -> str_eqb w (s_ "and") = false ->
  match_at re_and pre (ws ++ w ++ y) = None.
Proof.
  intros Hws Hn Hw Hy Ha.
  destruct (match_at re_and pre (ws ++ w ++ y)) as [mo|] eqn:E; [|reflexivity].
  exfalso. pose proof E as E'. apply match_at_sound in E'.
  destruct E' as (suf' & Es & D).
  assert (Hm : hit_ok re_and mo) by now exists pre, suf'.
  destruct (and_hit_shape mo Hm) as (o & ss & A & s2 & Et & Ho & _ & Hss & HA & Hs2).
  rewrite Et in Es. destruct Ho as [-> | ->].
  - simpl in Es. rewrite <- !app_assoc in Es.
    now apply (and_core ws w y ss A suf' s2).
  - destruct (word_first w Hn Hw) as (c & w' & -> & Hc).
    destruct ws as [|d ws]; simpl in Es; injection Es as -> _.
    + discriminate.
    + simpl in Hws. discriminate.
Qed.

Lemma and_none_sep pre (sep : char) (ws w y : str) :
  is_sep sep = true ->
  forallb is_space ws = true -> w <> [] -> forallb name_char w = true ->
  stops name_char y -> str_eqb w (s_ "and") = false ->
  match_at re_and pre (sep :: ws ++ w ++ y) = None.
Proof.
  intros Hsep Hws Hn Hw Hy Ha.
  destruct (match_at re_and pre (sep :: ws ++ w ++ y)) as [mo|] eqn:E;
    [|reflexivity].
  exfalso. pose proof E as E'. apply match_at_sound in E'.
  destruct E' as (suf' & Es & D).
  assert (Hm : hit_ok re_and mo) by now exists pre, suf'.
  destruct (and_hit_shape mo Hm) as (o & ss & A & s2 & Et & Ho & Hne & Hss & HA & Hs2).
  rewrite Et in Es. destruct Ho as [-> | ->].
  - destruct ss as [|d ss]; [congruence|]. simpl in Es. injection Es as <- _.
    simpl in Hss. apply andb_true_iff in Hss. destruct Hss as [Hd _].
    now rewrite (space_not_sep sep Hd) in Hsep.
  - simpl in Es. injection Es as _ Es. rewrite <- !app_assoc in Es.
    now apply (and_core ws w y ss A suf' s2).
Qed.

(** ** The tokens of a block that holds a word after a separator *)

Lemma collapse_from_at_nonspace : forall (a : str) st (q : char) (t : str),
  is_space q = false ->
  collapse_from st (a ++ q :: t) = collapse_from st a ++ q :: collapse_from false t.
Proof.
  induction a as [|c a IH]; intros st q t Hq; simpl.
  - now rewrite Hq.
  - destruct (is_space c); [destruct st|]; simpl; now rewrite IH.
Qed.

Lemma collapse_stops (x : str) :
  stops name_char x -> stops name_char (collapse_from false x).
Proof.
  destruct x as [|c x]; simpl; auto. intros H.
  destruct (is_space c); simpl; [reflexivity | exact H].
Qed.

Lemma word_not_space (w : str) :
  forallb name_char w = true -> forallb not_space w = true.
Proof.
  intros H. rewrite forallb_forall in *. intros c Hc. unfold not_space, neg.
  now rewrite (alpha_not_space c (H c Hc)).
Qed.

Lemma collapse_spaces_word (ws w x : str) :
  forallb is_space ws = true -> w <> [] -> forallb name_char w = true ->
  exists ws1, forallb is_space ws1 = true
    /\ collapse_from false (ws ++ w ++ x) = ws1 ++ w ++ collapse_from false x.
Proof.
  intros Hws Hn Hw. destruct ws as [|c ws].
  - exists []. split; [reflexivity|]. simpl.
    apply collapse_from_nonspace; auto using word_not_space.
  - exists [32]. split; [reflexivity|].
    destruct (collapse_from_run (c :: ws) (w ++ x) false Hws) as [_ E].
    rewrite E by discriminate. simpl. f_equal.
    apply collapse_from_nonspace; auto using word_not_space.
Qed.

Lemma concat_map_gaps (F : piece -> str) (l : str) :
  (forall c, F (Gap c) = [c]) -> concat (map F (map Gap l)) = l.
Proof.
  intros HF. induction l as [|c l IH]; simpl; [reflexivity|].
  now rewrite HF, IH.
Qed.

Lemma sub_tail_stops r (f : rmatch -> str) pre (y : str) :
  (forall mo, stops name_char (f mo) /\ f mo <> []) ->
  stops name_char y ->
  stops name_char
    (concat (map (fun p => match p with Gap c => [c] | Hit mo => f mo end)
                 (scan r pre y 0))).
Proof.
  intros Hf Hy.
  destruct (scan_head r pre y) as [E|[(c & suf' & ps & -> & E)|(mo & ps & E)]];
    rewrite E; simpl; auto.
  destruct (Hf mo) as [H1 H2]. destruct (f mo); [congruence | exact H1].
Qed.

Lemma split_pieces_gaps_then gs : forall (w : str) cur ps,
  split_pieces gs cur (map Gap w ++ ps) = split_pieces gs (rev w ++ cur) ps.
Proof.
  induction w as [|x w IH]; intros cur ps; [reflexivity|].
  simpl. rewrite IH, <- app_assoc. reflexivity.
Qed.

Lemma split_pieces_begins r gs (w y : str) pre :
  (forall pre x suf, name_char x = true -> match_at r pre (x :: suf) = None) ->
  forallb name_char w = true -> stops name_char y ->
  exists (e : str) (more : list str),
    split_pieces gs [] (scan r pre (w ++ y) 0) = e :: more /\ begins_with w e.
Proof.
  intros Hr Hw Hy. rewrite (scan_gaps_run r name_char Hr) by exact Hw.
  rewrite split_pieces_gaps_then.
  destruct (split_pieces_head gs (scan r (rev w ++ pre) y 0) (rev w ++ []))
    as (g & more & E & Hg).
  rewrite E. exists (rev (rev w ++ []) ++ g), more. split; [reflexivity|].
  rewrite app_nil_r, rev_involutive. exists g. split; [reflexivity|].
  destruct g as [|c g]; simpl; auto. destruct Hg as (ps' & Hp).
  destruct (scan_head r (rev w ++ pre) y)
    as [E'|[(c' & suf' & ps & -> & E')|(mo & ps & E')]];
    rewrite E' in Hp; try discriminate.
  injection Hp as -> _. exact Hy.
Qed.

Lemma split_pieces_after_hit gs mo qs : forall ps cur,
  exists l, split_pieces gs cur (ps ++ Hit mo :: qs) = l ++ split_pieces gs [] qs.
Proof.
  induction ps as [|[c|mo'] ps IH]; intros cur; cbn [app split_pieces].
  - now exists (rev cur :: map (fun n => grp n mo) gs).
  - apply IH.
  - destruct (IH []) as [l E]. rewrite E.
    exists (rev cur :: map (fun n => grp n mo') gs ++ l).
    cbn [app]. now rewrite app_assoc.
Qed.

Lemma comma_hit_tail mo :
  hit_ok re_comma mo ->
  match m_text mo with [] => True | _ :: t => forallb (neg is_sep) t = true end.
Proof.
  intros H. destruct (comma_hit_shape mo H) as (d & ws & -> & _ & _ & Hw).
  rewrite forallb_forall in *. intros c Hc. unfold neg.
  now rewrite (space_not_sep c (Hw c Hc)).
Qed.

Lemma comma_match_at pre (sep : char) (ws rest : str) :
  is_sep sep = true -> forallb is_space ws = true -> stops is_space rest ->
  match_at re_comma pre (sep :: ws ++ rest)
  = Some (mk_rmatch (sep :: ws) [(1%nat, [sep])]).
Proof.
  intros Hsep Hws Hr. unfold match_at, re_comma. cbn [m].
  assert (K : forall g, star is_space (sep :: pre) (ws ++ rest) g final
                        = Some (rev ws ++ sep :: pre, rest, g)).
  { intros g. now apply star_max. }
  assert (C : consumed pre (rev ws ++ sep :: pre, rest, [(1%nat, [sep])])
              = sep :: ws).
  { unfold consumed.
    change (rev ws ++ sep :: pre) with (rev ws ++ [sep] ++ pre).
    rewrite app_assoc. change (rev ws ++ [sep]) with (rev (sep :: ws)).
    apply consumed_text. }
  assert (G1 : rev (firstn (length (sep :: pre) - length pre) (sep :: pre)) = [sep]).
  { change (sep :: pre) with (rev [sep] ++ pre). apply consumed_text. }
  apply sep_cases in Hsep. destruct Hsep as [-> | ->]; unfold chr; cbn [N.eqb Pos.eqb];
    rewrite G1, K; cbn [option_map to_match]; apply f_equal;
    (apply (f_equal2 mk_rmatch); [exact C | reflexivity]).
Qed.

Lemma block_names_in (w e : str) : forall names,
  In e names -> w <> [] -> forallb name_char w = true -> begins_with w e ->
  exists tok, In tok (block_names names) /\ begins_with w tok.
Proof.
  induction names as [|name names IH]; intros Hi Hn Hw Hb; [contradiction|].
  destruct Hi as [->|Hi].
  - pose proof (rstrip_begins w e Hw Hb) as H3.
    pose proof (lstrip_begins w _ Hn Hw H3) as H4.
    cbn [block_names]. destruct e as [|c e]; [now apply begins_with_nonempty in Hb|].
    rewrite H4. destruct (rstrip (c :: e)) as [|d l] eqn:R;
      [now apply begins_with_nonempty in H3|].
    exists (d :: l). split; [now left | exact H3].
  - destruct (IH Hi Hn Hw Hb) as (tok & Ht & Hb').
    exists tok. split; [|exact Hb']. cbn [block_names].
    destruct name as [|c name]; [exact Ht|].
    destruct (lstrip (rstrip (c :: name))); [exact Ht | now right].
Qed.

Lemma block_tokens_has_word (pre : str) (sep : char) (ws w x : str) :
  match pre with c :: _ => (c =? 40) = false | [] => True end ->
  is_sep sep = true -> forallb is_space ws = true ->
  w <> [] -> forallb name_char w = true -> stops name_char x ->
  str_eqb w (s_ "and") = false ->
  exists tok, In tok (block_tokens (pre ++ sep :: ws ++ w ++ x))
              /\ begins_with w tok.
Proof.
  intros Hpre Hsep Hws Hn Hw Hx Ha. unfold block_tokens.
  assert (Hsp : is_space sep = false).
  { destruct (is_space sep) eqn:S; [|reflexivity].
    now rewrite (space_not_sep sep S) in Hsep. }
  rewrite comment_not_open.
  2:{ destruct pre as [|c pre]; [|exact Hpre]. simpl.
      apply sep_cases in Hsep. destruct Hsep; subst; reflexivity. }
  rewrite sub_spaces_collapse. unfold collapse_spaces.
  rewrite collapse_from_at_nonspace by exact Hsp.
  destruct (collapse_spaces_word ws w x Hws Hn Hw) as (ws1 & Hws1 & ->).
  pose proof (collapse_stops x Hx) as Hy.
  set (X := collapse_from false pre). set (Y := collapse_from false x) in *.
  (* the connectives *)
  assert (S1 : exists (X' Y' : str),
    re_sub re_and (fun _ => s_ ",") (X ++ sep :: ws1 ++ w ++ Y)
    = X' ++ sep :: ws1 ++ w ++ Y' /\ stops name_char Y').
  { unfold re_sub, re_finditer.
    destruct (scan_resync re_and is_sep and_hit_tail X [] 0%nat sep
                (ws1 ++ w ++ Y) Hsep ltac:(lia)) as [ps E].
    rewrite E, scan_gap by now apply and_none_sep.
    rewrite (scan_gaps_spaces re_and (w ++ Y)) by
      (auto; intros; now apply and_none_spaces).
    rewrite (scan_gaps_run re_and name_char and_at_letter) by exact Hw.
    rewrite !map_app, !concat_app. cbn [map concat].
    rewrite !map_app, !concat_app, !concat_map_gaps by reflexivity.
    eexists _, _. split.
    - cbn [app]. reflexivity.
    - apply sub_tail_stops; [|exact Hy].
      intros mo. split; [reflexivity | discriminate]. }
  destruct S1 as (X' & Y' & -> & Hy').
  (* the split *)
  unfold re_split, re_finditer.
  destruct (scan_resync re_comma is_sep comma_hit_tail X' [] 0%nat sep
              (ws1 ++ w ++ Y') Hsep ltac:(lia)) as [ps E].
  rewrite E.
  destruct (word_first w Hn Hw) as (c & w' & Ew & Hc).
  assert (St : stops is_space (w ++ Y')).
  { rewrite Ew. simpl. now apply alpha_not_space. }
  change (sep :: ws1 ++ w ++ Y') with ((sep :: ws1) ++ w ++ Y').
  rewrite (scan_hit re_comma _ (sep :: ws1) (w ++ Y') [(1%nat, [sep])]);
    [|now apply comma_match_at | discriminate].
  destruct (split_pieces_after_hit [1%nat] (mk_rmatch (sep :: ws1) [(1%nat, [sep])])
              (scan re_comma (rev (sep :: ws1) ++ rev X' ++ []) (w ++ Y') 0) ps [])
    as [l El].
  rewrite El.
  destruct (split_pieces_begins re_comma [1%nat] w Y'
              (rev (sep :: ws1) ++ rev X' ++ []) comma_at_letter Hw Hy')
    as (e & more & Ee & Hb).
  rewrite Ee. apply (block_names_in w e); auto.
  apply in_or_app. right. now left.
Qed.

(** ** Recombination keeps a token that begins with a word *)

Lemma word_align_end (w y u : str) :
  w ++ y = u -> forallb name_char u = true -> stops name_char y -> w = u.
Proof.
  intros E Hu Hy. destruct y as [|c y]; [now rewrite app_nil_r in E|].
  exfalso. simpl in Hy. rewrite forallb_forall in Hu.
  assert (Hi : In c u) by (rewrite <- E; apply in_or_app; right; now left).
  specialize (Hu c Hi). congruence.
Qed.

Lemma suffix_den_shape pre t suf g0 g :
  den re_suffix pre t suf g0 g ->
  exists u r, t = u ++ r /\ (u = s_ "Jr" \/ u = s_ "Sr")
    /\ match r with [] => True | s :: _ => name_char s = false end
    /\ (suf = [] \/ suf = [10]).
Proof.
  intros D. unfold re_suffix in D.
  apply den_seq_cons in D. destruct D as (t1 & t2 & g1 & -> & D1 & D).
  apply den_seq_cons in D. destruct D as (t3 & t4 & g2 & -> & D2 & D).
  cbn [seq] in D. simpl in D1, D. destruct D1 as (-> & _).
  destruct D as (-> & _ & He). rewrite app_nil_r. cbn [app].
  cbn [den] in D2. destruct D2 as (g' & [D2|D2] & _).
  - destruct D2 as (u & r & g'' & -> & Du & Dr). apply den_lit in Du.
    destruct Du as [-> _]. exists (s_ "Jr"), r. split; [reflexivity|].
    split; [now left|]. split; [|exact He].
    simpl in Dr. break; exact I || reflexivity.
  - apply den_seq_cons in D2. destruct D2 as (u & r & g'' & -> & Du & Dr).
    apply den_lit in Du. destruct Du as [-> _].
    exists (s_ "Sr"), r. split; [reflexivity|]. split; [now right|].
    split; [|exact He].
    apply den_seq_cons in Dr. destruct Dr as (o & r' & g3 & -> & Do & Dr).
    apply den_seq_cons in Dr. destruct Dr as (b & r'' & g4 & -> & Db & _).
    simpl in Do, Db. break; reflexivity.
Qed.

Lemma suffix_begins (w tok : str) :
  w <> [] -> forallb name_char w = true -> begins_with w tok ->
  str_eqb w (s_ "Jr") = false -> str_eqb w (s_ "Sr") = false ->
  matches re_suffix tok = false.
Proof.
  intros Hn Hw (rest & -> & Hs) HJ HS.
  destruct (matches re_suffix (w ++ rest)) eqn:M; [exfalso|reflexivity].
  unfold matches in M. destruct (re_match re_suffix (w ++ rest)) as [mo|] eqn:E;
    [clear M|discriminate].
  apply match_at_sound in E. destruct E as (s' & Es & D).
  apply suffix_den_shape in D. destruct D as (u & r & Et & Hu & Hr & He).
  rewrite Et, <- app_assoc in Es.
  assert (Fu : forallb name_char u = true) by (destruct Hu; subst; reflexivity).
  assert (W : w = u).
  { destruct (r ++ s') as [|s t] eqn:R.
    - rewrite app_nil_r in Es. now apply (word_align_end w rest u).
    - apply (word_align w rest u t s); auto.
      destruct r as [|s0 r]; simpl in R.
      + subst s'. destruct He as [He|He]; [discriminate|].
        injection He as -> _. reflexivity.
      + injection R as <- _. exact Hr. }
  subst w. destruct Hu; subst; discriminate.
Qed.

Lemma begins_not_comma (w : str) :
  w <> [] -> forallb name_char w = true -> ~ begins_with w (s_ ",").
Proof.
  intros Hn Hw (rest & E & _). destruct (word_first w Hn Hw) as (c & w' & -> & Hc).
  simpl in E. injection E as <- _. discriminate.
Qed.

Lemma recombine_keeps (w : str) listx tok :
  w <> [] -> forallb name_char w = true ->
  In tok listx -> begins_with w tok -> matches re_suffix tok = false ->
  exists tok', In tok' (recombine listx) /\ begins_with w tok'.
Proof.
  intros Hn Hw Hi Hb Hm. unfold recombine.
  assert (G : forall l parts,
    (exists t, In t parts /\ begins_with w t) \/ In tok l ->
    exists t, In t (fold_left recombine_step l parts) /\ begins_with w t).
  { induction l as [|p l IH]; intros parts [H|H]; simpl; auto;
      try contradiction; apply IH.
    - left. destruct H as (t & Ht & Hbt). unfold recombine_step.
      destruct parts as [|separator [|last parts']];
        try (exists t; split; [now right | exact Hbt]).
      destruct (matches re_suffix p && str_eqb separator (s_ ",")
                && negb (matches re_closed last)) eqn:C;
        [|exists t; split; [now right | exact Hbt]].
      apply andb_true_iff in C. destruct C as [C _].
      apply andb_true_iff in C. destruct C as [_ C]. apply str_eqb_eq in C.
      subst separator. destruct Ht as [<-|[<-|Ht]].
      + exfalso. now apply (begins_not_comma w).
      + exists (last ++ s_ "," ++ s_ " " ++ p). split; [now left|].
        now apply begins_with_comma.
      + exists t. split; [now right | exact Hbt].
    - destruct H as [->|H]; [left | now right].
      exists tok. split; [|exact Hb]. unfold recombine_step.
      rewrite Hm. destruct parts as [|separator [|last parts']]; now left. }
  destruct (G listx [] (or_intror Hi)) as (t & Ht & Hbt).
  exists t. split; [now apply -> in_rev | exact Hbt].
Qed.

(** ** A token that begins with a word gives an entry *)

Lemma author_token_begins (w tok : str) :
  w <> [] -> forallb name_char w = true -> begins_with w tok ->
  is_et w = false -> is_author_token tok = true.
Proof.
  intros Hn Hw Ht He. unfold is_author_token.
  rewrite (et_al_begins w (_tidy_name tok)); auto using tidy_name_begins.
  destruct (begins_with_first w tok Hn Hw Ht) as (x & s' & -> & Hx).
  unfold matches, re_match, match_at, re_name_start, none_of. cbn [m].
  simpl. now rewrite (alpha_neq x 93 Hx), (alpha_neq x 40 Hx), (alpha_neq x 44 Hx) by lia.
Qed.

Lemma reserved_false (w : str) :
  reserved w = false ->
  is_et w = false /\ str_eqb w (s_ "and") = false
  /\ str_eqb w (s_ "Jr") = false /\ str_eqb w (s_ "Sr") = false.
Proof.
  unfold reserved. intros H. repeat (apply orb_false_iff in H; destruct H as [H ?]).
  auto.
Qed.

(** A line in which, with no parenthesis before it, a separator is followed
    by whitespace and a word that is not reserved, has a token that gives an
    entry. *)
Lemma later_word_token (pre : str) (sep : char) (ws w rest : str) :
  forallb not_paren pre = true -> is_sep sep = true ->
  forallb is_space ws = true ->
  w <> [] -> forallb name_char w = true -> stops name_char rest ->
  reserved w = false ->
  existsb is_author_token (split_authors (pre ++ sep :: ws ++ w ++ rest)) = true.
Proof.
  intros Hpre Hsep Hws Hn Hw Hs Hr.
  destruct (reserved_false w Hr) as (He & Ha & HJ & HS).
  assert (Hp : forallb not_paren (pre ++ sep :: ws ++ w) = true).
  { rewrite forallb_app, Hpre. cbn [forallb andb].
    apply andb_true_iff. split.
    - apply sep_cases in Hsep. destruct Hsep; subst; reflexivity.
    - rewrite forallb_app. apply andb_true_iff. split.
      + rewrite forallb_forall in *. intros c Hc. specialize (Hws c Hc).
        unfold not_paren, none_of. simpl. rewrite orb_false_r.
        destruct (N.eqb_spec c 40) as [->|_]; [discriminate|].
        destruct (N.eqb_spec c 41) as [->|_]; [discriminate|]. reflexivity.
      + rewrite forallb_forall in *. intros c Hc. specialize (Hw c Hc).
        unfold not_paren, none_of. simpl. rewrite orb_false_r.
        now rewrite (alpha_neq c 40 Hw), (alpha_neq c 41 Hw) by lia. }
  destruct (paren_blocks_prefix (pre ++ sep :: ws ++ w) rest) as (x & tail & y & E & Er);
    [destruct pre; discriminate | exact Hp |].
  assert (L : pre ++ sep :: ws ++ w ++ rest = (pre ++ sep :: ws ++ w) ++ rest).
  { rewrite <- !app_assoc. cbn [app]. now rewrite <- !app_assoc. }
  rewrite L. unfold split_authors.
  destruct ((pre ++ sep :: ws ++ w) ++ rest) as [|c0 l0] eqn:Z;
    [destruct pre; discriminate|]. rewrite <- Z in *. clear Z.
  rewrite E. cbn [flat_map].
  assert (Hx : stops name_char x).
  { subst rest. now apply begins_with_prefix in Hs. }
  destruct (block_tokens_has_word pre sep ws w x) as (tok & Ht & Hb); auto.
  { destruct pre as [|c pre]; [exact I|]. simpl in Hpre.
    apply andb_true_iff in Hpre. destruct Hpre as [Hc _].
    now destruct (not_paren_neq c Hc). }
  assert (B : (pre ++ sep :: ws ++ w) ++ x = pre ++ sep :: ws ++ w ++ x).
  { rewrite <- !app_assoc. cbn [app]. now rewrite <- !app_assoc. }
  rewrite B.
  destruct (recombine_keeps w
              (block_tokens (pre ++ sep :: ws ++ w ++ x) ++ flat_map block_tokens tail)
              tok Hn Hw) as (tok' & Ht' & Hb'); auto.
  { apply in_or_app. now left. }
  { now apply (suffix_begins w). }
  apply existsb_exists. exists tok'. split; [exact Ht'|].
  now apply (author_token_begins w).
Qed.

(** * The claims *)

(** ** The scenario with enumerated affiliations *)

(** C3.  The line "A.B. First, C.D. Second (1), E.F. Third, G.H. Forth (2,3)"
    with the enumerated affiliations 1: Inst1, 2: Inst2, 3: Inst3 gives four
    records: First and Second end with Inst1 (First by back propagation),
    Third and Forth with Inst2, Inst3.  This holds when the dictionary is
    handed to the split, and when it comes from the trailing block
    " ((1) Inst1, (2) Inst2, (3) Inst3)" of the line, through the whole
    parser. *)
Theorem C3_enumerated_scenario :
  (let (author_list, back_prop) :=
     entries_of_names scenario_line scenario_enum
       (candidate_names (split_authors scenario_line)) in
   _parse_author_affil_back_propagate author_list back_prop) = scenario_records
  /\ _enum_collaboration_at_end (scenario_line ++ scenario_block) = scenario_enum
  /\ parse_author_affil (scenario_line ++ scenario_block) = scenario_records
  /\ parse_author_affil_utf (scenario_line ++ scenario_block) = scenario_records.
Proof. repeat split; vm_compute; reflexivity. Qed.

(** ** Unknown macros and the fallback of [texch2UTF] *)

Lemma tex2utf_unknown_macro : tex2utf (s_ "\xyz123") = s_ "\xyz123".
Proof. vm_compute. reflexivity. Qed.

(** C4, as the code has it.  [tex2utf] leaves the unknown macro \xyz123 as
    it is, backslash included.  The stripping fallback belongs to the accent
    escapes only: for an accent mark and an ASCII letter that are not a key
    of [accents], [texch2UTF] returns the letter alone. *)
Theorem C4_unknown_escape_kept :
  tex2utf (s_ "\xyz123") = s_ "\xyz123"
  /\ forall a c, accent_mark a = true -> is_alpha_ascii c = true ->
       table_get accents [a; c] = None -> texch2UTF [a; c] = [c].
Proof.
  split; [apply tex2utf_unknown_macro|].
  intros a c Ha Hc Hk. unfold texch2UTF. rewrite Hk.
  pose proof (is_word_alpha c Hc) as Hw.
  assert (Hn : is_word a = false)
    by (apply accent_mark_cases in Ha; intuition (subst; reflexivity)).
  unfold re_sub, re_finditer, re_non_word, Plus.
  rewrite (scan_hit _ [] [a] [c] []).
  - rewrite scan_gap, scan_end; try reflexivity.
    unfold match_at. simpl. unfold neg. rewrite Hw. reflexivity.
  - unfold match_at. simpl. unfold neg. rewrite Hn, Hw. reflexivity.
  - discriminate.
Qed.

(** ** Suffixes after a comma *)

(** C8, evaluated.  "Jr." and "Jr" after a comma are joined to the name; "Sr."
    and the roman numerals are not: the suffix pattern asks for Sr, a
    bracket, IV and closing brackets. *)
Theorem C8_suffix_recombination :
  split_authors (s_ "Smith, Jr.") = [s_ "Smith, Jr."]
  /\ split_authors (s_ "Smith, Jr") = [s_ "Smith, Jr"]
  /\ split_authors (s_ "Smith, Sr.") = [s_ "Smith"; s_ ","; s_ "Sr."]
  /\ split_authors (s_ "Smith, II") = [s_ "Smith"; s_ ","; s_ "II"]
  /\ split_authors (s_ "Smith, III") = [s_ "Smith"; s_ ","; s_ "III"]
  /\ split_authors (s_ "Smith, IV") = [s_ "Smith"; s_ ","; s_ "IV"]
  /\ matches re_suffix (s_ "Sr.[IV]]") = true.
Proof. repeat split; vm_compute; reflexivity. Qed.

(** ** Accents on the dotless i *)

(** C9, evaluated.  The first pass asks for a slash before the accent, so it
    leaves an accented dotless i alone; the next pass turns the braced
    dotless i into U+0131, and the accent passes, which look for an ASCII
    letter, leave backslash, accent and U+0131.  With the slash the pass
    writes backslashes before the braces, which no later pass reads
    either. *)
Theorem C9_dotless_i_not_repaired :
  re_sub re_dotless (fun mo => grp 1 mo ++ s_ "\{" ++ grp 2 mo ++ s_ "\}")
         (s_ "\'{\i}") = s_ "\'{\i}"
  /\ tex2utf (s_ "\'{\i}") = s_ "\'" ++ [0x0131]
  /\ tex2utf (s_ "\^{\i}") = s_ "\^" ++ [0x0131]
  /\ tex2utf (s_ "/\'{\i}") = s_ "\'\{i\}"
  /\ tex2utf (s_ "\'{i}") = [0x00ed].
Proof. repeat split; vm_compute; reflexivity. Qed.

(** ** Idempotence *)

(** C5.  On a text without a backslash, that is without TeX escape,
    [tex2utf] applied twice gives what it gives applied once, with or without
    the Greek letters. *)
Theorem C5_tex2utf_idempotent (x : str) :
  no_backslash x ->
  tex2utf (tex2utf x) = tex2utf x
  /\ forall greek,
       tex2utf_greek (tex2utf_greek x greek) greek = tex2utf_greek x greek.
Proof.
  intros H.
  assert (G : forall greek,
    tex2utf_greek (tex2utf_greek x greek) greek = tex2utf_greek x greek).
  { intros greek. rewrite (tex2utf_greek_no_backslash x greek H).
    rewrite tex2utf_greek_no_backslash
      by (apply collapse_braces_loop_no_backslash, H).
    apply collapse_braces_fixed, collapse_braces_done. }
  split; [exact (G true) | exact G].
Qed.

(** ** Key names *)

(** C6.  Every entry that the parser gives, from [parse_author_affil] and
    from [parse_author_affil_utf], has a key name that is not empty.  When
    none of the four name patterns matches a name, the entry made from it
    has the whole name as key name and empty first names and suffix; a name
    without whitespace is such a name. *)
Theorem C6_keyname_nonempty :
  (forall authors,
     Forall (fun e => keyname e <> []) (parse_author_affil authors))
  /\ (forall authors,
        Forall (fun e => keyname e <> []) (parse_author_affil_utf authors))
  /\ (forall name,
        re_match re_double_prefix name = None ->
        re_match re_name_prefix_name name = None ->
        re_match re_name_name_suffix name = None ->
        re_match re_name_name name = None ->
        split_name name = [name; []; []])
  /\ (forall name,
        forallb not_space name = true -> split_name name = [name; []; []]).
Proof.
  split; [exact parse_author_affil_keyname|]. split.
  - intros authors. unfold parse_author_affil_utf.
    destruct authors as [|c l]; [constructor|].
    apply Forall_map. pose proof (parse_author_affil_keyname (c :: l)) as H.
    rewrite Forall_forall in *. intros e He. specialize (H e He).
    destruct e as [|k rest]; [exact H|]. unfold keyname in *.
    cbn [map nth] in *. unfold tex2utf. now apply tex2utf_greek_nonempty.
  - split; [|exact split_name_no_space].
    intros name H1 H2 H3 H4. unfold split_name. now rewrite H1, H2, H3, H4.
Qed.

(** ** Lines that give no entry *)

Lemma token_gives_entry (authors : str) :
  existsb is_author_token (split_authors authors) = true ->
  parse_author_affil authors <> [] /\ parse_author_affil_utf authors <> [].
Proof.
  intros H. assert (G : parse_author_affil authors <> [])
    by now apply parse_author_affil_nonempty.
  split; [exact G|]. unfold parse_author_affil_utf.
  destruct authors as [|c l]; [discriminate H|].
  destruct (parse_author_affil (c :: l)); [congruence | discriminate].
Qed.

(** C7, as the code has it.  A word is one or more ASCII letters, or
    characters beyond ASCII that are not whitespace, up to a character that
    is none of these or to the end of the line.  A line that begins with a
    word other than [et] (in either case, which may open an et-al token)
    gives at least one entry.  So does a line in which, with no parenthesis
    before it, a comma or a colon is followed by optional whitespace and a
    word other than [et], the connective [and] and the suffixes [Jr] and
    [Sr]. *)
Theorem C7_word_gives_entry :
  (forall w rest : str,
     w <> [] -> forallb name_char w = true -> stops name_char rest ->
     is_et w = false ->
     parse_author_affil (w ++ rest) <> []
     /\ parse_author_affil_utf (w ++ rest) <> [])
  /\ (forall (pre : str) (sep : char) (ws w rest : str),
        forallb not_paren pre = true -> is_sep sep = true ->
        forallb is_space ws = true ->
        w <> [] -> forallb name_char w = true -> stops name_char rest ->
        reserved w = false ->
        parse_author_affil (pre ++ sep :: ws ++ w ++ rest) <> []
        /\ parse_author_affil_utf (pre ++ sep :: ws ++ w ++ rest) <> []).
Proof.
  split.
  - intros w rest Hn Hw Hs He. apply token_gives_entry.
    now apply first_word_token.
  - intros pre sep ws w rest Hpre Hsep Hws Hn Hw Hs Hr.
    apply token_gives_entry. now apply later_word_token.
Qed.

(** ** Et-al tokens *)

(** C10.  A name that matches the et-al pattern is dropped before the
    entries are made: the entries of a list of names are those of the list
    without it.  A line that the pattern matches in full parses to no entry
    at all. *)
Theorem C10_et_al_discarded :
  (forall author_line enumaffils names1 n names2,
     matches re_et_al n = true ->
     entries_of_names author_line enumaffils (names1 ++ n :: names2)
     = entries_of_names author_line enumaffils (names1 ++ names2))
  /\ (forall s, et_al_only s = true ->
        parse_author_affil s = [] /\ parse_author_affil_utf s = []).
Proof.
  split.
  - intros author_line enumaffils names1 n names2 H. unfold entries_of_names.
    rewrite !filter_app. simpl. now rewrite H.
  - intros s H. pose proof (et_al_only_parse s H) as E. split; [exact E|].
    unfold parse_author_affil_utf. destruct s; [reflexivity|]. now rewrite E.
Qed.

(** ** Putting the tokens together again *)

(** C1, as the code has it.  The blocks between parentheses, put together,
    are the line itself.  The tokens, put together, read like the line on a
    line in which no name block holds a connective " and " or " & ", which
    the tokenizer rewrites to a comma: the reading drops the whitespace at
    both ends and beside a comma, a colon or a parenthesis, takes any other
    run of whitespace for one blank, and drops nothing else. *)
Theorem C1_tokens_reconstruct (authors : str) :
  concat (paren_blocks authors) = authors
  /\ (no_connective authors = true ->
      normalize (concat (split_authors authors)) = normalize authors)
  /\ remove_ws (normalize authors) = remove_ws authors.
Proof.
  split; [apply paren_blocks_concat|].
  split; [apply split_authors_normalize | apply norm_from_keeps].
Qed.

(** ** The parenthesis after a name *)

(** C2, as the code has it.  Let the name stand somewhere in the line, with
    any runs of whitespace for its spaces, followed by optional whitespace,
    an opening parenthesis and a character that is not a parenthesis.  Then
    [_add_affiliation] finds the leftmost such place, at or before the given
    one, and reads the characters after that parenthesis up to the next
    parenthesis or the end.  When the content, trimmed, is a list of digit
    strings with commas between them, the affiliations of those that are
    keys of the dictionary are appended, in order.  When it is free text --
    some character is none of digit, comma, whitespace, ampersand and the
    letters a, n, d, and no slash stands directly before a comma -- it is
    appended, trimmed, as one affiliation. *)
Theorem C2_affiliation_after_name
    author_line enumaffils author_entry name p occ w c rest0 :
  author_line = p ++ occ ++ w ++ 40 :: c :: rest0 ->
  loose name occ -> forallb is_space w = true -> not_paren c = true ->
  exists pre occ' w' content rest,
    author_line = pre ++ occ' ++ w' ++ [40] ++ content ++ rest
    /\ (length pre <= length p)%nat
    /\ loose name occ' /\ forallb is_space w' = true
    /\ content <> [] /\ forallb not_paren content = true
    /\ stops not_paren rest
    /\ (forall labels,
          lstrip (rstrip content) = join_commas labels ->
          lstrip (rstrip content) <> [] ->
          Forall (fun l => forallb is_digit l = true) labels ->
          _add_affiliation author_line enumaffils author_entry name
          = author_entry ++ flat_map (keyed enumaffils) labels)
    /\ (free_text (lstrip (rstrip content)) = true ->
          _add_affiliation author_line enumaffils author_entry name
          = author_entry ++ [lstrip (rstrip content)]).
Proof.
  intros -> L W Hc.
  pose proof (namerex_complete name (rev p ++ []) occ w c rest0 L W Hc) as Hp.
  pose proof (search_from_complete _ _ _ _ Hp) as Hs.
  destruct (search_from (namerex name) [] (p ++ occ ++ w ++ 40 :: c :: rest0))
    as [mo|] eqn:E; [|exfalso; apply Hs; exact E].
  destruct (search_from_spec _ _ _ _ E) as (a & b & Eab & Hm & Hl).
  destruct (namerex_match_at _ _ _ _ Hm)
    as (occ' & w' & content & rest & -> & L' & W' & Hn & Hc' & Hst & Hg).
  exists a, occ', w', content, rest. repeat split; auto.
  - destruct (Nat.le_gt_cases (length a) (length p)) as [|Hlt]; [assumption|].
    exfalso. apply Hp. apply (Hl p _ eq_refl Hlt).
  - rewrite <- Hg. intros labels. now apply add_affiliation_labels.
  - rewrite <- Hg. now apply add_affiliation_free_text.
Qed.

(** * Further properties *)

(** ** Back propagation *)




(** ** Records *)






(** ** The transliterator on plain text *)




End Unicode.

(** * Merging files *)



Lemma get_json_paper_id_nil : get_json_paper_id [] = [].
Proof. reflexivity. Qed.



Lemma truthy_true (s : str) : truthy s = true <-> s <> [].
Proof. destruct s; simpl; split; congruence. Qed.











Lemma reading_end json tmp_sorted out cj cm cn cr cs ci :
  lines_read json = [] -> lines_read tmp_sorted = [] ->
  truthy (json_paper_id (reading json tmp_sorted out cj cm cn cr cs ci))
  || truthy (tmp_sorted_paper_id (reading json tmp_sorted out cj cm cn cr cs ci))
  = false.
Proof.
  intros J S. destruct json as [|j json], tmp_sorted as [|s tmp_sorted];
    simpl in *; unfold has_id in *;
    repeat match goal with
    | H : (if ?b then _ else _) = [] |- _ => destruct b eqn:?; [discriminate H|]
    end; cbn -[get_json_paper_id];
    repeat match goal with H : truthy _ = false |- _ => rewrite H end;
    reflexivity.
Qed.

Lemma lines_read_cons l f :
  has_id l = true -> lines_read (l :: f) = l :: lines_read f.
Proof. intros H. simpl. now rewrite H. Qed.





(** ** The merge by paper id *)









(** ** What [get_json_paper_id] and [merge_files] do *)






(** * Instances

    The theorems at concrete texts, with the tables [ascii_digit],
    [ascii_word] and [ascii_ci]; the texts are ASCII, where the tables are
    not consulted. *)

Lemma C5_tex2utf_idempotent_witness :
  no_backslash (s_ "{{{a}}} {b}")
  /\ tex2utf ascii_word (tex2utf ascii_word (s_ "{{{a}}} {b}"))
     = tex2utf ascii_word (s_ "{{{a}}} {b}").
Proof.
  assert (H : no_backslash (s_ "{{{a}}} {b}")).
  { intros H. simpl in H. repeat (destruct H as [H|H]; [discriminate H|]). exact H. }
  split; [exact H|].
  apply (C5_tex2utf_idempotent ascii_digit ascii_word ascii_ci _ H).
Defined.

Lemma C4_unknown_escape_kept_witness :
  accent_mark 39 = true /\ is_alpha_ascii 113 = true
  /\ table_get accents [39; 113] = None
  /\ texch2UTF ascii_word [39; 113] = [113].
Proof.
  split; [reflexivity|]. split; [reflexivity|]. split; [reflexivity|].
  apply (proj2 (C4_unknown_escape_kept ascii_digit ascii_word ascii_ci) 39 113);
    reflexivity.
Defined.

(** The claim C4 at its own input: the result still holds the backslash and
    is not the alphanumeric remainder. *)
Lemma C4_counterexample :
  In 92 (tex2utf ascii_word (s_ "\xyz123"))
  /\ tex2utf ascii_word (s_ "\xyz123") <> s_ "xyz123".
Proof.
  rewrite (tex2utf_unknown_macro ascii_word).
  split; [simpl; auto | discriminate].
Qed.

Lemma C6_keyname_nonempty_witness :
  re_match ascii_word (re_double_prefix ascii_ci) (s_ "Cher") = None
  /\ re_match ascii_word (re_name_prefix_name ascii_ci) (s_ "Cher") = None
  /\ re_match ascii_word (re_name_name_suffix ascii_ci) (s_ "Cher") = None
  /\ re_match ascii_word re_name_name (s_ "Cher") = None
  /\ forallb not_space (s_ "Cher") = true
  /\ split_name ascii_word ascii_ci (s_ "Cher") = [s_ "Cher"; []; []].
Proof.
  repeat (split; [reflexivity|]).
  apply (proj1 (proj2 (proj2 (C6_keyname_nonempty ascii_digit ascii_word ascii_ci))));
    reflexivity.
Defined.

Lemma C7_word_gives_entry_witness :
  s_ "J" <> [] /\ forallb name_char (s_ "J") = true
  /\ stops name_char (s_ ". Smith (MIT), et al") /\ is_et (s_ "J") = false
  /\ parse_author_affil_utf ascii_digit ascii_word ascii_ci
       (s_ "J" ++ s_ ". Smith (MIT), et al") <> []
  /\ forallb not_paren (s_ "et al") = true /\ is_sep 44 = true
  /\ forallb is_space (s_ " ") = true /\ s_ "Smith" <> []
  /\ forallb name_char (s_ "Smith") = true /\ stops name_char (s_ " (MIT)")
  /\ reserved (s_ "Smith") = false
  /\ parse_author_affil_utf ascii_digit ascii_word ascii_ci
       (s_ "et al" ++ 44 :: s_ " " ++ s_ "Smith" ++ s_ " (MIT)") <> [].
Proof.
  assert (H1 : s_ "J" <> []) by discriminate.
  assert (H2 : s_ "Smith" <> []) by discriminate.
  split; [exact H1|]. split; [reflexivity|]. split; [reflexivity|].
  split; [reflexivity|]. split.
  - apply (proj1 (C7_word_gives_entry ascii_digit ascii_word ascii_ci)
             (s_ "J") (s_ ". Smith (MIT), et al") H1); reflexivity.
  - split; [reflexivity|]. split; [reflexivity|]. split; [reflexivity|].
    split; [exact H2|]. split; [reflexivity|]. split; [reflexivity|].
    split; [reflexivity|].
    apply (proj2 (C7_word_gives_entry ascii_digit ascii_word ascii_ci)
             (s_ "et al") 44 (s_ " ") (s_ "Smith") (s_ " (MIT)"));
      [reflexivity | reflexivity | reflexivity | exact H2 | reflexivity
      | reflexivity | reflexivity].
Defined.

(** The claim C7 at two lines that are not empty and hold letters: an et-al
    token alone, and a parenthesised block alone. *)
Lemma C7_counterexample :
  In 101 (s_ "et al") /\ is_alpha_ascii 101 = true
  /\ parse_author_affil_utf ascii_digit ascii_word ascii_ci (s_ "et al") = []
  /\ In 77 (s_ "(MIT)") /\ is_alpha_ascii 77 = true
  /\ parse_author_affil_utf ascii_digit ascii_word ascii_ci (s_ "(MIT)") = [].
Proof. repeat split; try (vm_compute; reflexivity); simpl; auto. Qed.

(** Why the connective and the suffix are left out after a separator: the
    tokenizer writes a comma for the connective, and joins the suffix to
    the token before it. *)
Example reserved_words_after_separator :
  parse_author_affil_utf ascii_digit ascii_word ascii_ci (s_ ", and ") = []
  /\ parse_author_affil_utf ascii_digit ascii_word ascii_ci (s_ "et al, Jr") = []
  /\ parse_author_affil_utf ascii_digit ascii_word ascii_ci (s_ "et al, Smith")
     = [[s_ "Smith"; []; []]].
Proof. repeat split; vm_compute; reflexivity. Qed.

Lemma C10_et_al_discarded_witness :
  matches ascii_word (re_et_al ascii_ci) (s_ "Et. Al.") = true
  /\ entries_of_names ascii_digit ascii_word ascii_ci (s_ "J. Smith, et. al.") []
       ([s_ "J. Smith"] ++ s_ "Et. Al." :: [])
     = entries_of_names ascii_digit ascii_word ascii_ci (s_ "J. Smith, et. al.") []
         ([s_ "J. Smith"] ++ [])
  /\ et_al_only ascii_word ascii_ci (s_ " et.  al. ") = true
  /\ parse_author_affil_utf ascii_digit ascii_word ascii_ci (s_ " et.  al. ") = [].
Proof.
  split; [reflexivity|]. split.
  - apply (proj1 (C10_et_al_discarded ascii_digit ascii_word ascii_ci)).
    reflexivity.
  - split; [reflexivity|].
    apply (proj2 (C10_et_al_discarded ascii_digit ascii_word ascii_ci)).
    reflexivity.
Defined.

Lemma C1_tokens_reconstruct_witness :
  no_connective ascii_word (s_ " J.   Smith ,  K. Jones, Jr. ( MIT (USA)):  L. Lee ")
  = true
  /\ normalize (concat (split_authors ascii_word
                  (s_ " J.   Smith ,  K. Jones, Jr. ( MIT (USA)):  L. Lee ")))
     = normalize (s_ " J.   Smith ,  K. Jones, Jr. ( MIT (USA)):  L. Lee ").
Proof.
  assert (H : no_connective ascii_word
                (s_ " J.   Smith ,  K. Jones, Jr. ( MIT (USA)):  L. Lee ") = true)
    by reflexivity.
  split; [exact H|].
  apply (proj1 (proj2 (C1_tokens_reconstruct ascii_word _)) H).
Defined.

(** The claim C1 at two lines.  With a connective the tokens differ from the
    line even when all whitespace is left out; with a blank after a comma
    they differ from it when runs of whitespace are collapsed. *)
Lemma C1_counterexample :
  concat (split_authors ascii_word (s_ "A and B")) = s_ "A,B"
  /\ remove_ws (concat (split_authors ascii_word (s_ "A and B")))
     <> remove_ws (s_ "A and B")
  /\ collapse_spaces (concat (split_authors ascii_word (s_ "A, B")))
     <> collapse_spaces (s_ "A, B").
Proof. repeat split; try reflexivity; vm_compute; discriminate. Qed.

(** The reading keeps the blank inside a name: it tells the token
    [J. Smith] from [J.Smith]. *)
Example normalize_blank_in_name :
  normalize (s_ " J.   Smith ,  K. Jones ") = s_ "J. Smith,K. Jones"
  /\ split_authors ascii_word (s_ "J.   Smith") = [s_ "J. Smith"]
  /\ normalize (s_ "J. Smith") <> normalize (s_ "J.Smith").
Proof. repeat split; try reflexivity; vm_compute; discriminate. Qed.

Lemma loose_A_Smith : loose ascii_ci (s_ "A Smith") (s_ "A  Smith").
Proof.
  exists 65, (s_ "  Smith"). repeat split.
  exists (s_ "  "), (s_ "Smith"). repeat split.
  repeat (eexists; eexists; split; [reflexivity | split; [reflexivity|]]).
  reflexivity.
Defined.

Lemma C2_affiliation_after_name_witness :
  s_ "A  Smith (MIT) and B" = [] ++ s_ "A  Smith" ++ s_ " " ++ 40 :: 77 :: s_ "IT) and B"
  /\ loose ascii_ci (s_ "A Smith") (s_ "A  Smith")
  /\ forallb is_space (s_ " ") = true /\ not_paren 77 = true
  /\ exists pre occ' w' content rest,
       s_ "A  Smith (MIT) and B" = pre ++ occ' ++ w' ++ [40] ++ content ++ rest
       /\ (length pre <= length (@nil char))%nat
       /\ loose ascii_ci (s_ "A Smith") occ' /\ forallb is_space w' = true
       /\ content <> [] /\ forallb not_paren content = true
       /\ stops not_paren rest
       /\ (forall labels,
             lstrip (rstrip content) = join_commas labels ->
             lstrip (rstrip content) <> [] ->
             Forall (fun l => forallb (is_digit ascii_digit) l = true) labels ->
             _add_affiliation ascii_digit ascii_word ascii_ci
               (s_ "A  Smith (MIT) and B") [] [s_ "Smith"; s_ "A"; []] (s_ "A Smith")
             = [s_ "Smith"; s_ "A"; []] ++ flat_map (keyed []) labels)
       /\ (free_text ascii_digit (lstrip (rstrip content)) = true ->
             _add_affiliation ascii_digit ascii_word ascii_ci
               (s_ "A  Smith (MIT) and B") [] [s_ "Smith"; s_ "A"; []] (s_ "A Smith")
             = [s_ "Smith"; s_ "A"; []] ++ [lstrip (rstrip content)]).
Proof.
  split; [reflexivity|]. split; [exact loose_A_Smith|].
  split; [reflexivity|]. split; [reflexivity|].
  apply (C2_affiliation_after_name ascii_digit ascii_word ascii_ci
           _ [] [s_ "Smith"; s_ "A"; []] (s_ "A Smith")
           [] (s_ "A  Smith") (s_ " ") 77 (s_ "IT) and B"));
    [reflexivity | exact loose_A_Smith | reflexivity | reflexivity].
Defined.

(** The claim C2 at a line where the name, with two blanks for its space,
    stands right before an opening parenthesis: the parenthesis opens the
    enumerated block, no character other than a parenthesis follows it, and
    the entry comes back as it was. *)
Lemma C2_counterexample :
  s_ "A  Smith((1) X)" = s_ "A  Smith" ++ s_ "((1) X)"
  /\ loose ascii_ci (s_ "A Smith") (s_ "A  Smith")
  /\ _add_affiliation ascii_digit ascii_word ascii_ci (s_ "A  Smith((1) X)")
       [(s_ "1", s_ "X")] [s_ "Smith"; s_ "A"; []] (s_ "A Smith")
     = [s_ "Smith"; s_ "A"; []]
  /\ _add_affiliation ascii_digit ascii_word ascii_ci (s_ "A  Smith()")
       [(s_ "1", s_ "X")] [s_ "Smith"; s_ "A"; []] (s_ "A Smith")
     = [s_ "Smith"; s_ "A"; []].
Proof.
  split; [reflexivity|]. split; [exact loose_A_Smith|].
  split; vm_compute; reflexivity.
Qed.









